(** * PEG.js code emitter (src/emitter.js): template engine, emission
      functions and the behaviour of the emitted packrat parser.

    JavaScript strings are sequences of 16-bit code units; they are modelled
    as lists of [N].  The emitter itself is a text generator; the emitted
    parser is modelled by an interpreter that executes, for each node kind,
    the statements of the template emitted for that kind. *)

From Stdlib Require Import String Ascii NArith ZArith Lia Bool.
From Stdlib Require Import DecimalString DecimalNat.
From stdpp Require Import base option list gmap sorting.

Local Open Scope N_scope.
Local Open Scope nat_scope.
Local Open Scope list_scope.

(** ** JavaScript strings *)

Module Js.

Abbreviation jschar := N.
Abbreviation jsstring := (list N).

(** A source literal (ASCII text) as a JavaScript string. *)
Definition js (s : string) : jsstring :=
  List.map N_of_ascii (list_ascii_of_string s).

Definition LF : jschar := 10%N.
Definition CR : jschar := 13%N.
Definition LS : jschar := 8232%N. (* U+2028 *)
Definition PS : jschar := 8233%N. (* U+2029 *)
Definition DQUOTE : jschar := 34%N.
Definition BACKSLASH : jschar := 92%N.

Definition dq : jsstring := [DQUOTE].
Definition nl : jsstring := [LF].

Definition jschar_eqb (a b : jschar) : bool := N.eqb a b.

Fixpoint jsstring_eqb (a b : jsstring) : bool :=
  match a, b with
  | [], [] => true
  | x :: a', y :: b' => N.eqb x y && jsstring_eqb a' b'
  | _, _ => false
  end.

(** [Array.prototype.join]. *)
Fixpoint join (sep : jsstring) (l : list jsstring) : jsstring :=
  match l with
  | [] => []
  | [x] => x
  | x :: rest => x ++ sep ++ join sep rest
  end.

(** [String.prototype.split] with a one-character separator: the result
    always has at least one element. *)
Fixpoint split_on (sep : jschar) (s : jsstring) : list jsstring :=
  match s with
  | [] => [[]]
  | c :: rest =>
      if N.eqb c sep then [] :: split_on sep rest
      else match split_on sep rest with
           | [] => [[c]]
           | l :: ls => (c :: l) :: ls
           end
  end.

(** The characters matched by the regular expression class [\s]
    (ECMA-262 5th ed., 15.10.2.12: WhiteSpace and LineTerminator). *)
Definition is_whitespace (c : jschar) : bool :=
  (N.eqb c 9 || N.eqb c 10 || N.eqb c 11 || N.eqb c 12 || N.eqb c 13
   || N.eqb c 32 || N.eqb c 160 || N.eqb c 5760
   || (N.leb 8192 c && N.leb c 8202)
   || N.eqb c 8232 || N.eqb c 8233 || N.eqb c 8239 || N.eqb c 8287
   || N.eqb c 12288 || N.eqb c 65279)%N.

(** Longest prefix of characters satisfying [p], and the rest. *)
Fixpoint span (p : jschar -> bool) (s : jsstring) : jsstring * jsstring :=
  match s with
  | [] => ([], [])
  | c :: rest =>
      if p c then let '(a, b) := span p rest in (c :: a, b)
      else ([], s)
  end.

(** Hexadecimal digits of a number, most significant first, upper case:
    [n.toString(16).toUpperCase()]. *)
Definition hex_digit (d : N) : jschar :=
  (if d <? 10 then 48 + d else 55 + d)%N.

Fixpoint to_hex_fuel (fuel : nat) (n : N) (acc : jsstring) : jsstring :=
  match fuel with
  | O => acc
  | S fuel' =>
      let acc' := hex_digit (n mod 16)%N :: acc in
      if (n / 16 =? 0)%N then acc' else to_hex_fuel fuel' (n / 16)%N acc'
  end.

Definition to_hex_upper (n : N) : jsstring :=
  to_hex_fuel (S (N.to_nat (N.log2 n))) n [].

(** Decimal representation of a non-negative integer: [String(n)]. *)
Definition to_decimal (n : nat) : jsstring :=
  js (NilEmpty.string_of_uint (Nat.to_uint n)).

(** [input.substr(pos, len)]. *)
Definition substr (s : jsstring) (pos len : nat) : jsstring :=
  take len (drop pos s).

(** [input.charAt(i)]: the empty string out of range. *)
Definition charAt (s : jsstring) (i : nat) : jsstring :=
  match s !! i with
  | Some c => [c]
  | None => []
  end.

(** Order of the default [Array.prototype.sort] on strings: lexicographic
    on code units. *)
Fixpoint js_leb (a b : jsstring) : bool :=
  match a, b with
  | [], _ => true
  | _ :: _, [] => false
  | x :: a', y :: b' =>
      if (x <? y)%N then true
      else if (y <? x)%N then false
      else js_leb a' b'
  end.

Definition js_le (a b : jsstring) : Prop := js_leb a b = true.

#[export] Instance js_le_dec a b : Decision (js_le a b).
Proof. unfold js_le. apply _. Defined.

(** [array.sort()] on an array of strings. *)
Definition js_sort (l : list jsstring) : list jsstring := merge_sort js_le l.

End Js.
Export Js.

(** ** Quoting (the [quote], [escape] and [padLeft] helpers) *)

Module Quote.

(** [padLeft(input, padding, length)]: the loop prepends [padding]
    [length - input.length] times (no times when that is not positive). *)
Definition padLeft (input padding : jsstring) (len : nat) : jsstring :=
  Nat.iter (len - length input) (fun result => padding ++ result) input.

(** [escape(ch)] for a code unit. *)
Definition escape (charCode : N) : jsstring :=
  let '(escapeChar, len) :=
    if (charCode <=? 255)%N then (js "x", 2) else (js "u", 4) in
  [BACKSLASH] ++ escapeChar ++ padLeft (to_hex_upper charCode) (js "0") len.

(** [s.replace(/c/g, r)] for a pattern that matches single characters,
    with the replacement computed from the matched character. *)
Definition replace_chars (p : jschar -> bool) (r : jschar -> jsstring)
    (s : jsstring) : jsstring :=
  flat_map (fun c => if p c then r c else [c]) s.

(** Modelled from the spec: [quote] is defined in utils.js, outside
    emitter.js.  The emitter inlines a copy of it into the generated parser
    (emitter.js lines 168-182), declared to be in sync with it, and the
    specification gives the same string-escape rules.  The five
    replacements are applied in the order of that copy. *)
Definition quote (s : jsstring) : jsstring :=
  let s1 := replace_chars (N.eqb BACKSLASH) (fun _ => [BACKSLASH; BACKSLASH]) s in
  let s2 := replace_chars (N.eqb DQUOTE) (fun _ => [BACKSLASH; DQUOTE]) s1 in
  let s3 := replace_chars (N.eqb CR) (fun _ => BACKSLASH :: js "r") s2 in
  let s4 := replace_chars (N.eqb LF) (fun _ => BACKSLASH :: js "n") s3 in
  let s5 := replace_chars (fun c => (128 <=? c)%N && (c <=? 65535)%N) escape s4 in
  dq ++ s5 ++ dq.

End Quote.
Export Quote.

(** ** Template engine ([formatCode]) *)

Module Template.

(** The two [Error]s thrown by [formatCode]. *)
Inductive error :=
| UndefinedVariable (name : jsstring)
| UnrecognizedFilter (name : jsstring).

(** Computations that may throw. *)
Inductive exc (A : Type) :=
| Return (a : A)
| Raise (e : error).
Arguments Return {A} a.
Arguments Raise {A} e.

Definition exc_bind {A B} (m : exc A) (k : A -> exc B) : exc B :=
  match m with
  | Return a => k a
  | Raise e => Raise e
  end.

Fixpoint exc_mapM {A B} (f : A -> exc B) (l : list A) : exc (list B) :=
  match l with
  | [] => Return []
  | x :: rest =>
      exc_bind (f x) (fun y =>
      exc_bind (exc_mapM f rest) (fun ys => Return (y :: ys)))
  end.

(** The variable set: the properties of the object passed last. *)
Definition vars := list (jsstring * jsstring).

Fixpoint lookup_var (vs : vars) (name : jsstring) : option jsstring :=
  match vs with
  | [] => None
  | (k, v) :: rest => if jsstring_eqb k name then Some v else lookup_var rest name
  end.

Definition is_ident_start (c : jschar) : bool :=
  ((65 <=? c) && (c <=? 90) || (97 <=? c) && (c <=? 122) || (c =? 95))%N.

Definition is_ident_char (c : jschar) : bool :=
  is_ident_start c || ((48 <=? c) && (c <=? 57))%N.

(** An identifier (a letter or underscore, then letters, digits and
    underscores, as many as there are) at the start of [s], and what
    follows it. *)
Definition scan_ident (s : jsstring) : option (jsstring * jsstring) :=
  match s with
  | c :: r =>
      if is_ident_start c
      then let '(a, b) := span is_ident_char r in Some (c :: a, b)
      else None
  | [] => None
  end.

(** One match of the variable pattern at the start of [s]: a dollar sign,
    an opening brace, an identifier, optionally a vertical bar and a second
    identifier, and a closing brace.  Gives the name, the optional filter
    and the text after the closing brace.  The identifiers are matched
    greedily; a shorter match can never be completed, since the character
    after it would be an identifier character. *)
Definition match_var (s : jsstring)
    : option (jsstring * option jsstring * jsstring) :=
  match s with
  | c1 :: c2 :: r =>
      if ((c1 =? 36) && (c2 =? 123))%N then
        match scan_ident r with
        | Some (name, c3 :: r1) =>
            if (c3 =? 125)%N then Some (name, None, r1)
            else if (c3 =? 124)%N then
              match scan_ident r1 with
              | Some (filter, c4 :: r2) =>
                  if (c4 =? 125)%N then Some (name, Some filter, r2) else None
              | _ => None
              end
            else None
        | _ => None
        end
      else None
  | _ => None
  end.

(** The replacement callback of [interpolateVariablesInParts]. *)
Definition substitute (vs : vars) (name : jsstring) (filter : option jsstring)
    : exc jsstring :=
  match lookup_var vs name with
  | None => Raise (UndefinedVariable name)
  | Some value =>
      match filter with
      | Some f =>
          if jsstring_eqb f (js "string") then Return (quote value)
          else Raise (UnrecognizedFilter f)
      | None => Return value
      end
  end.

(** [part.replace(/.../g, callback)]: scan left to right; a match is
    replaced and scanning resumes after it. *)
Fixpoint interpolate_from (fuel : nat) (vs : vars) (s : jsstring)
    : exc jsstring :=
  match fuel with
  | O => Return []
  | S fuel' =>
      match s with
      | [] => Return []
      | c :: rest =>
          match match_var s with
          | Some (name, filter, after) =>
              exc_bind (substitute vs name filter) (fun v =>
              exc_bind (interpolate_from fuel' vs after) (fun r =>
              Return (v ++ r)))
          | None =>
              exc_bind (interpolate_from fuel' vs rest) (fun r =>
              Return (c :: r))
          end
      end
  end.

Definition interpolate (vs : vars) (part : jsstring) : exc jsstring :=
  interpolate_from (length part) vs part.

Definition interpolateVariablesInParts (vs : vars) (parts : list jsstring)
    : exc (list jsstring) :=
  exc_mapM (interpolate vs) parts.

Definition has_newline (part : jsstring) : bool :=
  existsb (N.eqb LF) part.

(** The body of the callback of [indentMultilineParts]. *)
Definition indentPart (part : jsstring) : jsstring :=
  if negb (has_newline part) then part
  else
    let firstLineWhitespacePrefix := fst (span is_whitespace part) in
    match split_on LF part with
    | [] => []
    | line0 :: others =>
        join nl (line0 :: List.map (fun line => firstLineWhitespacePrefix ++ line) others)
    end.

Definition indentMultilineParts (parts : list jsstring) : list jsstring :=
  List.map indentPart parts.

Definition formatCode (parts : list jsstring) (vs : vars) : exc jsstring :=
  exc_bind (interpolateVariablesInParts vs parts) (fun ps =>
  Return (join nl (indentMultilineParts ps))).

End Template.
Export Template.

(** ** Unique identifiers ([UID]) *)

Module UID.

(** [UID._counters]: an object used as a map from prefixes to counters. *)
Definition counters := gmap jsstring nat.

(** [UID.next(prefix)]: an absent counter counts as 0; the name is built
    from the counter before it is incremented. *)
Definition next (prefix : jsstring) (c : gmap jsstring nat)
    : jsstring * gmap jsstring nat :=
  let n := default 0 (c !! prefix) in
  (prefix ++ to_decimal n, <[prefix := S n]> c).

(** [UID.reset()]. *)
Definition reset (c : gmap jsstring nat) : gmap jsstring nat := ∅.

End UID.

(** ** The grammar AST *)

Module Ast.

Inductive class_part :=
| CharPart (c : jschar)
| RangePart (lo hi : jschar).

#[warnings="-register-all"]
Inductive expr :=
| Choice (alternatives : list expr)
| Sequence (elements : list expr)
| Labeled (label : jsstring) (expression : expr)
| SimpleAnd (expression : expr)
| SimpleNot (expression : expr)
| SemanticAnd (code : jsstring)
| SemanticNot (code : jsstring)
| Optional (expression : expr)
| ZeroOrMore (expression : expr)
| OneOrMore (expression : expr)
| Action (expression : expr) (code : jsstring)
| RuleRef (name : jsstring)
| Literal (value : jsstring)
| Any
| Class (parts : list class_part) (inverted : bool) (rawText : jsstring).

Record rule := Rule {
  name : jsstring;
  displayName : option jsstring;
  expression : expr
}.

(** [rules] is an object enumerated with [for ... in]: the enumeration
    order is part of the value, so it is an association list. *)
Record grammar := Grammar {
  initializer : option jsstring;
  startRule : jsstring;
  rules : list (jsstring * rule)
}.

(** [node.rules[name]]. *)
Fixpoint lookup_rule (rs : list (jsstring * rule)) (n : jsstring)
    : option rule :=
  match rs with
  | [] => None
  | (k, r) :: rest => if jsstring_eqb k n then Some r else lookup_rule rest n
  end.

End Ast.
Export Ast.

(** ** Emission functions *)

Module Emitter.

(** Emission threads the [UID] counters and may throw (from [formatCode]). *)
Definition M (A : Type) : Type :=
  gmap jsstring nat -> exc (A * gmap jsstring nat).

Definition ret {A} (a : A) : M A := fun c => Return (a, c).

Definition bind {A B} (m : M A) (k : A -> M B) : M B :=
  fun c =>
    match m c with
    | Return (a, c') => k a c'
    | Raise e => Raise e
    end.

Definition lift {A} (m : exc A) : M A :=
  fun c => exc_bind m (fun a => Return (a, c)).

Definition uid_next (prefix : jsstring) : M jsstring :=
  fun c => Return (UID.next prefix c).

Definition uid_reset : M unit :=
  fun c => Return (tt, UID.reset c).

Notation "x <- m ;; k" := (bind m (fun x => k))
  (at level 100, m at next level, right associativity).

Fixpoint mapM {A B} (f : A -> M B) (l : list A) : M (list B) :=
  match l with
  | [] => ret []
  | x :: rest => y <- f x ;; ys <- mapM f rest ;; ret (y :: ys)
  end.

(** The outer template of [grammar] (emitter.js lines 111-320). *)
Definition grammar_template : list jsstring :=
  [
    js "(function(){";
    js "  /* Generated by PEG.js @VERSION (http://pegjs.majda.cz/). */";
    js "  ";
    js "  var result = {";
    js "    /*";
    js "     * Parses the input with a generated parser. If the parsing is successfull,";
    js "     * returns a value explicitly or implicitly specified by the grammar from";
    js "     * which the parser was generated (see |PEG.buildParser|). If the parsing is";
    js "     * unsuccessful, throws |PEG.parser.SyntaxError| describing the error.";
    js "     */";
    js "    parse: function(input, startRule) {";
    js "      var parseFunctions = {";
    js "        ${parseFunctionTableItems}";
    js "      };";
    js "      ";
    js "      if (startRule !== undefined) {";
    js "        if (parseFunctions[startRule] === undefined) {";
    js "          throw new Error(" ++ dq ++ js "Invalid rule name: " ++ dq ++ js " + quote(startRule) + " ++ dq ++ js "." ++ dq ++ js ");";
    js "        }";
    js "      } else {";
    js "        startRule = ${startRule|string};";
    js "      }";
    js "      ";
    js "      var pos = 0;";
    js "      var reportMatchFailures = true;";
    js "      var rightmostMatchFailuresPos = 0;";
    js "      var rightmostMatchFailuresExpected = [];";
    js "      var cache = {};";
    js "      ";
    js "      function padLeft(input, padding, length) {";
    js "        var result = input;";
    js "        ";
    js "        var padLength = length - input.length;";
    js "        for (var i = 0; i < padLength; i++) {";
    js "          result = padding + result;";
    js "        }";
    js "        ";
    js "        return result;";
    js "      }";
    js "      ";
    js "      function escape(ch) {";
    js "        var charCode = ch.charCodeAt(0);";
    js "        ";
    js "        if (charCode <= 0xFF) {";
    js "          var escapeChar = 'x';";
    js "          var length = 2;";
    js "        } else {";
    js "          var escapeChar = 'u';";
    js "          var length = 4;";
    js "        }";
    js "        ";
    js "        return '\\' + escapeChar + padLeft(charCode.toString(16).toUpperCase(), '0', length);";
    js "      }";
    js "      ";
    js "      function quote(s) {";
    js "        /*";
    js "         * ECMA-262, 5th ed., 7.8.4: All characters may appear literally in a";
    js "         * string literal except for the closing quote character, backslash,";
    js "         * carriage return, line separator, paragraph separator, and line feed.";
    js "         * Any character may appear in the form of an escape sequence.";
    js "         */";
    js "        return '" ++ dq ++ js "' + s";
    js "          .replace(/\\/g, '\\\\')            // backslash";
    js "          .replace(/" ++ dq ++ js "/g, '\\" ++ dq ++ js "')              // closing quote character";
    js "          .replace(/\r/g, '\\r')             // carriage return";
    js "          .replace(/\n/g, '\\n')             // line feed";
    js "          .replace(/[\x80-\uFFFF]/g, escape) // non-ASCII characters";
    js "          + '" ++ dq ++ js "';";
    js "      }";
    js "      ";
    js "      function matchFailed(failure) {";
    js "        if (pos < rightmostMatchFailuresPos) {";
    js "          return;";
    js "        }";
    js "        ";
    js "        if (pos > rightmostMatchFailuresPos) {";
    js "          rightmostMatchFailuresPos = pos;";
    js "          rightmostMatchFailuresExpected = [];";
    js "        }";
    js "        ";
    js "        rightmostMatchFailuresExpected.push(failure);";
    js "      }";
    js "      ";
    js "      ${parseFunctionDefinitions}";
    js "      ";
    js "      function buildErrorMessage() {";
    js "        function buildExpected(failuresExpected) {";
    js "          failuresExpected.sort();";
    js "          ";
    js "          var lastFailure = null;";
    js "          var failuresExpectedUnique = [];";
    js "          for (var i = 0; i < failuresExpected.length; i++) {";
    js "            if (failuresExpected[i] !== lastFailure) {";
    js "              failuresExpectedUnique.push(failuresExpected[i]);";
    js "              lastFailure = failuresExpected[i];";
    js "            }";
    js "          }";
    js "          ";
    js "          switch (failuresExpectedUnique.length) {";
    js "            case 0:";
    js "              return 'end of input';";
    js "            case 1:";
    js "              return failuresExpectedUnique[0];";
    js "            default:";
    js "              return failuresExpectedUnique.slice(0, failuresExpectedUnique.length - 1).join(', ')";
    js "                + ' or '";
    js "                + failuresExpectedUnique[failuresExpectedUnique.length - 1];";
    js "          }";
    js "        }";
    js "        ";
    js "        var expected = buildExpected(rightmostMatchFailuresExpected);";
    js "        var actualPos = Math.max(pos, rightmostMatchFailuresPos);";
    js "        var actual = actualPos < input.length";
    js "          ? quote(input.charAt(actualPos))";
    js "          : 'end of input';";
    js "        ";
    js "        return 'Expected ' + expected + ' but ' + actual + ' found.';";
    js "      }";
    js "      ";
    js "      function computeErrorPosition() {";
    js "        /*";
    js "         * The first idea was to use |String.split| to break the input up to the";
    js "         * error position along newlines and derive the line and column from";
    js "         * there. However IE's |split| implementation is so broken that it was";
    js "         * enough to prevent it.";
    js "         */";
    js "        ";
    js "        var line = 1;";
    js "        var column = 1;";
    js "        var seenCR = false;";
    js "        ";
    js "        for (var i = 0; i <  rightmostMatchFailuresPos; i++) {";
    js "          var ch = input.charAt(i);";
    js "          if (ch === '\n') {";
    js "            if (!seenCR) { line++; }";
    js "            column = 1;";
    js "            seenCR = false;";
    js "          } else if (ch === '\r' | ch === '\u2028' || ch === '\u2029') {";
    js "            line++;";
    js "            column = 1;";
    js "            seenCR = true;";
    js "          } else {";
    js "            column++;";
    js "            seenCR = false;";
    js "          }";
    js "        }";
    js "        ";
    js "        return { line: line, column: column };";
    js "      }";
    js "      ";
    js "      ${initializerCode}";
    js "      ";
    js "      var result = parseFunctions[startRule]();";
    js "      ";
    js "      /*";
    js "       * The parser is now in one of the following three states:";
    js "       *";
    js "       * 1. The parser successfully parsed the whole input.";
    js "       *";
    js "       *    - |result !== null|";
    js "       *    - |pos === input.length|";
    js "       *    - |rightmostMatchFailuresExpected| may or may not contain something";
    js "       *";
    js "       * 2. The parser successfully parsed only a part of the input.";
    js "       *";
    js "       *    - |result !== null|";
    js "       *    - |pos < input.length|";
    js "       *    - |rightmostMatchFailuresExpected| may or may not contain something";
    js "       *";
    js "       * 3. The parser did not successfully parse any part of the input.";
    js "       *";
    js "       *   - |result === null|";
    js "       *   - |pos === 0|";
    js "       *   - |rightmostMatchFailuresExpected| contains at least one failure";
    js "       *";
    js "       * All code following this comment (including called functions) must";
    js "       * handle these states.";
    js "       */";
    js "      if (result === null || pos !== input.length) {";
    js "        var errorPosition = computeErrorPosition();";
    js "        throw new this.SyntaxError(";
    js "          buildErrorMessage(),";
    js "          errorPosition.line,";
    js "          errorPosition.column";
    js "        );";
    js "      }";
    js "      ";
    js "      return result;";
    js "    },";
    js "    ";
    js "    /* Returns the parser source code. */";
    js "    toSource: function() { return this._source; }";
    js "  };";
    js "  ";
    js "  /* Thrown when a parser encounters a syntax error. */";
    js "  ";
    js "  result.SyntaxError = function(message, line, column) {";
    js "    this.name = 'SyntaxError';";
    js "    this.message = message;";
    js "    this.line = line;";
    js "    this.column = column;";
    js "  };";
    js "  ";
    js "  result.SyntaxError.prototype = Error.prototype;";
    js "  ";
    js "  return result;";
    js "})()"
  ].

(** [formalParams] and [actualParams] of [action]: the labels of the
    labeled elements of a sequence with the indexed result variable, the
    label of a labeled expression with the result variable itself, or
    nothing. *)
Fixpoint sequence_params (expressionResultVar : jsstring) (i : nat)
    (elements : list expr) : list (jsstring * jsstring) :=
  match elements with
  | [] => []
  | Labeled label _ :: rest =>
      (label, expressionResultVar ++ js "[" ++ to_decimal i ++ js "]")
        :: sequence_params expressionResultVar (S i) rest
  | _ :: rest => sequence_params expressionResultVar (S i) rest
  end.

Definition action_params (expressionResultVar : jsstring) (e : expr)
    : list (jsstring * jsstring) :=
  match e with
  | Sequence elements => sequence_params expressionResultVar 0 elements
  | Labeled label _ => [(label, expressionResultVar)]
  | _ => []
  end.

Section Emit.

(** [quoteForRegexpClass] is defined in utils.js, outside emitter.js: it
    is a parameter of the emitter. *)
Variable quoteForRegexpClass : jsstring -> jsstring.

Definition class_part_regexp (part : class_part) : jsstring :=
  match part with
  | RangePart lo hi =>
      quoteForRegexpClass [lo] ++ js "-" ++ quoteForRegexpClass [hi]
  | CharPart c => quoteForRegexpClass [c]
  end.

Definition class_regexp (parts : list class_part) (inverted : bool)
    : jsstring :=
  match parts with
  | _ :: _ =>
      js "/^[" ++ (if inverted then js "^" else [])
        ++ join [] (List.map class_part_regexp parts) ++ js "]/"
  | [] => if inverted then js "/^[\S\s]/" else js "/^(?!)/"
  end.

(** [emit(node, resultVar)] for the operator nodes.  The loops of [choice]
    and [sequence] run from the last element to the first: the code (and
    the identifiers) of the elements to the right are produced first. *)
Fixpoint emit (node : expr) (resultVar : jsstring) {struct node}
    : M jsstring :=
  match node with
  | Choice alternatives =>
      code0 <- lift (formatCode
        [js "var ${resultVar} = null;"]
        [(js "resultVar", resultVar)]) ;;
      (fix loop (alts : list expr) : M jsstring :=
         match alts with
         | [] => ret code0
         | alternative :: later =>
             code <- loop later ;;
             alternativeResultVar <- uid_next (js "result") ;;
             alternativeCode <- emit alternative alternativeResultVar ;;
             lift (formatCode
               [js "${alternativeCode}";
                js "if (${alternativeResultVar} !== null) {";
                js "  var ${resultVar} = ${alternativeResultVar};";
                js "} else {";
                js "  ${code};";
                js "}"]
               [(js "alternativeCode", alternativeCode);
                (js "alternativeResultVar", alternativeResultVar);
                (js "code", code);
                (js "resultVar", resultVar)])
         end) alternatives
  | Sequence elements =>
      savedPosVar <- uid_next (js "savedPos") ;;
      elementResultVars <- mapM (fun _ => uid_next (js "result")) elements ;;
      code0 <- lift (formatCode
        [js "var ${resultVar} = ${elementResultVarArray};"]
        [(js "resultVar", resultVar);
         (js "elementResultVarArray",
          js "[" ++ join (js ", ") elementResultVars ++ js "]")]) ;;
      code <-
        (fix loop (elems : list expr) (elemVars : list jsstring)
             : M jsstring :=
           match elems, elemVars with
           | element :: later, elementResultVar :: laterVars =>
               code <- loop later laterVars ;;
               elementCode <- emit element elementResultVar ;;
               lift (formatCode
                 [js "${elementCode}";
                  js "if (${elementResultVar} !== null) {";
                  js "  ${code}";
                  js "} else {";
                  js "  var ${resultVar} = null;";
                  js "  pos = ${savedPosVar};";
                  js "}"]
                 [(js "elementCode", elementCode);
                  (js "elementResultVar", elementResultVar);
                  (js "code", code);
                  (js "savedPosVar", savedPosVar);
                  (js "resultVar", resultVar)])
           | _, _ => ret code0
           end) elements elementResultVars ;;
      lift (formatCode
        [js "var ${savedPosVar} = pos;";
         js "${code}"]
        [(js "code", code);
         (js "savedPosVar", savedPosVar)])
  | Labeled _ expression => emit expression resultVar
  | SimpleAnd expression =>
      savedPosVar <- uid_next (js "savedPos") ;;
      savedReportMatchFailuresVar <- uid_next (js "savedReportMatchFailuresVar") ;;
      expressionResultVar <- uid_next (js "result") ;;
      expressionCode <- emit expression expressionResultVar ;;
      lift (formatCode
        [js "var ${savedPosVar} = pos;";
         js "var ${savedReportMatchFailuresVar} = reportMatchFailures;";
         js "reportMatchFailures = false;";
         js "${expressionCode}";
         js "reportMatchFailures = ${savedReportMatchFailuresVar};";
         js "if (${expressionResultVar} !== null) {";
         js "  var ${resultVar} = '';";
         js "  pos = ${savedPosVar};";
         js "} else {";
         js "  var ${resultVar} = null;";
         js "}"]
        [(js "expressionCode", expressionCode);
         (js "expressionResultVar", expressionResultVar);
         (js "savedPosVar", savedPosVar);
         (js "savedReportMatchFailuresVar", savedReportMatchFailuresVar);
         (js "resultVar", resultVar)])
  | SimpleNot expression =>
      savedPosVar <- uid_next (js "savedPos") ;;
      savedReportMatchFailuresVar <- uid_next (js "savedReportMatchFailuresVar") ;;
      expressionResultVar <- uid_next (js "result") ;;
      expressionCode <- emit expression expressionResultVar ;;
      lift (formatCode
        [js "var ${savedPosVar} = pos;";
         js "var ${savedReportMatchFailuresVar} = reportMatchFailures;";
         js "reportMatchFailures = false;";
         js "${expressionCode}";
         js "reportMatchFailures = ${savedReportMatchFailuresVar};";
         js "if (${expressionResultVar} === null) {";
         js "  var ${resultVar} = '';";
         js "} else {";
         js "  var ${resultVar} = null;";
         js "  pos = ${savedPosVar};";
         js "}"]
        [(js "expressionCode", expressionCode);
         (js "expressionResultVar", expressionResultVar);
         (js "savedPosVar", savedPosVar);
         (js "savedReportMatchFailuresVar", savedReportMatchFailuresVar);
         (js "resultVar", resultVar)])
  | SemanticAnd code =>
      lift (formatCode
        [js "var ${resultVar} = (function() {${actionCode}})() ? '' : null;"]
        [(js "actionCode", code);
         (js "resultVar", resultVar)])
  | SemanticNot code =>
      lift (formatCode
        [js "var ${resultVar} = (function() {${actionCode}})() ? null : '';"]
        [(js "actionCode", code);
         (js "resultVar", resultVar)])
  | Optional expression =>
      expressionResultVar <- uid_next (js "result") ;;
      expressionCode <- emit expression expressionResultVar ;;
      lift (formatCode
        [js "${expressionCode}";
         js "var ${resultVar} = ${expressionResultVar} !== null ? ${expressionResultVar} : '';"]
        [(js "expressionCode", expressionCode);
         (js "expressionResultVar", expressionResultVar);
         (js "resultVar", resultVar)])
  | ZeroOrMore expression =>
      expressionResultVar <- uid_next (js "result") ;;
      expressionCode <- emit expression expressionResultVar ;;
      lift (formatCode
        [js "var ${resultVar} = [];";
         js "${expressionCode}";
         js "while (${expressionResultVar} !== null) {";
         js "  ${resultVar}.push(${expressionResultVar});";
         js "  ${expressionCode}";
         js "}"]
        [(js "expressionCode", expressionCode);
         (js "expressionResultVar", expressionResultVar);
         (js "resultVar", resultVar)])
  | OneOrMore expression =>
      expressionResultVar <- uid_next (js "result") ;;
      expressionCode <- emit expression expressionResultVar ;;
      lift (formatCode
        [js "${expressionCode}";
         js "if (${expressionResultVar} !== null) {";
         js "  var ${resultVar} = [];";
         js "  while (${expressionResultVar} !== null) {";
         js "    ${resultVar}.push(${expressionResultVar});";
         js "    ${expressionCode}";
         js "  }";
         js "} else {";
         js "  var ${resultVar} = null;";
         js "}"]
        [(js "expressionCode", expressionCode);
         (js "expressionResultVar", expressionResultVar);
         (js "resultVar", resultVar)])
  | Action expression code =>
      expressionResultVar <- uid_next (js "result") ;;
      let params := action_params expressionResultVar expression in
      expressionCode <- emit expression expressionResultVar ;;
      lift (formatCode
        [js "${expressionCode}";
         js "var ${resultVar} = ${expressionResultVar} !== null";
         js "  ? (function(${formalParams}) {${actionCode}})(${actualParams})";
         js "  : null;"]
        [(js "expressionCode", expressionCode);
         (js "expressionResultVar", expressionResultVar);
         (js "actionCode", code);
         (js "formalParams", join (js ", ") (List.map fst params));
         (js "actualParams", join (js ", ") (List.map snd params));
         (js "resultVar", resultVar)])
  | RuleRef name =>
      lift (formatCode
        [js "var ${resultVar} = ${ruleMethod}();"]
        [(js "ruleMethod", js "parse_" ++ name);
         (js "resultVar", resultVar)])
  | Literal value =>
      lift (formatCode
        [js "if (input.substr(pos, ${length}) === ${value|string}) {";
         js "  var ${resultVar} = ${value|string};";
         js "  pos += ${length};";
         js "} else {";
         js "  var ${resultVar} = null;";
         js "  if (reportMatchFailures) {";
         js "    matchFailed(${valueQuoted|string});";
         js "  }";
         js "}"]
        [(js "value", value);
         (js "valueQuoted", quote value);
         (js "length", to_decimal (length value));
         (js "resultVar", resultVar)])
  | Any =>
      lift (formatCode
        [js "if (input.length > pos) {";
         js "  var ${resultVar} = input.charAt(pos);";
         js "  pos++;";
         js "} else {";
         js "  var ${resultVar} = null;";
         js "  if (reportMatchFailures) {";
         js "    matchFailed('any character');";
         js "  }";
         js "}"]
        [(js "resultVar", resultVar)])
  | Class parts inverted rawText =>
      lift (formatCode
        [js "if (input.substr(pos).match(${regexp}) !== null) {";
         js "  var ${resultVar} = input.charAt(pos);";
         js "  pos++;";
         js "} else {";
         js "  var ${resultVar} = null;";
         js "  if (reportMatchFailures) {";
         js "    matchFailed(${rawText|string});";
         js "  }";
         js "}"]
        [(js "regexp", class_regexp parts inverted);
         (js "rawText", rawText);
         (js "resultVar", resultVar)])
  end.

(** The three code pieces of [rule] that depend on [displayName]. *)
Definition setReportMatchFailuresCode (displayName : option jsstring)
    : exc jsstring :=
  match displayName with
  | Some _ =>
      formatCode
        [js "var savedReportMatchFailures = reportMatchFailures;";
         js "reportMatchFailures = false;"] []
  | None => Return []
  end.

Definition restoreReportMatchFailuresCode (displayName : option jsstring)
    : exc jsstring :=
  match displayName with
  | Some _ =>
      formatCode [js "reportMatchFailures = savedReportMatchFailures;"] []
  | None => Return []
  end.

Definition reportMatchFailureCode (displayName : option jsstring)
    (resultVar : jsstring) : exc jsstring :=
  match displayName with
  | Some d =>
      formatCode
        [js "if (reportMatchFailures && ${resultVar} === null) {";
         js "  matchFailed(${displayName|string});";
         js "}"]
        [(js "displayName", d);
         (js "resultVar", resultVar)]
  | None => Return []
  end.

Definition emit_rule (node : rule) : M jsstring :=
  _ <- uid_reset ;;
  resultVar <- uid_next (js "result") ;;
  setCode <- lift (setReportMatchFailuresCode (displayName node)) ;;
  restoreCode <- lift (restoreReportMatchFailuresCode (displayName node)) ;;
  reportCode <- lift (reportMatchFailureCode (displayName node) resultVar) ;;
  code <- emit (expression node) resultVar ;;
  lift (formatCode
    [js "function parse_${name}() {";
     js "  var cacheKey = '${name}@' + pos;";
     js "  var cachedResult = cache[cacheKey];";
     js "  if (cachedResult) {";
     js "    pos = cachedResult.nextPos;";
     js "    return cachedResult.result;";
     js "  }";
     js "  ";
     js "  ${setReportMatchFailuresCode}";
     js "  ${code}";
     js "  ${restoreReportMatchFailuresCode}";
     js "  ${reportMatchFailureCode}";
     js "  ";
     js "  cache[cacheKey] = {";
     js "    nextPos: pos,";
     js "    result:  ${resultVar}";
     js "  };";
     js "  return ${resultVar};";
     js "}"]
    [(js "name", name node);
     (js "setReportMatchFailuresCode", setCode);
     (js "restoreReportMatchFailuresCode", restoreCode);
     (js "reportMatchFailureCode", reportCode);
     (js "code", code);
     (js "resultVar", resultVar)]).

(** [parseFunctionTableItems], before and after [sort()]. *)
Definition tableItems (rs : list (jsstring * rule)) : list jsstring :=
  List.map (fun '(n, _) => quote n ++ js ": parse_" ++ n) rs.

Definition parseFunctionTableItems (rs : list (jsstring * rule))
    : list jsstring :=
  js_sort (tableItems rs).

(** [parseFunctionDefinitions]: one definition per rule, in the order of
    the enumeration of [node.rules]. *)
Definition parseFunctionDefinitions (rs : list (jsstring * rule))
    : M (list jsstring) :=
  mapM (fun '(_, r) => emit_rule r) rs.

Definition emit_grammar (node : grammar) : M jsstring :=
  let initializerCode := default [] (initializer node) in
  let items := parseFunctionTableItems (rules node) in
  definitions <- parseFunctionDefinitions (rules node) ;;
  lift (formatCode grammar_template
    [(js "initializerCode", initializerCode);
     (js "parseFunctionTableItems", join (js "," ++ nl) items);
     (js "parseFunctionDefinitions", join (nl ++ nl) definitions);
     (js "startRule", startRule node)]).

(** [PEG.compiler.emitter(ast)]: a fresh [UID] for each call. *)
Definition emitter (ast : grammar) : exc jsstring :=
  match emit_grammar ast ∅ with
  | Return (code, _) => Return code
  | Raise e => Raise e
  end.


End Emit.

End Emitter.

(** ** The emitted parser *)

Module Runtime.

(** JavaScript values that results can take: match results are strings
    and arrays; the user's code may return anything. *)
#[warnings="-register-all"]
Inductive value :=
| VNull
| VUndefined
| VBool (b : bool)
| VNum (z : Z)
| VStr (s : jsstring)
| VArr (items : list value).

(** [v === null]. *)
Definition is_null (v : value) : bool :=
  match v with
  | VNull => true
  | _ => false
  end.

(** The conversion to boolean of the conditional operator. *)
Definition truthy (v : value) : bool :=
  match v with
  | VNull | VUndefined => false
  | VBool b => b
  | VNum z => negb (Z.eqb z 0)
  | VStr s => negb (jsstring_eqb s [])
  | VArr _ => true
  end.

(** [v[i]] for an array. *)
Definition value_index (v : value) (i : nat) : value :=
  match v with
  | VArr items => default VUndefined (items !! i)
  | _ => VUndefined
  end.

(** The variables declared at the top of [parse]. *)
Record state := State {
  pos : nat;
  reportMatchFailures : bool;
  rightmostMatchFailuresPos : nat;
  rightmostMatchFailuresExpected : list jsstring;
  cache : gmap jsstring (nat * value)
}.

Definition set_pos (p : nat) (s : state) : state :=
  State p (reportMatchFailures s) (rightmostMatchFailuresPos s)
        (rightmostMatchFailuresExpected s) (cache s).

Definition set_reportMatchFailures (b : bool) (s : state) : state :=
  State (pos s) b (rightmostMatchFailuresPos s)
        (rightmostMatchFailuresExpected s) (cache s).

Definition set_cache (c : gmap jsstring (nat * value)) (s : state) : state :=
  State (pos s) (reportMatchFailures s) (rightmostMatchFailuresPos s)
        (rightmostMatchFailuresExpected s) c.

Definition initial_state : state := State 0 true 0 [] ∅.

(** [matchFailed(failure)]. *)
Definition matchFailed (failure : jsstring) (s : state) : state :=
  if pos s <? rightmostMatchFailuresPos s then s
  else
    let '(p, expected) :=
      if rightmostMatchFailuresPos s <? pos s then (pos s, [])
      else (rightmostMatchFailuresPos s, rightmostMatchFailuresExpected s) in
    State (pos s) (reportMatchFailures s) p (expected ++ [failure]) (cache s).

(** [if (reportMatchFailures) { matchFailed(failure); }]. *)
Definition report (failure : jsstring) (s : state) : state :=
  if reportMatchFailures s then matchFailed failure s else s.

(** Does the regular expression of a class match the character?  A part
    matches its character or the characters of its range
    ([quoteForRegexpClass] escaping what is special in a class); an
    inverted class matches the others, also for an empty list of parts,
    where the emitter writes the two special regular expressions. *)
Definition class_part_matches (c : jschar) (part : class_part) : bool :=
  match part with
  | CharPart x => N.eqb c x
  | RangePart lo hi => (lo <=? c)%N && (c <=? hi)%N
  end.

Definition class_matches (parts : list class_part) (inverted : bool)
    (c : jschar) : bool :=
  xorb inverted (existsb (class_part_matches c) parts).

(** The bindings of the formal parameters of an action to the actual
    ones, for the result [v] of its expression. *)
Fixpoint sequence_bindings (v : value) (i : nat) (elements : list expr)
    : list (jsstring * value) :=
  match elements with
  | [] => []
  | Labeled label _ :: rest =>
      (label, value_index v i) :: sequence_bindings v (S i) rest
  | _ :: rest => sequence_bindings v (S i) rest
  end.

Definition action_bindings (e : expr) (v : value) : list (jsstring * value) :=
  match e with
  | Sequence elements => sequence_bindings v 0 elements
  | Labeled label _ => [(label, v)]
  | _ => []
  end.

Section Parser.

(** The input, the grammar the parser was generated from, and the meaning
    of the user's code: the value returned by the function whose body is the
    code, at the current position, for the bindings of its parameters.  The
    user's code is taken to compute its value from these alone and to leave
    the variables of the parser alone. *)
Variable input : jsstring.
Variable g : grammar.
Variable run_code : jsstring -> nat -> list (jsstring * value) -> value.

(** A fragment as a function of the state: [None] when its execution does
    not complete (it runs forever, or calls a parse function that does not
    exist). *)
Definition fragment := state -> option (state * value).

(** The code emitted by [choice]: the alternatives from left to right, each
    in the else-branch of the one before. *)
Fixpoint choice_alternatives (ev : expr -> fragment) (alts : list expr)
    (s : state) : option (state * value) :=
  match alts with
  | [] => Some (s, VNull)
  | alternative :: later =>
      match ev alternative s with
      | None => None
      | Some (s1, r) =>
          if is_null r then choice_alternatives ev later s1
          else Some (s1, r)
      end
  end.

(** The code emitted by [sequence] after [savedPos] is set; [results]
    holds the results of the elements to the left. *)
Fixpoint sequence_elements (ev : expr -> fragment) (savedPos : nat)
    (elems : list expr) (results : list value) (s : state)
    : option (state * value) :=
  match elems with
  | [] => Some (s, VArr results)
  | element :: later =>
      match ev element s with
      | None => None
      | Some (s1, r) =>
          if is_null r then Some (set_pos savedPos s1, VNull)
          else sequence_elements ev savedPos later (results ++ [r]) s1
      end
  end.

(** [while (r !== null) { result.push(r); <expression code> }], where
    [result] holds [items] and the expression code is [body]. *)
Fixpoint while_loop (body : fragment) (fuel : nat) (items : list value)
    (s : state) (r : value) : option (state * value) :=
  if is_null r then Some (s, VArr items)
  else
    match fuel with
    | O => None
    | S fuel' =>
        match body s with
        | None => None
        | Some (s1, r1) => while_loop body fuel' (items ++ [r]) s1 r1
        end
    end.

(** ['<name>@' + pos]. *)
Definition cacheKey (name : jsstring) (p : nat) : jsstring :=
  name ++ js "@" ++ to_decimal p.

(** The function [parse_<name>] emitted by [rule]; [ev] executes the code
    of the rule's expression. *)
Definition parse_rule (ev : expr -> fragment) (node : rule) (s : state)
    : option (state * value) :=
  let key := cacheKey (name node) (pos s) in
  match cache s !! key with
  | Some (nextPos, result) => Some (set_pos nextPos s, result)
  | None =>
      let savedReportMatchFailures := reportMatchFailures s in
      let s0 :=
        match displayName node with
        | Some _ => set_reportMatchFailures false s
        | None => s
        end in
      match ev (expression node) s0 with
      | None => None
      | Some (s1, result) =>
          let s2 :=
            match displayName node with
            | Some _ => set_reportMatchFailures savedReportMatchFailures s1
            | None => s1
            end in
          let s3 :=
            match displayName node with
            | Some d =>
                if reportMatchFailures s2 && is_null result
                then matchFailed d s2 else s2
            | None => s2
            end in
          Some (set_cache (<[key := (pos s3, result)]> (cache s3)) s3, result)
      end
  end.

(** A call [parse_<name>()]. *)
Definition call_rule (ev : expr -> fragment) (name : jsstring) (s : state)
    : option (state * value) :=
  match lookup_rule (rules g) name with
  | None => None
  | Some node => parse_rule ev node s
  end.

(** The code emitted for an operator node, executed with [n] levels of
    nesting (of fragments and of calls) and at most [n] iterations of each
    loop. *)
Fixpoint eval (n : nat) (node : expr) (s : state) {struct n}
    : option (state * value) :=
  match n with
  | O => None
  | S n' =>
      match node with
      | Choice alternatives => choice_alternatives (eval n') alternatives s
      | Sequence elements =>
          sequence_elements (eval n') (pos s) elements [] s
      | Labeled _ expression => eval n' expression s
      | SimpleAnd expression =>
          let savedPos := pos s in
          let savedReportMatchFailures := reportMatchFailures s in
          match eval n' expression (set_reportMatchFailures false s) with
          | None => None
          | Some (s1, r) =>
              let s2 := set_reportMatchFailures savedReportMatchFailures s1 in
              if negb (is_null r) then Some (set_pos savedPos s2, VStr [])
              else Some (s2, VNull)
          end
      | SimpleNot expression =>
          let savedPos := pos s in
          let savedReportMatchFailures := reportMatchFailures s in
          match eval n' expression (set_reportMatchFailures false s) with
          | None => None
          | Some (s1, r) =>
              let s2 := set_reportMatchFailures savedReportMatchFailures s1 in
              if is_null r then Some (s2, VStr [])
              else Some (set_pos savedPos s2, VNull)
          end
      | SemanticAnd code =>
          Some (s, if truthy (run_code code (pos s) []) then VStr [] else VNull)
      | SemanticNot code =>
          Some (s, if truthy (run_code code (pos s) []) then VNull else VStr [])
      | Optional expression =>
          match eval n' expression s with
          | None => None
          | Some (s1, r) => Some (s1, if negb (is_null r) then r else VStr [])
          end
      | ZeroOrMore expression =>
          match eval n' expression s with
          | None => None
          | Some (s1, r) => while_loop (eval n' expression) n' [] s1 r
          end
      | OneOrMore expression =>
          match eval n' expression s with
          | None => None
          | Some (s1, r) =>
              if negb (is_null r)
              then while_loop (eval n' expression) n' [] s1 r
              else Some (s1, VNull)
          end
      | Action expression code =>
          match eval n' expression s with
          | None => None
          | Some (s1, r) =>
              Some (s1,
                    if negb (is_null r)
                    then run_code code (pos s1) (action_bindings expression r)
                    else VNull)
          end
      | RuleRef name => call_rule (eval n') name s
      | Literal value =>
          if jsstring_eqb (substr input (pos s) (length value)) value
          then Some (set_pos (pos s + length value) s, VStr value)
          else Some (report (quote value) s, VNull)
      | Any =>
          if pos s <? length input
          then Some (set_pos (S (pos s)) s, VStr (charAt input (pos s)))
          else Some (report (js "any character") s, VNull)
      | Class parts inverted rawText =>
          match input !! pos s with
          | Some c =>
              if class_matches parts inverted c
              then Some (set_pos (S (pos s)) s, VStr (charAt input (pos s)))
              else Some (report rawText s, VNull)
          | None => Some (report rawText s, VNull)
          end
      end
  end.

(** A call of a parse function with [n] levels of nesting for its body. *)
Definition parse_function (n : nat) (name : jsstring) (s : state)
    : option (state * value) :=
  call_rule (eval n) name s.

(** [computeErrorPosition()]: one step of its loop for the character [ch]
    ([input.charAt(i)], the empty string past the end).  The condition of
    the second branch is written [a | b || c] in the source; the bitwise
    or of two booleans is 1 or 0, which is then tested, so the condition
    holds exactly when one of the three comparisons does. *)
Definition position_step (ch : jsstring) (st : nat * nat * bool)
    : nat * nat * bool :=
  let '(line, column, seenCR) := st in
  if jsstring_eqb ch [LF] then
    ((if negb seenCR then S line else line), 1, false)
  else if (jsstring_eqb ch [CR] || jsstring_eqb ch [LS])
          || jsstring_eqb ch [PS] then
    (S line, 1, true)
  else
    (line, S column, false).

Definition position_scan (upto : nat) : nat * nat * bool :=
  fold_left (fun st i => position_step (charAt input i) st)
            (seq 0 upto) (1, 1, false).

Definition computeErrorPosition (s : state) : nat * nat :=
  let '(line, column, _) := position_scan (rightmostMatchFailuresPos s) in
  (line, column).

(** [buildExpected(failuresExpected)]. *)
Fixpoint unique_adjacent (lastFailure : option jsstring)
    (failures : list jsstring) : list jsstring :=
  match failures with
  | [] => []
  | f :: rest =>
      if match lastFailure with
         | Some l => jsstring_eqb f l
         | None => false
         end
      then unique_adjacent lastFailure rest
      else f :: unique_adjacent (Some f) rest
  end.

Definition buildExpected (failuresExpected : list jsstring) : jsstring :=
  let failuresExpectedUnique :=
    unique_adjacent None (js_sort failuresExpected) in
  match failuresExpectedUnique with
  | [] => js "end of input"
  | [f] => f
  | _ =>
      join (js ", ")
           (take (length failuresExpectedUnique - 1) failuresExpectedUnique)
        ++ js " or "
        ++ default [] (last failuresExpectedUnique)
  end.

(** [buildErrorMessage()]. *)
Definition buildErrorMessage (s : state) : jsstring :=
  let expected := buildExpected (rightmostMatchFailuresExpected s) in
  let actualPos := Nat.max (pos s) (rightmostMatchFailuresPos s) in
  let actual :=
    if actualPos <? length input then quote (charAt input actualPos)
    else js "end of input" in
  js "Expected " ++ expected ++ js " but " ++ actual ++ js " found.".

(** How a call of [parse] ends. *)
Inductive outcome :=
| Returned (result : value)
| ThrownSyntaxError (message : jsstring) (line column : nat)
| ThrownError (message : jsstring).

(** What [parse] does with the result of the start rule. *)
Definition finish (s : state) (result : value) : outcome :=
  if is_null result || negb (pos s =? length input) then
    let '(line, column) := computeErrorPosition s in
    ThrownSyntaxError (buildErrorMessage s) line column
  else Returned result.

(** [parse(input, startRule)]; [startRule] is [None] when the argument is
    not given.  The table [parseFunctions] has one entry per rule.  The
    user's initializer runs before the start rule; the model gives it no
    access to the variables of the parser. *)
Definition parse (n : nat) (startRule : option jsstring) : option outcome :=
  let chosen :=
    match startRule with
    | Some r =>
        match lookup_rule (rules g) r with
        | None => inl (js "Invalid rule name: " ++ quote r ++ js ".")
        | Some _ => inr r
        end
    | None => inr (Ast.startRule g)
    end in
  match chosen with
  | inl message => Some (ThrownError message)
  | inr start =>
      match parse_function n start initial_state with
      | None => None
      | Some (s, result) => Some (finish s result)
      end
  end.

(** *** Predicates used to show that a store never replaces an entry *)

(** Between [s] and [s'] an entry was stored under [k]; the first such
    store was made by the parse function of [node], entered in the state
    [tN], whose body ran from [tN0] and ended without an entry under [k];
    and each fragment of the family [F], started at the position of [s]
    with the cache of [tN], ends (when it does) with an entry under
    [k]. *)
Definition first_store_in {A} (k : jsstring) (F : A -> fragment)
    (s s' : state) : Prop :=
  exists tN tN0 node m x,
    lookup_rule (rules g) (name node) = Some node
    /\ cacheKey (name node) (pos tN) = k
    /\ cache s ⊆ cache tN /\ cache tN ⊆ cache s'
    /\ pos tN0 = pos tN /\ cache tN0 = cache tN
    /\ eval m (expression node) tN0 = Some x
    /\ cache (fst x) !! k = None
    /\ forall a t y,
         pos t = pos s -> cache t = cache tN -> F a t = Some y ->
         cache (fst y) !! k <> None.

(** With [n] levels of nesting, a fragment that adds an entry under [k]
    contains such a first store. *)
Definition first_store_found (n : nat) : Prop :=
  forall k e s s' r,
    eval n e s = Some (s', r) ->
    cache s !! k = None -> cache s' !! k <> None ->
    first_store_in k (fun m => eval m e) s s'.

(** With [n] levels of nesting, the body of a rule of the grammar, started
    without an entry under the key of the rule at the position, ends
    without one. *)
Definition store_fresh (n : nat) : Prop :=
  forall node s0 s1 r,
    lookup_rule (rules g) (name node) = Some node ->
    eval n (expression node) s0 = Some (s1, r) ->
    cache s0 !! cacheKey (name node) (pos s0) = None ->
    cache s1 !! cacheKey (name node) (pos s0) = None.

End Parser.

(** *** Predicates on fragments and states used to state the properties *)

(** [f] keeps the invariant [I]. *)
Definition keeps (I : state -> Prop) (f : fragment) : Prop :=
  forall s s' r, I s -> f s = Some (s', r) -> I s'.

(** With [reportMatchFailures] off and the failures recorded as in [s0]. *)
Definition silent (s0 s : state) : Prop :=
  reportMatchFailures s = false
  /\ rightmostMatchFailuresPos s = rightmostMatchFailuresPos s0
  /\ rightmostMatchFailuresExpected s = rightmostMatchFailuresExpected s0.

(** [f'] completes wherever [f] does, with the same result. *)
Definition frag_le (f f' : fragment) : Prop :=
  forall s x, f s = Some x -> f' s = Some x.

(** [f] leaves [reportMatchFailures] as it found it. *)
Definition restores (f : fragment) : Prop :=
  forall s s' r, f s = Some (s', r) ->
    reportMatchFailures s' = reportMatchFailures s.

(** [f] keeps the entries of the cache. *)
Definition mono (f : fragment) : Prop :=
  forall s s' r, f s = Some (s', r) -> cache s ⊆ cache s'.

(** Once [f] has completed, it can be executed again at the same position
    in a state whose cache holds what the first execution left: it gives
    the same result and final position, and does not change the cache. *)
Definition replayable (f : fragment) : Prop :=
  forall s s' r t,
    f s = Some (s', r) -> pos t = pos s -> cache s' ⊆ cache t ->
    exists t', f t = Some (t', r) /\ pos t' = pos s' /\ cache t' = cache t.

(** [pos] and the positions in the cache are at most [B]. *)
Definition bounded (B : nat) (s : state) : Prop :=
  pos s <= B /\ map_Forall (fun _ (x : nat * value) => fst x <= B) (cache s).

(** The contract for all code fragments (the comment before [choice] in
    emitter.js): a match advances [pos] and sets the result to a value that
    is not [null]; otherwise [pos] is not changed and the result is
    [null]. *)
Definition contract (s : state) (s' : state) (r : value) : bool :=
  if is_null r then pos s' =? pos s else pos s <=? pos s'.

(** The entries of the cache satisfy the contract: the entry for a rule at
    position [p] holds a position and a result that a fragment started at
    [p] may end with. *)
Definition cache_contract (c : gmap jsstring (nat * value)) : Prop :=
  forall name p np r,
    c !! cacheKey name p = Some (np, r) ->
    if is_null r then np = p else p <= np.

(** A fragment meets the contract, from a state whose cache does, and
    leaves such a cache. *)
Definition contractual (f : fragment) : Prop :=
  forall s s' r,
    cache_contract (cache s) -> f s = Some (s', r) ->
    contract s s' r = true /\ cache_contract (cache s').

End Runtime.

(** ** The behaviour in the words of the specification

    Second definitions, written from the specification and from the
    comments of the source, against which the code is compared. *)

Module SpecWords.
Import Runtime.

(** Error position: line terminators are LF, CR, U+2028 and U+2029; only
    a CR immediately followed by LF counts as a single line break. *)
Definition spec_position_step (ch : jsstring) (st : nat * nat * bool)
    : nat * nat * bool :=
  let '(line, column, afterCR) := st in
  if jsstring_eqb ch [LF] then
    ((if afterCR then line else S line), 1, false)
  else if jsstring_eqb ch [CR] then (S line, 1, true)
  else if jsstring_eqb ch [LS] || jsstring_eqb ch [PS] then
    (S line, 1, false)
  else (line, S column, false).

Definition spec_position (input : jsstring) (offset : nat) : nat * nat :=
  let '(line, column, _) :=
    fold_left (fun st i => spec_position_step (charAt input i) st)
              (seq 0 offset) (1, 1, false) in
  (line, column).

(** Re-indentation: the whitespace at the start of the first line of a
    part with several lines is put before each of its other lines. *)
Definition spec_indentPart (part : jsstring) : jsstring :=
  if negb (has_newline part) then part
  else
    match split_on LF part with
    | [] => []
    | line0 :: others =>
        let prefix := fst (span is_whitespace line0) in
        join nl (line0 :: List.map (fun line => prefix ++ line) others)
    end.

(** Display names: the parse function of a rule with a display name, when
    the result is not in the cache, as the specification words it: the
    flag is saved and cleared, the body runs, the flag is restored, and
    [matchFailed(displayName)] is called if the result of the body is
    [null]. *)
Definition spec_named_rule (ev : expr -> fragment) (node : rule)
    (d : jsstring) (s : state) : option (state * value) :=
  let key := cacheKey (name node) (pos s) in
  match ev (expression node) (set_reportMatchFailures false s) with
  | None => None
  | Some (s1, result) =>
      let s2 := set_reportMatchFailures (reportMatchFailures s) s1 in
      let s3 := if is_null result then matchFailed d s2 else s2 in
      Some (set_cache (<[key := (pos s3, result)]> (cache s3)) s3, result)
  end.

End SpecWords.

(** ** Sample grammars and inputs *)

Module Samples.
Import Runtime.

(** User code that returns [null] ([return null;]). *)
Definition returns_null : jsstring -> nat -> list (jsstring * value) -> value :=
  fun _ _ _ => VNull.

(** [start = "a" { return null; }]. *)
Definition null_action : expr :=
  Action (Literal (js "a")) (js "return null;").

Definition null_action_grammar : grammar :=
  Grammar None (js "start")
    [(js "start", Rule (js "start") None null_action)].

(** [start = "a" { return null; } / "b"]. *)
Definition null_action_choice : expr :=
  Choice [null_action; Literal (js "b")].

(** [start = "abc"]. *)
Definition abc_grammar : grammar :=
  Grammar None (js "start")
    [(js "start", Rule (js "start") None (Literal (js "abc")))].

(** [letter "a letter" = [a-z]]. *)
Definition letter_rule : rule :=
  Rule (js "letter") (Some (js "a letter"))
       (Class [RangePart 97%N 122%N] false (js "[a-z]")).

Definition letter_grammar : grammar :=
  Grammar None (js "letter") [(js "letter", letter_rule)].

(** [a = "x"] and [b = "y"], enumerated in the two possible orders. *)
Definition rule_a : rule := Rule (js "a") None (Literal (js "x")).



(** [start = "\u2028" "\n" "x"]. *)
Definition separator_grammar : grammar :=
  Grammar None (js "start")
    [(js "start",
      Rule (js "start") None
           (Sequence [Literal [LS]; Literal [LF]; Literal (js "x")]))].

(** A parser in the middle of a predicate: [reportMatchFailures] is off. *)
Definition quiet_state : state := State 0 false 0 [] ∅.

End Samples.


(** ** Objects used as maps *)

Module JsObject.
Import Js.

(** [vars] and [UID._counters] are objects created by object literals, so
    [object[name]] also finds the properties of [Object.prototype], and an
    assignment to [__proto__] does not create an entry.  The names of these
    properties: the ones of ECMA-262, 5th ed., section 15.2.4, and the ones
    the engines add to them. *)
Definition Object_prototype_names : list jsstring :=
  [js "constructor"; js "toString"; js "toLocaleString"; js "valueOf";
   js "hasOwnProperty"; js "isPrototypeOf"; js "propertyIsEnumerable";
   js "__proto__"; js "__defineGetter__"; js "__defineSetter__";
   js "__lookupGetter__"; js "__lookupSetter__"; js "__noSuchMethod__";
   js "__count__"; js "__parent__"; js "toSource"; js "watch"; js "unwatch";
   js "eval"].

(** [name] is found in every object. *)
Definition inherited (name : jsstring) : bool :=
  existsb (jsstring_eqb name) Object_prototype_names.

(** Numbers are doubles: [n++] adds one exactly below 2^53 and leaves 2^53
    as it is. *)
Definition MAX_EXACT : N := (2 ^ 53)%N.

End JsObject.


(** ** Predicates on template text *)

Module TemplateText.

(** [name] matches the identifier pattern of the variable syntax, a letter
    or underscore followed by letters, digits and underscores. *)
Definition is_identifier (name : jsstring) : bool :=
  match name with
  | c :: rest => is_ident_start c && forallb is_ident_char rest
  | [] => false
  end.

(** The dollar sign, which starts a variable reference. *)
Definition DOLLAR : jschar := 36%N.

(** The text of a reference to [name], without and with a filter. *)
Definition reference (name : jsstring) : jsstring :=
  js "${" ++ name ++ js "}".

Definition filtered_reference (name filter : jsstring) : jsstring :=
  js "${" ++ name ++ js "|" ++ filter ++ js "}".

End TemplateText.

(** ** String literals (ECMA-262, 5th ed., 7.8.4)

    The comment of [quote] states what its result is meant to be: a string
    literal of the language.  The value of a double-quoted string literal
    is defined here from the grammar of the standard, to compare it with
    the string that was quoted. *)

Module StringLiteral.

(** The replacement [quote] makes for one code unit, were its five
    replacements made in a single pass. *)
Definition quote_char (c : jschar) : jsstring :=
  if (c =? BACKSLASH)%N then [BACKSLASH; BACKSLASH]
  else if (c =? DQUOTE)%N then [BACKSLASH; DQUOTE]
  else if (c =? CR)%N then BACKSLASH :: js "r"
  else if (c =? LF)%N then BACKSLASH :: js "n"
  else if ((128 <=? c) && (c <=? 65535))%N then escape c
  else [c].

(** LineTerminator. *)
Definition is_line_terminator (c : jschar) : bool :=
  ((c =? LF) || (c =? CR) || (c =? LS) || (c =? PS))%N.

(** DecimalDigit. *)
Definition is_decimal_digit (c : jschar) : bool :=
  ((48 <=? c) && (c <=? 57))%N.

(** The value of a HexDigit. *)
Definition hex_value (c : jschar) : option N :=
  if ((48 <=? c) && (c <=? 57))%N then Some (c - 48)%N
  else if ((65 <=? c) && (c <=? 70))%N then Some (c - 55)%N
  else if ((97 <=? c) && (c <=? 102))%N then Some (c - 87)%N
  else None.

Definition hex_number (digits : jsstring) : option N :=
  fold_left (fun acc d =>
               match acc, hex_value d with
               | Some a, Some v => Some (16 * a + v)%N
               | _, _ => None
               end) digits (Some 0%N).

(** The character value of a SingleEscapeCharacter. *)
Definition single_escape (c : jschar) : option jschar :=
  if (c =? 39)%N then Some 39%N            (* ' *)
  else if (c =? 34)%N then Some 34%N       (* double quote *)
  else if (c =? 92)%N then Some 92%N       (* backslash *)
  else if (c =? 98)%N then Some 8%N        (* b *)
  else if (c =? 102)%N then Some 12%N      (* f *)
  else if (c =? 110)%N then Some 10%N      (* n *)
  else if (c =? 114)%N then Some 13%N      (* r *)
  else if (c =? 116)%N then Some 9%N       (* t *)
  else if (c =? 118)%N then Some 11%N      (* v *)
  else None.

Definition prepend (c : jschar) (r : option jsstring) : option jsstring :=
  option_map (cons c) r.

(** The string value of DoubleStringCharacters followed by the closing
    quote, which must end the text; [None] where the text is not of this
    form. *)
Fixpoint string_characters (s : jsstring) : option jsstring :=
  match s with
  | [] => None
  | c :: rest =>
      if (c =? DQUOTE)%N then
        match rest with
        | [] => Some []
        | _ :: _ => None
        end
      else if is_line_terminator c then None
      else if (c =? BACKSLASH)%N then
        match rest with
        | [] => None
        | e :: rest1 =>
            if (e =? 120)%N then                      (* HexEscapeSequence *)
              match rest1 with
              | h1 :: h2 :: rest2 =>
                  match hex_number [h1; h2] with
                  | Some v => prepend v (string_characters rest2)
                  | None => None
                  end
              | _ => None
              end
            else if (e =? 117)%N then             (* UnicodeEscapeSequence *)
              match rest1 with
              | h1 :: h2 :: h3 :: h4 :: rest2 =>
                  match hex_number [h1; h2; h3; h4] with
                  | Some v => prepend v (string_characters rest2)
                  | None => None
                  end
              | _ => None
              end
            else if (e =? 48)%N then      (* 0, not followed by a digit *)
              match rest1 with
              | d :: _ =>
                  if is_decimal_digit d then None
                  else prepend 0%N (string_characters rest1)
              | [] => prepend 0%N (string_characters rest1)
              end
            else if is_decimal_digit e then None
            else if (e =? CR)%N then                   (* LineContinuation *)
              match rest1 with
              | l :: rest2 =>
                  if (l =? LF)%N then string_characters rest2
                  else string_characters rest1
              | [] => string_characters rest1
              end
            else if is_line_terminator e then string_characters rest1
            else
              match single_escape e with
              | Some v => prepend v (string_characters rest1)
              | None => prepend e (string_characters rest1)
              end
        end
      else prepend c (string_characters rest)
  end.

(** The string value of a string literal in double quotes. *)
Definition string_literal_value (s : jsstring) : option jsstring :=
  match s with
  | c :: rest => if (c =? DQUOTE)%N then string_characters rest else None
  | [] => None
  end.

(** The escape sequence [escape] writes for [c] is a hexadecimal or a
    Unicode escape sequence in ASCII digits, whose value is [c]. *)
Definition is_ascii_text (c : jschar) : bool :=
  ((c <? 128) && negb (c =? LF) && negb (c =? CR))%N.

Definition escape_checked (c : N) : bool :=
  match escape c with
  | [b; x; h1; h2] =>
      (b =? BACKSLASH)%N && (x =? 120)%N
      && match hex_number [h1; h2] with
         | Some v => (v =? c)%N
         | None => false
         end
      && forallb is_ascii_text [h1; h2]
  | [b; u; h1; h2; h3; h4] =>
      (b =? BACKSLASH)%N && (u =? 117)%N
      && match hex_number [h1; h2; h3; h4] with
         | Some v => (v =? c)%N
         | None => false
         end
      && forallb is_ascii_text [h1; h2; h3; h4]
  | _ => false
  end.

(** [escape_checked] on the [n] code units from [c] on. *)
Fixpoint escape_checked_from (n : nat) (c : N) : bool :=
  match n with
  | O => true
  | S n' => escape_checked c && escape_checked_from n' (N.succ c)
  end.

End StringLiteral.

(** ** Sequences of calls of [UID.next] *)

Module UIDCalls.

Definition is_digit (c : jschar) : bool := ((48 <=? c) && (c <=? 57))%N.

(** The prefix ends in a decimal digit. *)
Definition ends_in_digit (prefix : jsstring) : bool :=
  match last prefix with
  | Some c => is_digit c
  | None => false
  end.

(** The names returned by calls of [UID.next] made one after the other
    for the given prefixes, and the counters they leave. *)
Fixpoint next_all (prefixes : list jsstring) (c : gmap jsstring nat)
    : list jsstring * gmap jsstring nat :=
  match prefixes with
  | [] => ([], c)
  | prefix :: rest =>
      let '(name, c1) := UID.next prefix c in
      let '(names, c2) := next_all rest c1 in
      (name :: names, c2)
  end.

End UIDCalls.

(** ** Outcomes of the emitter *)

Module Outcome.

(** The computation ends without throwing. *)
Definition returns {A} (m : exc A) : bool :=
  match m with
  | Return _ => true
  | Raise _ => false
  end.

(** The emission function completes for [node], whatever the name of the
    result variable and the counters of [UID]. *)
Definition emits (quoteForRegexpClass : jsstring -> jsstring) (node : expr)
    : Prop :=
  forall resultVar c,
    exists code c',
      Emitter.emit quoteForRegexpClass node resultVar c = Return (code, c').

End Outcome.

(** ** States and code of the emitted parser used in the statements *)

Module ParserStates.
Import Runtime.

(** The positions the parser holds are positions of the input: [pos],
    the position of the rightmost failures and the positions stored in the
    cache are at most [input.length]. *)
Definition within_input (input : jsstring) (s : state) : Prop :=
  pos s <= length input
  /\ rightmostMatchFailuresPos s <= length input
  /\ map_Forall (fun _ (x : nat * value) => fst x <= length input) (cache s).

(** The two states are at the same position with the same cache; they may
    differ in what concerns the reporting of failures. *)
Definition same_parse (s t : state) : Prop :=
  pos s = pos t /\ cache s = cache t.

(** A fragment does the same from two states at the same position with
    the same cache: it completes from both or from none, with the same
    result, at the same position and with the same cache. *)
Definition transfers (f : fragment) : Prop :=
  forall s t s' r,
    same_parse s t -> f s = Some (s', r) ->
    exists t', f t = Some (t', r) /\ same_parse s' t'.

(** The labels of the labeled elements of a sequence, each with the
    result of its element. *)
Definition labelled (elements : list expr) (items : list value)
    : list (jsstring * value) :=
  flat_map (fun x : expr * value =>
              match fst x with
              | Labeled label _ => [(label, snd x)]
              | _ => []
              end) (zip elements items).

(** User code that returns [undefined] (an empty body). *)
Definition returns_undefined
    : jsstring -> nat -> list (jsstring * value) -> value :=
  fun _ _ _ => VUndefined.

(** User code that returns its first parameter, or [undefined] when it has
    none. *)
Definition returns_first_parameter
    : jsstring -> nat -> list (jsstring * value) -> value :=
  fun _ _ bindings =>
    match bindings with
    | (_, v) :: _ => v
    | [] => VUndefined
    end.

End ParserStates.

(** ** The emitted parser with user code that keeps state

    The code of an action or of a semantic predicate is the body of a
    function that the parser calls: [(function(...) {code})(...)].  It
    can read and write the variables the initializer declares, so what it
    returns may change from one call to the next.  Here the user's code
    has a state of its own, threaded through the parse; as before it is
    taken to leave the variables of the parser alone.  The templates are
    executed as in [Runtime]. *)

Module Stateful.
Import Runtime.

(** A completed call of a parse function: the rule, [pos] when the
    function was entered, and what the call left and returned. *)
Record call := Call {
  call_rule_name : jsstring;
  call_pos : nat;
  call_nextPos : nat;
  call_result : value
}.

Section Parser.

(** The type of the state the user's code keeps (the variables of the
    initializer). *)
Variable U : Type.

Variable input : jsstring.
Variable g : grammar.

(** The user's code: the value returned by the function whose body is the
    code, at the current position, for the bindings of its parameters, in
    the current state of the user's variables, and the state it leaves. *)
Variable run_code :
  jsstring -> nat -> list (jsstring * value) -> U -> value * U.

(** The variables of [parse], the user's variables, and the calls of
    parse functions completed so far, oldest first.  The parser has no such
    list: it is kept to speak of all the calls of a parse. *)
Record pstate := PState {
  parser : state;
  user : U;
  calls : list call
}.

Definition with_parser (s : state) (st : pstate) : pstate :=
  PState s (user st) (calls st).

Definition fragment := pstate -> option (pstate * value).

(** The code emitted by [choice]. *)
Fixpoint choice_alternatives (ev : expr -> fragment) (alts : list expr)
    (st : pstate) : option (pstate * value) :=
  match alts with
  | [] => Some (st, VNull)
  | alternative :: rest =>
      match ev alternative st with
      | None => None
      | Some (st1, r) =>
          if is_null r then choice_alternatives ev rest st1
          else Some (st1, r)
      end
  end.

(** The code emitted by [sequence] after [savedPos] is set. *)
Fixpoint sequence_elements (ev : expr -> fragment) (savedPos : nat)
    (elems : list expr) (results : list value) (st : pstate)
    : option (pstate * value) :=
  match elems with
  | [] => Some (st, VArr results)
  | element :: rest =>
      match ev element st with
      | None => None
      | Some (st1, r) =>
          if is_null r
          then Some (with_parser (set_pos savedPos (parser st1)) st1, VNull)
          else sequence_elements ev savedPos rest (results ++ [r]) st1
      end
  end.

(** [while (r !== null) { result.push(r); <expression code> }]. *)
Fixpoint while_loop (body : fragment) (fuel : nat) (items : list value)
    (st : pstate) (r : value) : option (pstate * value) :=
  if is_null r then Some (st, VArr items)
  else
    match fuel with
    | O => None
    | S fuel' =>
        match body st with
        | None => None
        | Some (st1, r1) => while_loop body fuel' (items ++ [r]) st1 r1
        end
    end.

(** The function [parse_<name>] emitted by [rule].  The key is computed
    when the function is entered; the store at the end is made whatever
    the cache holds by then. *)
Definition parse_rule (ev : expr -> fragment) (node : rule) (st : pstate)
    : option (pstate * value) :=
  let s := parser st in
  let key := cacheKey (name node) (pos s) in
  match cache s !! key with
  | Some (nextPos, result) =>
      Some (PState (set_pos nextPos s) (user st)
                   (calls st ++ [Call (name node) (pos s) nextPos result]),
            result)
  | None =>
      let savedReportMatchFailures := reportMatchFailures s in
      let st0 :=
        match displayName node with
        | Some _ => with_parser (set_reportMatchFailures false s) st
        | None => st
        end in
      match ev (expression node) st0 with
      | None => None
      | Some (st1, result) =>
          let s1 := parser st1 in
          let s2 :=
            match displayName node with
            | Some _ => set_reportMatchFailures savedReportMatchFailures s1
            | None => s1
            end in
          let s3 :=
            match displayName node with
            | Some d =>
                if reportMatchFailures s2 && is_null result
                then matchFailed d s2 else s2
            | None => s2
            end in
          Some (PState
                  (set_cache (<[key := (pos s3, result)]> (cache s3)) s3)
                  (user st1)
                  (calls st1 ++ [Call (name node) (pos s) (pos s3) result]),
                result)
      end
  end.

(** A call [parse_<name>()]. *)
Definition call_rule (ev : expr -> fragment) (name : jsstring) (st : pstate)
    : option (pstate * value) :=
  match lookup_rule (rules g) name with
  | None => None
  | Some node => parse_rule ev node st
  end.

(** A call of the user's code, which may change the user's variables. *)
Definition call_code (code : jsstring) (bindings : list (jsstring * value))
    (st : pstate) : pstate * value :=
  let '(v, u) := run_code code (pos (parser st)) bindings (user st) in
  (PState (parser st) u (calls st), v).

(** The code emitted for an operator node, executed with [n] levels of
    nesting and at most [n] iterations of each loop. *)
Fixpoint eval (n : nat) (node : expr) (st : pstate) {struct n}
    : option (pstate * value) :=
  match n with
  | O => None
  | S n' =>
      match node with
      | Choice alternatives => choice_alternatives (eval n') alternatives st
      | Sequence elements =>
          sequence_elements (eval n') (pos (parser st)) elements [] st
      | Labeled _ expression => eval n' expression st
      | SimpleAnd expression =>
          let savedPos := pos (parser st) in
          let savedReportMatchFailures := reportMatchFailures (parser st) in
          match eval n' expression
                     (with_parser (set_reportMatchFailures false (parser st))
                                  st) with
          | None => None
          | Some (st1, r) =>
              let s2 :=
                set_reportMatchFailures savedReportMatchFailures
                                        (parser st1) in
              if negb (is_null r)
              then Some (with_parser (set_pos savedPos s2) st1, VStr [])
              else Some (with_parser s2 st1, VNull)
          end
      | SimpleNot expression =>
          let savedPos := pos (parser st) in
          let savedReportMatchFailures := reportMatchFailures (parser st) in
          match eval n' expression
                     (with_parser (set_reportMatchFailures false (parser st))
                                  st) with
          | None => None
          | Some (st1, r) =>
              let s2 :=
                set_reportMatchFailures savedReportMatchFailures
                                        (parser st1) in
              if is_null r then Some (with_parser s2 st1, VStr [])
              else Some (with_parser (set_pos savedPos s2) st1, VNull)
          end
      | SemanticAnd code =>
          let '(st1, v) := call_code code [] st in
          Some (st1, if truthy v then VStr [] else VNull)
      | SemanticNot code =>
          let '(st1, v) := call_code code [] st in
          Some (st1, if truthy v then VNull else VStr [])
      | Optional expression =>
          match eval n' expression st with
          | None => None
          | Some (st1, r) => Some (st1, if negb (is_null r) then r else VStr [])
          end
      | ZeroOrMore expression =>
          match eval n' expression st with
          | None => None
          | Some (st1, r) => while_loop (eval n' expression) n' [] st1 r
          end
      | OneOrMore expression =>
          match eval n' expression st with
          | None => None
          | Some (st1, r) =>
              if negb (is_null r)
              then while_loop (eval n' expression) n' [] st1 r
              else Some (st1, VNull)
          end
      | Action expression code =>
          match eval n' expression st with
          | None => None
          | Some (st1, r) =>
              if negb (is_null r)
              then
                let '(st2, v) :=
                  call_code code (action_bindings expression r) st1 in
                Some (st2, v)
              else Some (st1, VNull)
          end
      | RuleRef name => call_rule (eval n') name st
      | Literal value =>
          let s := parser st in
          if jsstring_eqb (substr input (pos s) (length value)) value
          then Some (with_parser (set_pos (pos s + length value) s) st,
                     VStr value)
          else Some (with_parser (report (quote value) s) st, VNull)
      | Any =>
          let s := parser st in
          if pos s <? length input
          then Some (with_parser (set_pos (S (pos s)) s) st,
                     VStr (charAt input (pos s)))
          else Some (with_parser (report (js "any character") s) st, VNull)
      | Class parts inverted rawText =>
          let s := parser st in
          match input !! pos s with
          | Some c =>
              if class_matches parts inverted c
              then Some (with_parser (set_pos (S (pos s)) s) st,
                         VStr (charAt input (pos s)))
              else Some (with_parser (report rawText s) st, VNull)
          | None => Some (with_parser (report rawText s) st, VNull)
          end
      end
  end.

(** A call of a parse function with [n] levels of nesting for its body. *)
Definition parse_function (n : nat) (name : jsstring) (st : pstate)
    : option (pstate * value) :=
  call_rule (eval n) name st.

(** The state [parse] starts from, for the user's variables as the
    initializer leaves them. *)
Definition initial (u : U) : pstate := PState initial_state u [].

(** The user's code keeps no state: what it returns is the function [f]
    of its code, the position and its arguments, and it leaves the user's
    variables as they are. *)
Definition pure_user_code
    (f : jsstring -> nat -> list (jsstring * value) -> value) : Prop :=
  forall code p bindings u, run_code code p bindings u = (f code p bindings, u).

(** The fragment [sf] does what the fragment [pf] of [Runtime] does to
    the variables of the parser, leaves the user's variables alone and adds
    calls to the list; it completes exactly when [pf] does. *)
Definition mirrors (pf : Runtime.fragment) (sf : fragment) : Prop :=
  forall st,
    match pf (parser st) with
    | Some (s', r) =>
        exists l, sf st = Some (PState s' (user st) (calls st ++ l), r)
    | None => sf st = None
    end.

(** Every call in the list is answered by the cache: the entry of its
    rule at its position holds what it left and returned. *)
Definition answered (st : pstate) : Prop :=
  forall c, c ∈ calls st ->
    cache (parser st) !! cacheKey (call_rule_name c) (call_pos c)
    = Some (call_nextPos c, call_result c).

(** Two calls in the list of the same rule at the same position left the
    same position and returned the same result. *)
Definition coherent (st : pstate) : Prop :=
  forall c1 c2, c1 ∈ calls st -> c2 ∈ calls st ->
    call_rule_name c1 = call_rule_name c2 -> call_pos c1 = call_pos c2 ->
    call_nextPos c1 = call_nextPos c2 /\ call_result c1 = call_result c2.

(** The states in which the loop of [e*] or [e+] executes [e], when its
    first execution is in [st]: [st], and the states left by executions
    of [e] that succeed. *)
Inductive iterates (e : expr) (st : pstate) : pstate -> Prop :=
| iterates_here : iterates e st st
| iterates_next n st1 v t :
    eval n e st = Some (st1, v) -> v <> VNull ->
    iterates e st1 t -> iterates e st t.

End Parser.

Arguments PState {U} parser user calls.
Arguments parser {U} p.
Arguments user {U} p.
Arguments calls {U} p.
Arguments with_parser {U} s st.
Arguments initial {U} u.
Arguments answered {U} st.
Arguments mirrors {U} pf sf.
Arguments coherent {U} st.

End Stateful.

(** ** Sample grammars with user code *)

Module StatefulSamples.
Import Runtime Stateful Samples.

(** User code that keeps no state and returns what [f] gives. *)
Definition stateless
    (f : jsstring -> nat -> list (jsstring * value) -> value)
    : jsstring -> nat -> list (jsstring * value) -> unit -> value * unit :=
  fun code p bindings u => (f code p bindings, u).

(** The user code of a grammar whose initializer is [var n = 0;]: the
    user's variables are the value of [n]. *)
Definition counter_code
    : jsstring -> nat -> list (jsstring * value) -> nat -> value * nat :=
  fun code _ _ n =>
    if jsstring_eqb code (js "return n++ === 0;") then (VBool (n =? 0), S n)
    else if jsstring_eqb code (js "return n++ !== 0;")
    then (VBool (negb (n =? 0)), S n)
    else if jsstring_eqb code (js "return n++ !== 1;")
    then (VBool (negb (n =? 1)), S n)
    else if jsstring_eqb code (js "return n++ < 3;")
    then (VBool (n <? 3), S n)
    else if jsstring_eqb code (js "return 'outer';")
    then (VStr (js "outer"), n)
    else (VUndefined, n).

(** [R = &{ return n++ === 0; } R { return 'outer'; } / "x"]. *)
Definition reentrant_rule : rule :=
  Rule (js "R") None
       (Choice [Action (Sequence [SemanticAnd (js "return n++ === 0;");
                                  RuleRef (js "R")])
                       (js "return 'outer';");
                Literal (js "x")]).

Definition reentrant_grammar : grammar :=
  Grammar (Some (js "var n = 0;")) (js "R") [(js "R", reentrant_rule)].

(** [(&{ return n++ < 3; })*]. *)
Definition counted_loop : expr :=
  ZeroOrMore (SemanticAnd (js "return n++ < 3;")).

(** [&{ return n++ !== 1; } "a"], the expression repeated in
    [(&{ return n++ !== 1; } "a")*]. *)
Definition skipping_element : expr :=
  Sequence [SemanticAnd (js "return n++ !== 1;"); Literal (js "a")].

(** [&{ return n++ !== 0; } "a" / "b"]. *)
Definition late_choice : list expr :=
  [Sequence [SemanticAnd (js "return n++ !== 0;"); Literal (js "a")];
   Literal (js "b")].

(** ["a" / "b"?], which matches without consuming input where there is
    no ["a"]. *)
Definition a_or_maybe_b : expr :=
  Choice [Literal (js "a"); Optional (Literal (js "b"))].

End StatefulSamples.

(** * Properties *)

(** ** Strings *)

Module JsFacts.

Lemma jsstring_eqb_eq a b : jsstring_eqb a b = true <-> a = b.
Proof.
  revert b; induction a as [|x a IH]; intros [|y b]; simpl; try easy.
  rewrite andb_true_iff, N.eqb_eq, IH. split.
  - intros [-> ->]; reflexivity.
  - intros [= -> ->]; auto.
Qed.

Lemma jsstring_eqb_refl a : jsstring_eqb a a = true.
Proof. apply jsstring_eqb_eq; reflexivity. Qed.

Lemma substr_eq_bound (input value : jsstring) (p : nat) :
  substr input p (length value) = value ->
  length value = 0 \/ p + length value <= length input.
Proof.
  unfold substr. intros H.
  apply (f_equal length) in H.
  rewrite length_take, length_drop in H. lia.
Qed.

Lemma js_inj s1 s2 : js s1 = js s2 -> s1 = s2.
Proof.
  unfold js. intros H.
  rewrite <- (string_of_list_ascii_of_string s1),
          <- (string_of_list_ascii_of_string s2).
  f_equal.
  revert H. generalize (list_ascii_of_string s1) as l1.
  generalize (list_ascii_of_string s2) as l2.
  intros l2 l1. revert l2.
  induction l1 as [|a l1 IH]; intros [|b l2] H; simpl in H;
    try discriminate; auto.
  inversion H as [[Hab Hl]].
  f_equal; [|auto].
  rewrite <- (ascii_N_embedding a), <- (ascii_N_embedding b), Hab.
  reflexivity.
Qed.

Lemma to_decimal_inj n m : to_decimal n = to_decimal m -> n = m.
Proof.
  unfold to_decimal. intros H. apply js_inj in H.
  apply (f_equal NilEmpty.uint_of_string) in H.
  rewrite !NilEmpty.usu in H. inversion H as [Hu].
  apply (f_equal Nat.of_uint) in Hu.
  rewrite !DecimalNat.Unsigned.of_to in Hu. exact Hu.
Qed.

Lemma decimal_no_at d : 64%N ∉ js (NilEmpty.string_of_uint d).
Proof.
  induction d; unfold js in *; simpl; rewrite ?elem_of_cons;
    try (intros [?|?]; [discriminate|contradiction]).
  apply not_elem_of_nil.
Qed.

Lemma app_at_inj (l1 l2 d1 d2 : jsstring) :
  64%N ∉ d1 -> 64%N ∉ d2 ->
  l1 ++ 64%N :: d1 = l2 ++ 64%N :: d2 -> l1 = l2 /\ d1 = d2.
Proof.
  intros H1 H2. revert l2.
  induction l1 as [|x l1 IH]; intros [|y l2] H; simpl in H.
  - inversion H; auto.
  - inversion H; subst. exfalso. apply H1.
    apply elem_of_app. right. apply elem_of_cons. auto.
  - inversion H; subst. exfalso. apply H2.
    apply elem_of_app. right. apply elem_of_cons. auto.
  - inversion H; subst. destruct (IH _ ltac:(eassumption)) as [-> ->]. auto.
Qed.

End JsFacts.
Import JsFacts.

(** ** The emitted parser: invariants of the fragments *)

Module RuntimeFacts.
Import Runtime.

Section Facts.

Variable input : jsstring.
Variable g : grammar.
Variable run_code : jsstring -> nat -> list (jsstring * value) -> value.

Local Abbreviation eval := (Runtime.eval input g run_code).
Local Abbreviation parse_function := (Runtime.parse_function input g run_code).
Local Abbreviation call_rule := (Runtime.call_rule g).

(** *** A scheme for invariants of the parser state

    [I] is kept by every fragment when it is kept by the assignments the
    templates contain: to [pos] (of a position saved before, read from the
    cache, or reached by matching input), to [reportMatchFailures], by
    [matchFailed], and by the store into the cache at the end of a parse
    function, whose key was absent when the function was entered. *)
Section Invariant.

Variable I : state -> Prop.
Variable okpos : nat -> Prop.

Hypothesis I_pos : forall s, I s -> okpos (pos s).
Hypothesis I_set_pos : forall s p, I s -> okpos p -> I (set_pos p s).
Hypothesis I_input : forall p, p <= length input -> okpos p.
Hypothesis I_report_off :
  forall s, I s -> I (set_reportMatchFailures false s).
Hypothesis I_report_restore :
  forall s0 s, I s0 -> I s ->
    I (set_reportMatchFailures (reportMatchFailures s0) s).
Hypothesis I_matchFailed :
  forall s f, I s -> reportMatchFailures s = true -> I (matchFailed f s).
Hypothesis I_lookup :
  forall s k np r, I s -> cache s !! k = Some (np, r) -> okpos np.
Hypothesis I_store :
  forall s0 s k r, I s0 -> cache s0 !! k = None -> I s ->
    I (set_cache (<[k := (pos s, r)]> (cache s)) s).

Local Abbreviation keeps := (Runtime.keeps I).

Lemma I_report s f : I s -> I (report f s).
Proof. unfold report. destruct (reportMatchFailures s) eqn:E; auto. Qed.

Lemma choice_keeps ev alts :
  (forall e, keeps (ev e)) -> keeps (choice_alternatives ev alts).
Proof.
  intros Hev. induction alts as [|a alts IH]; intros s s' r Hs H; simpl in H.
  - congruence.
  - destruct (ev a s) as [[s1 r1]|] eqn:E; [|discriminate].
    apply Hev in E; auto.
    destruct (is_null r1); [eapply IH; eauto | congruence].
Qed.

Lemma sequence_keeps ev savedPos elems results :
  (forall e, keeps (ev e)) -> okpos savedPos ->
  keeps (sequence_elements ev savedPos elems results).
Proof.
  intros Hev Hp. revert results.
  induction elems as [|a elems IH]; intros results s s' r Hs H; simpl in H.
  - congruence.
  - destruct (ev a s) as [[s1 r1]|] eqn:E; [|discriminate].
    apply Hev in E; auto.
    destruct (is_null r1).
    + inversion H; subst. auto.
    + eapply IH; eauto.
Qed.

Lemma while_keeps body fuel items s r s' r' :
  keeps body -> I s ->
  while_loop body fuel items s r = Some (s', r') -> I s'.
Proof.
  intros Hb. revert items s r.
  induction fuel as [|fuel IH]; intros items s r Hs H; simpl in H.
  - destruct (is_null r); congruence.
  - destruct (is_null r); [congruence|].
    destruct (body s) as [[s1 r1]|] eqn:E; [|discriminate].
    eapply IH; [|exact H]. eapply Hb; eauto.
Qed.

Lemma parse_rule_keeps ev node :
  (forall e, keeps (ev e)) -> keeps (parse_rule ev node).
Proof.
  intros Hev s s' r Hs H. unfold parse_rule in H.
  destruct (cache s !! cacheKey (name node) (pos s)) as [[np res]|] eqn:Hc.
  - inversion H; subst. eauto.
  - destruct (displayName node) as [d|].
    + destruct (ev (expression node) (set_reportMatchFailures false s))
        as [[s1 r1]|] eqn:E; [|discriminate].
      apply Hev in E; auto.
      inversion H; subst; clear H.
      pose proof (I_report_restore _ _ Hs E) as Hr.
      apply I_store with (s0 := s); auto.
      match goal with |- I (if ?b then _ else _) => destruct b eqn:Eb end; auto.
      apply andb_true_iff in Eb as [Eb _]. apply I_matchFailed; auto.
    + destruct (ev (expression node) s) as [[s1 r1]|] eqn:E; [|discriminate].
      apply Hev in E; auto.
      inversion H; subst; clear H.
      apply I_store with (s0 := s); auto.
Qed.

Lemma call_rule_keeps ev name :
  (forall e, keeps (ev e)) -> keeps (call_rule ev name).
Proof.
  intros Hev s s' r Hs H. unfold Runtime.call_rule in H.
  destruct (lookup_rule (rules g) name); [|discriminate].
  eapply parse_rule_keeps; eauto.
Qed.

Lemma eval_keeps n : forall e, keeps (eval n e).
Proof.
  induction n as [|n IH]; intros e s s' r Hs H; [discriminate|].
  destruct e; simpl in H.
  - eapply choice_keeps; eauto.
  - eapply sequence_keeps; eauto.
  - eapply IH; eauto.
  - destruct (eval n e _) as [[s1 r1]|] eqn:E; [|discriminate].
    apply IH in E; auto.
    destruct (negb (is_null r1)); inversion H; subst; auto 6.
  - destruct (eval n e _) as [[s1 r1]|] eqn:E; [|discriminate].
    apply IH in E; auto.
    destruct (is_null r1); inversion H; subst; auto 6.
  - inversion H; subst; auto.
  - inversion H; subst; auto.
  - destruct (eval n e s) as [[s1 r1]|] eqn:E; [|discriminate].
    apply IH in E; auto. inversion H; subst; auto.
  - destruct (eval n e s) as [[s1 r1]|] eqn:E; [|discriminate].
    apply IH in E; auto. eapply while_keeps; [apply IH| |]; eauto.
  - destruct (eval n e s) as [[s1 r1]|] eqn:E; [|discriminate].
    apply IH in E; auto.
    destruct (negb (is_null r1)).
    + eapply while_keeps; [apply IH| |]; eauto.
    + inversion H; subst; auto.
  - destruct (eval n e s) as [[s1 r1]|] eqn:E; [|discriminate].
    apply IH in E; auto. inversion H; subst; auto.
  - eapply call_rule_keeps; eauto.
  - destruct (jsstring_eqb _ _) eqn:E.
    + inversion H; subst. apply I_set_pos; auto.
      apply jsstring_eqb_eq, substr_eq_bound in E. destruct E as [E|E].
      * rewrite E, Nat.add_0_r. auto.
      * auto.
    + inversion H; subst. apply I_report; auto.
  - destruct (pos s <? length input) eqn:E.
    + inversion H; subst. apply I_set_pos; auto.
      apply Nat.ltb_lt in E. apply I_input. lia.
    + inversion H; subst. apply I_report; auto.
  - destruct (input !! pos s) as [c|] eqn:E.
    + destruct (class_matches _ _ _).
      * inversion H; subst. apply I_set_pos; auto.
        apply lookup_lt_Some in E. apply I_input. lia.
      * inversion H; subst. apply I_report; auto.
    + inversion H; subst. apply I_report; auto.
Qed.

Lemma parse_function_keeps n name : keeps (parse_function n name).
Proof. apply call_rule_keeps, eval_keeps. Qed.

End Invariant.

(** *** Instances of the scheme *)

Lemma matchFailed_cache f s : cache (matchFailed f s) = cache s.
Proof.
  unfold matchFailed. destruct (_ <? _); auto. destruct (_ <? _); auto.
Qed.

Lemma matchFailed_pos f s : pos (matchFailed f s) = pos s.
Proof.
  unfold matchFailed. destruct (_ <? _); auto. destruct (_ <? _); auto.
Qed.

Lemma store_subseteq (c c0 c1 : gmap jsstring (nat * value)) k v :
  c ⊆ c0 -> c0 !! k = None -> c ⊆ c1 -> c ⊆ <[k := v]> c1.
Proof.
  intros Hc0 Hk Hc1.
  apply map_subseteq_spec. intros i x Hi.
  assert (Hne : k <> i).
  { intros ->. eapply lookup_weaken in Hi; [|exact Hc0]. congruence. }
  rewrite lookup_insert_ne by exact Hne.
  eapply lookup_weaken; eauto.
Qed.

(** Entries of the cache are never removed or changed by a fragment that
    starts with them in the cache. *)
Lemma eval_cache_mono n e s s' r :
  eval n e s = Some (s', r) -> cache s ⊆ cache s'.
Proof.
  intros H.
  apply (eval_keeps (fun t => cache s ⊆ cache t) (fun _ => True))
    with (n := n) (e := e) (s := s) (r := r); auto.
  - intros t f Ht _. rewrite matchFailed_cache. exact Ht.
  - intros s0 t k r0 Hs0 Hk Ht. simpl. apply store_subseteq with (c0 := cache s0); auto.
Qed.

Lemma parse_function_cache_mono n name s s' r :
  parse_function n name s = Some (s', r) -> cache s ⊆ cache s'.
Proof.
  intros H.
  apply (parse_function_keeps (fun t => cache s ⊆ cache t) (fun _ => True))
    with (n := n) (name := name) (s := s) (r := r); auto.
  - intros t f Ht _. rewrite matchFailed_cache. exact Ht.
  - intros s0 t k r0 Hs0 Hk Ht. simpl. apply store_subseteq with (c0 := cache s0); auto.
Qed.

Lemma matchFailed_rightmost_le f s :
  rightmostMatchFailuresPos s <= rightmostMatchFailuresPos (matchFailed f s).
Proof.
  unfold matchFailed.
  destruct (pos s <? rightmostMatchFailuresPos s) eqn:E1; [lia|].
  destruct (rightmostMatchFailuresPos s <? pos s) eqn:E2; simpl; [|lia].
  apply Nat.ltb_lt in E2. lia.
Qed.

Lemma eval_rightmost_mono n e s s' r :
  eval n e s = Some (s', r) ->
  rightmostMatchFailuresPos s <= rightmostMatchFailuresPos s'.
Proof.
  intros H.
  apply (eval_keeps
           (fun t => rightmostMatchFailuresPos s <= rightmostMatchFailuresPos t)
           (fun _ => True))
    with (n := n) (e := e) (s := s) (r := r); auto.
  intros t f Ht _. etransitivity; [exact Ht|apply matchFailed_rightmost_le].
Qed.

Lemma parse_function_rightmost_mono n name s s' r :
  parse_function n name s = Some (s', r) ->
  rightmostMatchFailuresPos s <= rightmostMatchFailuresPos s'.
Proof.
  intros H.
  apply (parse_function_keeps
           (fun t => rightmostMatchFailuresPos s <= rightmostMatchFailuresPos t)
           (fun _ => True))
    with (n := n) (name := name) (s := s) (r := r); auto.
  intros t f Ht _. etransitivity; [exact Ht|apply matchFailed_rightmost_le].
Qed.

(** With [reportMatchFailures] off, a fragment records no failure. *)
Lemma eval_silent n e s s' r :
  reportMatchFailures s = false ->
  eval n e s = Some (s', r) -> silent s s'.
Proof.
  intros Hoff H.
  apply (eval_keeps (silent s) (fun _ => True))
    with (n := n) (e := e) (s := s) (r := r); unfold silent; simpl; auto.
  - intros t (_ & Ht). auto.
  - intros s0 t (Hs0 & _) (_ & Ht). auto.
  - intros t f (Ht & _) Hon. congruence.
Qed.

(** *** More fuel does not change a result *)

Lemma choice_le ev ev' alts :
  (forall e, frag_le (ev e) (ev' e)) ->
  frag_le (choice_alternatives ev alts) (choice_alternatives ev' alts).
Proof.
  intros Hev. induction alts as [|a alts IH]; intros s x H; simpl in *; auto.
  destruct (ev a s) as [[s1 r1]|] eqn:E; [|discriminate].
  rewrite (Hev _ _ _ E). destruct (is_null r1); auto.
Qed.

Lemma sequence_le ev ev' savedPos elems results :
  (forall e, frag_le (ev e) (ev' e)) ->
  frag_le (sequence_elements ev savedPos elems results)
          (sequence_elements ev' savedPos elems results).
Proof.
  intros Hev. revert results.
  induction elems as [|a elems IH]; intros results s x H; simpl in *; auto.
  destruct (ev a s) as [[s1 r1]|] eqn:E; [|discriminate].
  rewrite (Hev _ _ _ E). destruct (is_null r1); auto. apply IH; auto.
Qed.

Lemma while_le body body' fuel fuel' items s r x :
  frag_le body body' -> fuel <= fuel' ->
  while_loop body fuel items s r = Some x ->
  while_loop body' fuel' items s r = Some x.
Proof.
  intros Hb. revert fuel' items s r.
  induction fuel as [|fuel IH]; intros fuel' items s r Hle H; simpl in H.
  - destruct fuel'; simpl; destruct (is_null r); congruence.
  - destruct fuel' as [|fuel']; [lia|]. simpl.
    destruct (is_null r); auto.
    destruct (body s) as [[s1 r1]|] eqn:E; [|discriminate].
    rewrite (Hb _ _ E). apply IH; auto. lia.
Qed.

Lemma parse_rule_le ev ev' node :
  (forall e, frag_le (ev e) (ev' e)) ->
  frag_le (parse_rule ev node) (parse_rule ev' node).
Proof.
  intros Hev s x H. unfold parse_rule in *.
  destruct (cache s !! _) as [[np res]|]; auto.
  destruct (ev (expression node) _) as [[s1 r1]|] eqn:E; [|discriminate].
  rewrite (Hev _ _ _ E). auto.
Qed.

Lemma call_rule_le ev ev' name :
  (forall e, frag_le (ev e) (ev' e)) ->
  frag_le (call_rule ev name) (call_rule ev' name).
Proof.
  intros Hev s x H. unfold Runtime.call_rule in *.
  destruct (lookup_rule (rules g) name); [|discriminate].
  eapply parse_rule_le; eauto.
Qed.

Lemma eval_S n : forall e, frag_le (eval n e) (eval (S n) e).
Proof.
  induction n as [|n IH]; intros e s x H; [discriminate|].
  destruct e; cbn [Runtime.eval] in *.
  - eapply choice_le; eauto.
  - eapply sequence_le; eauto.
  - apply IH; auto.
  - destruct (eval n e _) as [[s1 r1]|] eqn:E; [|discriminate].
    rewrite (IH _ _ _ E). auto.
  - destruct (eval n e _) as [[s1 r1]|] eqn:E; [|discriminate].
    rewrite (IH _ _ _ E). auto.
  - auto.
  - auto.
  - destruct (eval n e _) as [[s1 r1]|] eqn:E; [|discriminate].
    rewrite (IH _ _ _ E). auto.
  - destruct (eval n e _) as [[s1 r1]|] eqn:E; [|discriminate].
    rewrite (IH _ _ _ E). eapply while_le; [apply IH| |exact H]. lia.
  - destruct (eval n e _) as [[s1 r1]|] eqn:E; [|discriminate].
    rewrite (IH _ _ _ E). destruct (negb (is_null r1)); auto.
    eapply while_le; [apply IH| |exact H]. lia.
  - destruct (eval n e _) as [[s1 r1]|] eqn:E; [|discriminate].
    rewrite (IH _ _ _ E). auto.
  - eapply call_rule_le; eauto.
  - auto.
  - auto.
  - auto.
Qed.

Lemma eval_fuel_le n m e s x :
  n <= m -> eval n e s = Some x -> eval m e s = Some x.
Proof.
  induction 1 as [|m Hle IH]; auto. intros Hn. apply eval_S; auto.
Qed.

(** Two executions of a fragment that complete give the same result. *)
Lemma eval_fuel_det n m e s x y :
  eval n e s = Some x -> eval m e s = Some y -> x = y.
Proof.
  intros Hx Hy.
  destruct (Nat.le_ge_cases n m) as [Hle|Hle].
  - apply (eval_fuel_le _ _ _ _ _ Hle) in Hx. congruence.
  - apply (eval_fuel_le _ _ _ _ _ Hle) in Hy. congruence.
Qed.

Lemma parse_function_fuel_le n m name s x :
  n <= m -> parse_function n name s = Some x ->
  parse_function m name s = Some x.
Proof.
  intros Hle. apply call_rule_le. intros e t y. apply eval_fuel_le; auto.
Qed.

(** *** [reportMatchFailures] is restored by every fragment *)

Lemma matchFailed_flag f s :
  reportMatchFailures (matchFailed f s) = reportMatchFailures s.
Proof.
  unfold matchFailed. destruct (_ <? _); auto. destruct (_ <? _); auto.
Qed.

Lemma report_flag f s :
  reportMatchFailures (report f s) = reportMatchFailures s.
Proof.
  unfold report. destruct (reportMatchFailures s) eqn:E; auto.
  rewrite matchFailed_flag; auto.
Qed.

Lemma choice_restores ev alts :
  (forall e, restores (ev e)) -> restores (choice_alternatives ev alts).
Proof.
  intros Hev. induction alts as [|a alts IH]; intros s s' r H; simpl in H.
  - congruence.
  - destruct (ev a s) as [[s1 r1]|] eqn:E; [|discriminate].
    apply Hev in E. destruct (is_null r1).
    + apply IH in H. congruence.
    + congruence.
Qed.

Lemma sequence_restores ev savedPos elems results :
  (forall e, restores (ev e)) ->
  restores (sequence_elements ev savedPos elems results).
Proof.
  intros Hev. revert results.
  induction elems as [|a elems IH]; intros results s s' r H; simpl in H.
  - congruence.
  - destruct (ev a s) as [[s1 r1]|] eqn:E; [|discriminate].
    apply Hev in E. destruct (is_null r1).
    + inversion H; subst. simpl. auto.
    + apply IH in H. congruence.
Qed.

Lemma while_restores body fuel items s r s' r' :
  restores body ->
  while_loop body fuel items s r = Some (s', r') ->
  reportMatchFailures s' = reportMatchFailures s.
Proof.
  intros Hb. revert items s r.
  induction fuel as [|fuel IH]; intros items s r H; simpl in H.
  - destruct (is_null r); congruence.
  - destruct (is_null r); [congruence|].
    destruct (body s) as [[s1 r1]|] eqn:E; [|discriminate].
    apply Hb in E. apply IH in H. congruence.
Qed.

Lemma parse_rule_restores ev node :
  (forall e, restores (ev e)) -> restores (parse_rule ev node).
Proof.
  intros Hev s s' r H. unfold parse_rule in H.
  destruct (cache s !! _) as [[np res]|].
  - inversion H; subst. auto.
  - destruct (displayName node) as [d|].
    + destruct (ev _ _) as [[s1 r1]|] eqn:E; [|discriminate].
      inversion H; subst; clear H. simpl.
      destruct (_ && _); simpl; auto. rewrite matchFailed_flag. auto.
    + destruct (ev _ _) as [[s1 r1]|] eqn:E; [|discriminate].
      apply Hev in E. inversion H; subst; clear H. simpl. auto.
Qed.

Lemma eval_restores n : forall e, restores (eval n e).
Proof.
  induction n as [|n IH]; intros e s s' r H; [discriminate|].
  destruct e; simpl in H.
  - eapply choice_restores; eauto.
  - eapply sequence_restores; eauto.
  - eapply IH; eauto.
  - destruct (eval n e _) as [[s1 r1]|] eqn:E; [|discriminate].
    destruct (negb (is_null r1)); inversion H; subst; auto.
  - destruct (eval n e _) as [[s1 r1]|] eqn:E; [|discriminate].
    destruct (is_null r1); inversion H; subst; auto.
  - inversion H; subst; auto.
  - inversion H; subst; auto.
  - destruct (eval n e s) as [[s1 r1]|] eqn:E; [|discriminate].
    apply IH in E. inversion H; subst; auto.
  - destruct (eval n e s) as [[s1 r1]|] eqn:E; [|discriminate].
    apply IH in E. eapply while_restores in H; [|apply IH]. congruence.
  - destruct (eval n e s) as [[s1 r1]|] eqn:E; [|discriminate].
    apply IH in E. destruct (negb (is_null r1)).
    + eapply while_restores in H; [|apply IH]. congruence.
    + inversion H; subst; auto.
  - destruct (eval n e s) as [[s1 r1]|] eqn:E; [|discriminate].
    apply IH in E. inversion H; subst; auto.
  - unfold Runtime.call_rule in H.
    destruct (lookup_rule _ _); [|discriminate].
    eapply parse_rule_restores; eauto.
  - destruct (jsstring_eqb _ _); inversion H; subst; auto using report_flag.
  - destruct (_ <? _); inversion H; subst; auto using report_flag.
  - destruct (input !! pos s) as [c|].
    + destruct (class_matches _ _ _); inversion H; subst;
        auto using report_flag.
    + inversion H; subst; auto using report_flag.
Qed.

(** *** Rightmost-failure aggregation *)

(** C5. [matchFailed(f)] has no effect when [pos] is left of
    [rightmostMatchFailuresPos]; when [pos] is right of it, the position is
    set to [pos] and the expected list is emptied before [f] is appended;
    otherwise [f] is appended to the list as it is.  Hence
    [rightmostMatchFailuresPos] never decreases: not in [matchFailed], not
    in any fragment, not in any call of a parse function. *)
Theorem rightmost_failure_aggregation f s :
  (pos s < rightmostMatchFailuresPos s -> matchFailed f s = s)
  /\ (rightmostMatchFailuresPos s < pos s ->
      matchFailed f s
      = State (pos s) (reportMatchFailures s) (pos s) [f] (cache s))
  /\ (pos s = rightmostMatchFailuresPos s ->
      matchFailed f s
      = State (pos s) (reportMatchFailures s) (rightmostMatchFailuresPos s)
              (rightmostMatchFailuresExpected s ++ [f]) (cache s))
  /\ rightmostMatchFailuresPos s <= rightmostMatchFailuresPos (matchFailed f s)
  /\ (forall n e s' r, eval n e s = Some (s', r) ->
      rightmostMatchFailuresPos s <= rightmostMatchFailuresPos s')
  /\ (forall n name s' r, parse_function n name s = Some (s', r) ->
      rightmostMatchFailuresPos s <= rightmostMatchFailuresPos s').
Proof.
  repeat split.
  - intros H. unfold matchFailed.
    apply Nat.ltb_lt in H. rewrite H. reflexivity.
  - intros H. unfold matchFailed.
    assert (H1 : (pos s <? rightmostMatchFailuresPos s) = false)
      by (apply Nat.ltb_ge; lia).
    apply Nat.ltb_lt in H. rewrite H1, H. reflexivity.
  - intros H. unfold matchFailed.
    assert (H1 : (pos s <? rightmostMatchFailuresPos s) = false)
      by (apply Nat.ltb_ge; lia).
    assert (H2 : (rightmostMatchFailuresPos s <? pos s) = false)
      by (apply Nat.ltb_ge; lia).
    rewrite H1, H2. reflexivity.
  - apply matchFailed_rightmost_le.
  - intros n e s' r. apply eval_rightmost_mono.
  - intros n name s' r. apply parse_function_rightmost_mono.
Qed.

(** *** Packrat cache *)

Lemma parse_rule_stores ev node s s' r :
  parse_rule ev node s = Some (s', r) ->
  cache s' !! cacheKey (name node) (pos s) = Some (pos s', r).
Proof.
  unfold parse_rule. intros H.
  destruct (cache s !! _) as [[np res]|] eqn:Hc.
  - inversion H; subst. simpl. exact Hc.
  - destruct (ev _ _) as [[s1 r1]|]; [|discriminate].
    inversion H; subst; clear H. simpl. apply lookup_insert_eq.
Qed.

Lemma parse_rule_hit ev node s np r :
  cache s !! cacheKey (name node) (pos s) = Some (np, r) ->
  parse_rule ev node s = Some (set_pos np s, r).
Proof. unfold parse_rule. intros ->. reflexivity. Qed.

(** *** The entry point *)

(** C3. When the start rule's call completes, [parse] throws
    [SyntaxError] if and only if the result of the start rule is [null] or
    the final [pos] differs from [input.length], and returns the result of
    the start rule otherwise; [parse] completes exactly when the call of the
    start rule does. *)
Theorem parse_syntax_error_iff n startRule :
  (forall r, startRule = Some r -> lookup_rule (rules g) r <> None) ->
  let start := default (Ast.startRule g) startRule in
  (parse_function n start initial_state = None ->
   parse input g run_code n startRule = None)
  /\ forall s result,
       parse_function n start initial_state = Some (s, result) ->
       exists o,
         parse input g run_code n startRule = Some o
         /\ ((exists message line column,
                o = ThrownSyntaxError message line column)
             <-> (result = VNull \/ pos s <> length input))
         /\ (result <> VNull -> pos s = length input -> o = Returned result).
Proof.
  intros Hvalid start.
  assert (Hparse : parse input g run_code n startRule
                   = match parse_function n start initial_state with
                     | None => None
                     | Some (s, result) => Some (finish input s result)
                     end).
  { unfold parse, start. destruct startRule as [r|]; simpl; auto.
    destruct (lookup_rule (rules g) r) eqn:E; auto.
    exfalso. eapply Hvalid; eauto. }
  split.
  - intros H. rewrite Hparse, H. reflexivity.
  - intros s result H. rewrite Hparse, H.
    exists (finish input s result). split; [reflexivity|].
    unfold finish.
    destruct (is_null result) eqn:En; simpl.
    + destruct (computeErrorPosition input s) as [line column].
      assert (result = VNull) by (destruct result; simpl in En; congruence).
      split; [split; eauto|congruence].
    + destruct (pos s =? length input) eqn:Ep; simpl.
      * apply Nat.eqb_eq in Ep. split; [|auto].
        split.
        -- intros (m & l & c & Hm). discriminate.
        -- intros [->|Hne]; [discriminate|congruence].
      * apply Nat.eqb_neq in Ep.
        destruct (computeErrorPosition input s) as [line column].
        split; [split; eauto|congruence].
Qed.

(** *** Display names *)

Lemma matchFailed_failures f s t :
  pos t = pos s ->
  rightmostMatchFailuresPos t = rightmostMatchFailuresPos s ->
  rightmostMatchFailuresExpected t = rightmostMatchFailuresExpected s ->
  rightmostMatchFailuresPos (matchFailed f t)
    = rightmostMatchFailuresPos (matchFailed f s)
  /\ rightmostMatchFailuresExpected (matchFailed f t)
    = rightmostMatchFailuresExpected (matchFailed f s).
Proof.
  intros Hp Hr He. unfold matchFailed. rewrite Hp, Hr, He.
  destruct (_ <? _); auto. destruct (_ <? _); auto.
Qed.

(** C8 (as amended).  A call of the parse function of a rule whose result
    is not in the cache: with a display name [d], the body runs with
    [reportMatchFailures] off, the flag is then restored, and
    [matchFailed(d)] is called exactly when the restored flag is on and the
    result of the body is [null]; the failures recorded after the call are
    those recorded before it, plus [d] in that case.  Without a display
    name the body runs in the state of the call and nothing is done
    between the body and the store into the cache. *)
Theorem display_name_reporting n node s :
  cache s !! cacheKey (name node) (pos s) = None ->
  (forall d s1 result,
     displayName node = Some d ->
     eval n (expression node) (set_reportMatchFailures false s)
       = Some (s1, result) ->
     let s2 := set_reportMatchFailures (reportMatchFailures s) s1 in
     let s3 := if reportMatchFailures s && is_null result
               then matchFailed d s2 else s2 in
     parse_rule (eval n) node s
       = Some (set_cache (<[cacheKey (name node) (pos s) := (pos s3, result)]>
                            (cache s3)) s3, result)
     /\ (rightmostMatchFailuresPos s3, rightmostMatchFailuresExpected s3)
        = if reportMatchFailures s && is_null result
          then (rightmostMatchFailuresPos (matchFailed d (set_pos (pos s1) s)),
                rightmostMatchFailuresExpected
                  (matchFailed d (set_pos (pos s1) s)))
          else (rightmostMatchFailuresPos s, rightmostMatchFailuresExpected s))
  /\ (forall s1 result,
        displayName node = None ->
        eval n (expression node) s = Some (s1, result) ->
        parse_rule (eval n) node s
          = Some (set_cache (<[cacheKey (name node) (pos s) := (pos s1, result)]>
                               (cache s1)) s1, result)).
Proof.
  intros Hmiss. split.
  - intros d s1 result Hd Hbody s2 s3. split.
    + unfold parse_rule. rewrite Hmiss, Hd, Hbody. reflexivity.
    + apply eval_silent in Hbody; [|reflexivity].
      destruct Hbody as (_ & Hp & He). simpl in Hp, He.
      subst s3. destruct (reportMatchFailures s && is_null result).
      * destruct (matchFailed_failures d (set_pos (pos s1) s) s2)
          as [H1 H2]; subst s2; simpl; auto.
        rewrite H1, H2. reflexivity.
      * subst s2. simpl. rewrite Hp, He. reflexivity.
  - intros s1 result Hd Hbody.
    unfold parse_rule. rewrite Hmiss, Hd, Hbody. reflexivity.
Qed.

(** *** Repetition *)

(** A fragment that has completed can be executed again at the same
    position in any later state: everything it called is in the cache, so
    it gives the same result and the same final position, and leaves the
    cache as it is. *)
Lemma choice_mono ev alts :
  (forall e, mono (ev e)) -> mono (choice_alternatives ev alts).
Proof.
  intros Hev s s' r H.
  apply (choice_keeps (fun t => cache s ⊆ cache t) ev alts) in H; auto.
  intros e t t' x Ht Hx. etransitivity; [exact Ht|]. eapply Hev; eauto.
Qed.

Lemma sequence_mono ev savedPos elems results :
  (forall e, mono (ev e)) ->
  mono (sequence_elements ev savedPos elems results).
Proof.
  intros Hev s s' r H.
  apply (sequence_keeps (fun t => cache s ⊆ cache t) (fun _ => True)
           (fun _ _ Ht _ => Ht) ev savedPos elems results) in H; auto.
  intros e t t' x Ht Hx. etransitivity; [exact Ht|]. eapply Hev; eauto.
Qed.

Lemma while_mono body fuel items s r s' r' :
  mono body ->
  while_loop body fuel items s r = Some (s', r') -> cache s ⊆ cache s'.
Proof.
  intros Hb H.
  apply (while_keeps (fun t => cache s ⊆ cache t) body) in H; auto.
  intros t t' x Ht Hx. etransitivity; [exact Ht|]. eapply Hb; eauto.
Qed.

Lemma choice_replayable ev alts :
  (forall e, mono (ev e)) -> (forall e, replayable (ev e)) ->
  replayable (choice_alternatives ev alts).
Proof.
  intros Hm Hev. induction alts as [|a alts IH]; intros s s' r t H Hp Hc;
    simpl in *.
  - inversion H; subst. eauto.
  - destruct (ev a s) as [[s1 r1]|] eqn:E; [|discriminate].
    destruct (is_null r1) eqn:En.
    + pose proof (choice_mono _ _ Hm _ _ _ H) as Hrest.
      destruct (Hev _ _ _ _ t E Hp) as (t1 & Et & Hp1 & Hc1).
      { etransitivity; eauto. }
      rewrite Et, En.
      destruct (IH _ _ _ t1 H Hp1) as (t' & Et' & Hp' & Hc').
      { rewrite Hc1. exact Hc. }
      exists t'. rewrite Hc', Hc1. auto.
    + inversion H; subst.
      destruct (Hev _ _ _ _ t E Hp Hc) as (t1 & Et & Hp1 & Hc1).
      rewrite Et, En. eauto.
Qed.

Lemma sequence_replayable ev savedPos elems results :
  (forall e, mono (ev e)) -> (forall e, replayable (ev e)) ->
  replayable (sequence_elements ev savedPos elems results).
Proof.
  intros Hm Hev. revert results.
  induction elems as [|a elems IH]; intros results s s' r t H Hp Hc;
    simpl in *.
  - inversion H; subst. eauto.
  - destruct (ev a s) as [[s1 r1]|] eqn:E; [|discriminate].
    destruct (is_null r1) eqn:En.
    + inversion H; subst. simpl in Hc.
      destruct (Hev _ _ _ _ t E Hp Hc) as (t1 & Et & Hp1 & Hc1).
      rewrite Et, En. eexists. split; [reflexivity|]. simpl. auto.
    + pose proof (sequence_mono _ _ _ _ Hm _ _ _ H) as Hrest.
      destruct (Hev _ _ _ _ t E Hp) as (t1 & Et & Hp1 & Hc1).
      { etransitivity; eauto. }
      rewrite Et, En.
      destruct (IH _ _ _ _ t1 H Hp1) as (t' & Et' & Hp' & Hc').
      { rewrite Hc1. exact Hc. }
      exists t'. rewrite Hc', Hc1. auto.
Qed.

Lemma while_replayable body fuel items s r s' r' t :
  mono body -> replayable body ->
  while_loop body fuel items s r = Some (s', r') ->
  pos t = pos s -> cache s' ⊆ cache t ->
  exists t', while_loop body fuel items t r = Some (t', r')
             /\ pos t' = pos s' /\ cache t' = cache t.
Proof.
  intros Hm Hb. revert items s r t.
  induction fuel as [|fuel IH]; intros items s r t H Hp Hc; simpl in *.
  - destruct (is_null r); [|discriminate]. inversion H; subst. eauto.
  - destruct (is_null r); [inversion H; subst; eauto|].
    destruct (body s) as [[s1 r1]|] eqn:E; [|discriminate].
    pose proof (while_mono _ _ _ _ _ _ _ Hm H) as Hrest.
    destruct (Hb _ _ _ t E Hp) as (t1 & Et & Hp1 & Hc1).
    { etransitivity; eauto. }
    rewrite Et.
    destruct (IH _ _ _ t1 H Hp1) as (t' & Et' & Hp' & Hc').
    { rewrite Hc1. exact Hc. }
    exists t'. rewrite Hc', Hc1. auto.
Qed.

Lemma parse_rule_replayable ev node : replayable (parse_rule ev node).
Proof.
  intros s s' r t H Hp Hc.
  pose proof (parse_rule_stores _ _ _ _ _ H) as Hstored.
  eapply lookup_weaken in Hstored; [|exact Hc].
  rewrite <- Hp in Hstored.
  rewrite (parse_rule_hit _ _ _ _ _ Hstored). eauto.
Qed.

Lemma eval_mono n e : mono (eval n e).
Proof. intros s s' r. apply eval_cache_mono. Qed.

Lemma eval_replayable n : forall e, replayable (eval n e).
Proof.
  induction n as [|n IH]; intros e s s' r t H Hp Hc; [discriminate|].
  destruct e; cbn [Runtime.eval] in *.
  - eapply choice_replayable; eauto using eval_mono.
  - rewrite Hp. eapply sequence_replayable; eauto using eval_mono.
  - eapply IH; eauto.
  - destruct (eval n e _) as [[s1 r1]|] eqn:E; [|discriminate].
    destruct (IH _ _ _ _ (set_reportMatchFailures false t) E Hp)
      as (t1 & Et & Hp1 & Hc1).
    { destruct (negb (is_null r1)); inversion H; subst; exact Hc. }
    rewrite Et, Hp.
    destruct (negb (is_null r1)); inversion H; subst; simpl;
      eexists; (split; [reflexivity|]); simpl; auto.
  - destruct (eval n e _) as [[s1 r1]|] eqn:E; [|discriminate].
    destruct (IH _ _ _ _ (set_reportMatchFailures false t) E Hp)
      as (t1 & Et & Hp1 & Hc1).
    { destruct (is_null r1); inversion H; subst; exact Hc. }
    rewrite Et, Hp.
    destruct (is_null r1); inversion H; subst; simpl;
      eexists; (split; [reflexivity|]); simpl; auto.
  - inversion H; subst. rewrite Hp. eauto.
  - inversion H; subst. rewrite Hp. eauto.
  - destruct (eval n e s) as [[s1 r1]|] eqn:E; [|discriminate].
    inversion H; subst.
    destruct (IH _ _ _ _ t E Hp Hc) as (t1 & Et & Hp1 & Hc1).
    rewrite Et. eauto.
  - destruct (eval n e s) as [[s1 r1]|] eqn:E; [|discriminate].
    pose proof (while_mono _ _ _ _ _ _ _ (eval_mono n e) H) as Hrest.
    destruct (IH _ _ _ _ t E Hp) as (t1 & Et & Hp1 & Hc1).
    { etransitivity; eauto. }
    rewrite Et.
    destruct (while_replayable _ _ _ _ _ _ _ t1 (eval_mono n e) (IH e) H Hp1)
      as (t' & Et' & Hp' & Hc').
    { rewrite Hc1. exact Hc. }
    exists t'. rewrite Hc', Hc1. auto.
  - destruct (eval n e s) as [[s1 r1]|] eqn:E; [|discriminate].
    destruct (negb (is_null r1)) eqn:En.
    + pose proof (while_mono _ _ _ _ _ _ _ (eval_mono n e) H) as Hrest.
      destruct (IH _ _ _ _ t E Hp) as (t1 & Et & Hp1 & Hc1).
      { etransitivity; eauto. }
      rewrite Et, En.
      destruct (while_replayable _ _ _ _ _ _ _ t1 (eval_mono n e) (IH e) H Hp1)
        as (t' & Et' & Hp' & Hc').
      { rewrite Hc1. exact Hc. }
      exists t'. rewrite Hc', Hc1. auto.
    + inversion H; subst.
      destruct (IH _ _ _ _ t E Hp Hc) as (t1 & Et & Hp1 & Hc1).
      rewrite Et, En. eauto.
  - destruct (eval n e s) as [[s1 r1]|] eqn:E; [|discriminate].
    inversion H; subst.
    destruct (IH _ _ _ _ t E Hp Hc) as (t1 & Et & Hp1 & Hc1).
    rewrite Et, Hp1. eauto.
  - unfold Runtime.call_rule in *.
    destruct (lookup_rule _ _); [|discriminate].
    eapply parse_rule_replayable; eauto.
  - rewrite Hp.
    destruct (jsstring_eqb _ _); inversion H; subst; simpl.
    + eexists. split; [reflexivity|]. simpl. auto.
    + eexists. split; [reflexivity|].
      unfold report. destruct (reportMatchFailures t), (reportMatchFailures s);
        rewrite ?matchFailed_pos, ?matchFailed_cache; auto.
  - rewrite Hp.
    destruct (_ <? _); inversion H; subst; simpl.
    + eexists. split; [reflexivity|]. simpl. auto.
    + eexists. split; [reflexivity|].
      unfold report. destruct (reportMatchFailures t), (reportMatchFailures s);
        rewrite ?matchFailed_pos, ?matchFailed_cache; auto.
  - rewrite Hp.
    destruct (input !! pos s) as [c|];
      [destruct (class_matches _ _ _)|]; inversion H; subst; simpl.
    + eexists. split; [reflexivity|]. simpl. auto.
    + eexists. split; [reflexivity|].
      unfold report. destruct (reportMatchFailures t), (reportMatchFailures s);
        rewrite ?matchFailed_pos, ?matchFailed_cache; auto.
    + eexists. split; [reflexivity|].
      unfold report. destruct (reportMatchFailures t), (reportMatchFailures s);
        rewrite ?matchFailed_pos, ?matchFailed_cache; auto.
Qed.

(** A loop whose body succeeds at the current position without moving
    [pos] finds itself at the same position with the same result after
    every iteration. *)
Lemma while_spins k e s0 s1 v n fuel :
  eval k e s0 = Some (s1, v) -> v <> VNull -> pos s1 = pos s0 ->
  forall items t,
    pos t = pos s0 -> cache s1 ⊆ cache t ->
    while_loop (eval n e) fuel items t v = None.
Proof.
  intros Hk Hv Hp.
  assert (Hnn : is_null v = false) by (destruct v; simpl; congruence).
  induction fuel as [|fuel IH]; intros items t Ht Hc; simpl; rewrite Hnn.
  - reflexivity.
  - destruct (eval n e t) as [[t1 r1]|] eqn:E; [|reflexivity].
    destruct (eval_replayable k e _ _ _ t Hk Ht Hc) as (t' & Et & Hp' & Hc').
    pose proof (eval_fuel_det _ _ _ _ _ _ E Et) as Heq.
    inversion Heq; subst.
    apply IH; [congruence|]. rewrite Hc'. exact Hc.
Qed.

(** Positions stay within a bound that holds for the input, for [pos] and
    for the positions in the cache. *)
Lemma eval_bounded B n e s s' r :
  length input <= B -> bounded B s ->
  eval n e s = Some (s', r) -> bounded B s'.
Proof.
  intros HB Hs H.
  apply (eval_keeps (bounded B) (fun p => p <= B))
    with (n := n) (e := e) (s := s) (r := r); unfold bounded; simpl; auto.
  - intros t [Ht _]. exact Ht.
  - intros t p [_ Ht] Hp. auto.
  - intros p Hp. lia.
  - intros t f [Hp Hc] _. rewrite matchFailed_pos, matchFailed_cache. auto.
  - intros t k np x [_ Hc] Hk. apply (Hc _ _ Hk).
  - intros s0 t k x _ _ [Hp Hc]. split; [exact Hp|].
    apply map_Forall_insert_2; auto.
Qed.

Lemma bound_exists (s : state) :
  exists B, length input <= B /\ bounded B s.
Proof.
  assert (Hc : exists B,
             map_Forall (fun _ (x : nat * value) => fst x <= B) (cache s)).
  { induction (cache s) as [|k x m Hk IH] using map_ind.
    - exists 0. apply map_Forall_empty.
    - destruct IH as [B HB]. exists (Nat.max B (fst x)).
      apply map_Forall_insert_2; [lia|].
      eapply map_Forall_impl; [exact HB|]. simpl. intros; lia. }
  destruct Hc as [B HB].
  exists (Nat.max (length input) (Nat.max (pos s) B)).
  split; [lia|]. split; [lia|].
  eapply map_Forall_impl; [exact HB|]. simpl. intros; lia.
Qed.


(** *** The contract for code fragments *)

Lemma cacheKey_inj n1 p1 n2 p2 :
  cacheKey n1 p1 = cacheKey n2 p2 -> n1 = n2 /\ p1 = p2.
Proof.
  unfold cacheKey. change (js "@") with [64%N]. simpl.
  intros H. apply app_at_inj in H; try apply decimal_no_at.
  destruct H as [-> H]. split; auto. apply to_decimal_inj; auto.
Qed.

Lemma contract_true s s' r :
  contract s s' r = true <->
  if is_null r then pos s' = pos s else pos s <= pos s'.
Proof.
  unfold contract. destruct (is_null r).
  - apply Nat.eqb_eq.
  - apply Nat.leb_le.
Qed.

Lemma matchFailed_contract f s : cache_contract (cache s) ->
  cache_contract (cache (matchFailed f s)).
Proof. rewrite matchFailed_cache. auto. Qed.

Lemma report_contract f s : cache_contract (cache s) ->
  cache_contract (cache (report f s)).
Proof.
  unfold report. destruct (reportMatchFailures s); auto.
  apply matchFailed_contract.
Qed.

Lemma report_pos f s : pos (report f s) = pos s.
Proof.
  unfold report. destruct (reportMatchFailures s); auto.
  apply matchFailed_pos.
Qed.

Lemma choice_contractual ev alts :
  (forall e, contractual (ev e)) -> contractual (choice_alternatives ev alts).
Proof.
  intros Hev. induction alts as [|a alts IH]; intros s s' r Hc H; simpl in H.
  - inversion H; subst. split; auto. apply contract_true. reflexivity.
  - destruct (ev a s) as [[s1 r1]|] eqn:E; [|discriminate].
    destruct (Hev _ _ _ _ Hc E) as [H1 Hc1].
    apply contract_true in H1.
    destruct (is_null r1) eqn:En.
    + destruct (IH _ _ _ Hc1 H) as [H2 Hc2]. split; auto.
      apply contract_true in H2. apply contract_true.
      destruct (is_null r); lia.
    + inversion H; subst. split; auto.
      apply contract_true. rewrite En. exact H1.
Qed.

Lemma sequence_contractual ev savedPos elems results s s' r :
  (forall e, contractual (ev e)) ->
  cache_contract (cache s) -> savedPos <= pos s ->
  sequence_elements ev savedPos elems results s = Some (s', r) ->
  (if is_null r then pos s' = savedPos else savedPos <= pos s')
  /\ cache_contract (cache s').
Proof.
  intros Hev. revert results s.
  induction elems as [|a elems IH]; intros results s Hc Hp H; simpl in H.
  - inversion H; subst. simpl. auto.
  - destruct (ev a s) as [[s1 r1]|] eqn:E; [|discriminate].
    destruct (Hev _ _ _ _ Hc E) as [H1 Hc1].
    apply contract_true in H1.
    destruct (is_null r1) eqn:En.
    + inversion H; subst. simpl. auto.
    + eapply IH; eauto. lia.
Qed.

Lemma while_contractual body fuel items s r s' r' :
  contractual body -> cache_contract (cache s) ->
  while_loop body fuel items s r = Some (s', r') ->
  is_null r' = false /\ pos s <= pos s' /\ cache_contract (cache s').
Proof.
  intros Hb. revert items s r.
  induction fuel as [|fuel IH]; intros items s r Hc H; simpl in H.
  - destruct (is_null r); [|discriminate]. inversion H; subst. auto.
  - destruct (is_null r) eqn:En; [inversion H; subst; auto|].
    destruct (body s) as [[s1 r1]|] eqn:E; [|discriminate].
    destruct (Hb _ _ _ Hc E) as [H1 Hc1].
    apply contract_true in H1.
    destruct (IH _ _ _ Hc1 H) as (Hn & Hp & Hc').
    repeat split; auto.
    destruct (is_null r1); lia.
Qed.

Lemma store_contract (c : gmap jsstring (nat * value)) name p np r :
  cache_contract c ->
  (if is_null r then np = p else p <= np) ->
  cache_contract (<[cacheKey name p := (np, r)]> c).
Proof.
  intros Hc Hnew name' p' np' r' H.
  destruct (decide (cacheKey name p = cacheKey name' p')) as [Heq|Hne].
  - rewrite Heq, lookup_insert_eq in H. inversion H; subst.
    apply cacheKey_inj in Heq as [_ <-]. exact Hnew.
  - rewrite lookup_insert_ne in H by exact Hne. eapply Hc; eauto.
Qed.

Lemma parse_rule_contractual ev node :
  (forall e, contractual (ev e)) -> contractual (parse_rule ev node).
Proof.
  intros Hev s s' r Hc H. unfold parse_rule in H.
  destruct (cache s !! _) as [[np res]|] eqn:Hhit.
  - inversion H; subst. split; [|exact Hc].
    apply contract_true. simpl. eapply Hc; eauto.
  - assert (Hgen : forall s0 s1 s3,
               pos s0 = pos s -> cache s0 = cache s ->
               ev (expression node) s0 = Some (s1, r) ->
               pos s3 = pos s1 -> cache s3 = cache s1 ->
               contract s
                 (set_cache (<[cacheKey (name node) (pos s) := (pos s3, r)]>
                               (cache s3)) s3) r = true
               /\ cache_contract
                    (<[cacheKey (name node) (pos s) := (pos s3, r)]>
                       (cache s3))).
    { intros s0 s1 s3 Hp0 Hc0 E Hp3 Hc3.
      destruct (Hev (expression node) s0 s1 r) as [H1 Hc1]; auto.
      { rewrite Hc0. exact Hc. }
      apply contract_true in H1. rewrite Hp0 in H1.
      split.
      - apply contract_true. simpl. rewrite Hp3. exact H1.
      - apply store_contract; [rewrite Hc3; exact Hc1|].
        rewrite Hp3. exact H1. }
    destruct (displayName node) as [d|].
    + destruct (ev _ _) as [[s1 r1]|] eqn:E; [|discriminate].
      inversion H; subst; clear H.
      match goal with |- context [pos ?x] =>
        match x with
        | (if _ then _ else _) =>
            apply (Hgen (set_reportMatchFailures false s) s1 x);
            auto; destruct (reportMatchFailures s && is_null r);
            rewrite ?matchFailed_pos, ?matchFailed_cache; reflexivity
        end
      end.
    + destruct (ev _ _) as [[s1 r1]|] eqn:E; [|discriminate].
      inversion H; subst; clear H. apply (Hgen s s1 s1); auto.
Qed.

(** When the user's actions never return [null], every fragment meets the
    contract for code fragments: the action that returns [null] is the only
    way the contract is broken. *)
Theorem contract_when_actions_return_values n :
  (forall code p bindings, run_code code p bindings <> VNull) ->
  forall e, contractual (eval n e).
Proof.
  intros Hcode.
  assert (Hnn : forall code p bindings,
             is_null (run_code code p bindings) = false).
  { intros code p b. specialize (Hcode code p b).
    destruct (run_code code p b); simpl; congruence. }
  induction n as [|n IH]; intros e s s' r Hc H; [discriminate|].
  destruct e; cbn [Runtime.eval] in H.
  - eapply choice_contractual; eauto.
  - destruct (sequence_contractual _ _ _ _ _ _ _ IH Hc (Nat.le_refl _) H)
      as [H1 Hc1].
    split; auto. apply contract_true. exact H1.
  - eapply IH; eauto.
  - destruct (eval n e _) as [[s1 r1]|] eqn:E; [|discriminate].
    destruct (IH _ (set_reportMatchFailures false s) _ _ Hc E) as [H1 Hc1].
    apply contract_true in H1. simpl in H1.
    destruct (is_null r1); simpl in H; inversion H; subst;
      (split; [apply contract_true; simpl; auto|exact Hc1]).
  - destruct (eval n e _) as [[s1 r1]|] eqn:E; [|discriminate].
    destruct (IH _ (set_reportMatchFailures false s) _ _ Hc E) as [H1 Hc1].
    apply contract_true in H1. simpl in H1.
    destruct (is_null r1); simpl in H; inversion H; subst;
      (split; [apply contract_true; simpl; auto; lia|exact Hc1]).
  - inversion H; subst. split; auto. apply contract_true.
    destruct (truthy _); simpl; auto.
  - inversion H; subst. split; auto. apply contract_true.
    destruct (truthy _); simpl; auto.
  - destruct (eval n e s) as [[s1 r1]|] eqn:E; [|discriminate].
    destruct (IH _ _ _ _ Hc E) as [H1 Hc1]. apply contract_true in H1.
    inversion H; subst. split; auto. apply contract_true.
    destruct (is_null r1) eqn:En; simpl; [lia|]. rewrite En. exact H1.
  - destruct (eval n e s) as [[s1 r1]|] eqn:E; [|discriminate].
    destruct (IH _ _ _ _ Hc E) as [H1 Hc1]. apply contract_true in H1.
    destruct (while_contractual _ _ _ _ _ _ _ (IH e) Hc1 H)
      as (Hn & Hp & Hc').
    split; auto. apply contract_true. rewrite Hn.
    destruct (is_null r1); lia.
  - destruct (eval n e s) as [[s1 r1]|] eqn:E; [|discriminate].
    destruct (IH _ _ _ _ Hc E) as [H1 Hc1]. apply contract_true in H1.
    destruct (is_null r1) eqn:En; simpl in H.
    + inversion H; subst. split; auto. apply contract_true. exact H1.
    + destruct (while_contractual _ _ _ _ _ _ _ (IH e) Hc1 H)
        as (Hn & Hp & Hc').
      split; auto. apply contract_true. rewrite Hn. lia.
  - destruct (eval n e s) as [[s1 r1]|] eqn:E; [|discriminate].
    destruct (IH _ _ _ _ Hc E) as [H1 Hc1]. apply contract_true in H1.
    inversion H; subst. split; auto. apply contract_true.
    destruct (is_null r1) eqn:En; simpl; [exact H1|].
    rewrite Hnn. exact H1.
  - unfold Runtime.call_rule in H.
    destruct (lookup_rule _ _); [|discriminate].
    eapply parse_rule_contractual; eauto.
  - destruct (jsstring_eqb _ _); inversion H; subst.
    + split; auto. apply contract_true. simpl. lia.
    + split; [|apply report_contract; auto].
      apply contract_true. simpl. apply report_pos.
  - destruct (_ <? _); inversion H; subst.
    + split; auto. apply contract_true. simpl. lia.
    + split; [|apply report_contract; auto].
      apply contract_true. simpl. apply report_pos.
  - destruct (input !! pos s) as [c|];
      [destruct (class_matches _ _ _)|]; inversion H; subst.
    + split; auto. apply contract_true. simpl. lia.
    + split; [|apply report_contract; auto].
      apply contract_true. simpl. apply report_pos.
    + split; [|apply report_contract; auto].
      apply contract_true. simpl. apply report_pos.
Qed.

(** *** The store at the end of a parse function never replaces an entry

    A parse function stores its result under a key that was absent when it
    was entered.  The key is still absent when the store is made: the body
    of the function would have to call the same function at the same
    position, and that call, executing the same body in the same way, would
    never return. *)
Section NoOverwrite.

(** The rules are listed under their names. *)
Hypothesis Hnamed :
  forall k node, lookup_rule (rules g) k = Some node -> name node = k.

Local Abbreviation first_store_in :=
  (Runtime.first_store_in input g run_code).
Local Abbreviation first_store_found :=
  (Runtime.first_store_found input g run_code).
Local Abbreviation store_fresh := (Runtime.store_fresh input g run_code).

Lemma present_weaken (c c' : gmap jsstring (nat * value)) k :
  c ⊆ c' -> c !! k <> None -> c' !! k <> None.
Proof.
  intros Hs H. destruct (c !! k) as [x|] eqn:E; [|congruence].
  rewrite (lookup_weaken _ _ _ _ E Hs). discriminate.
Qed.

Lemma absent_weaken (c c' : gmap jsstring (nat * value)) k :
  c ⊆ c' -> c' !! k = None -> c !! k = None.
Proof.
  intros Hs H. destruct (c !! k) as [x|] eqn:E; [|reflexivity].
  rewrite (lookup_weaken _ _ _ _ E Hs) in H. discriminate.
Qed.

Ltac same_first_store :=
  match goal with
  | Hl : lookup_rule _ (name ?node) = Some ?node,
    Hk : cacheKey (name ?node) (pos ?tN) = _,
    Hp0 : pos ?tN0 = pos ?tN, Hc0 : cache ?tN0 = cache ?tN,
    Hb : eval ?m (expression ?node) ?tN0 = Some ?x,
    Hclean : cache (fst ?x) !! _ = None |- first_store_in _ _ _ _ =>
      exists tN, tN0, node, m, x;
      refine (conj Hl (conj Hk (conj _ (conj _ (conj Hp0 (conj Hc0
                (conj Hb (conj Hclean _))))))))
  end.

Lemma first_store_gives_fresh n : first_store_found n -> store_fresh n.
Proof.
  intros HFS node s0 s1 r Hl Hb Habs.
  destruct (cache s1 !! cacheKey (name node) (pos s0)) as [x|] eqn:E;
    [|reflexivity].
  exfalso.
  destruct (HFS _ _ _ _ _ Hb Habs ltac:(rewrite E; discriminate))
    as (tN & tN0 & nodeN & m & y & HlN & Hk & _ & _ & Hp0 & Hc0 & HbN
        & Hclean & Hreplay).
  apply cacheKey_inj in Hk as [Hname Hpos].
  assert (nodeN = node) by congruence. subst nodeN.
  apply (Hreplay m tN0 y); auto. congruence.
Qed.

Lemma choice_first_store n k alts s s' r :
  first_store_found n ->
  choice_alternatives (eval n) alts s = Some (s', r) ->
  cache s !! k = None -> cache s' !! k <> None ->
  first_store_in k (fun m => choice_alternatives (eval m) alts) s s'.
Proof.
  intros HFS. revert s.
  induction alts as [|a alts IH]; intros s H Habs Hpres; simpl in H.
  - inversion H; subst. contradiction.
  - destruct (eval n a s) as [[s1 r1]|] eqn:E; [|discriminate].
    assert (Hrest : cache s1 ⊆ cache s').
    { destruct (is_null r1).
      - eapply choice_mono; [|exact H]. intros e. apply eval_mono.
      - inversion H; subst. reflexivity. }
    destruct (cache s1 !! k) as [x1|] eqn:E1.
    + destruct (HFS _ _ _ _ _ E Habs ltac:(rewrite E1; discriminate))
        as (tN & tN0 & node & m & x & Hl & Hk & Hs & Hs' & Hp0 & Hc0 & Hb
            & Hclean & Hreplay).
      same_first_store; [exact Hs|etransitivity; eauto|].
      intros m' t [ty ry] Hpt Hct Hy; simpl. simpl in Hy.
      destruct (eval m' a t) as [[t1 r1']|] eqn:Et; [|discriminate].
      pose proof (Hreplay _ _ _ Hpt Hct Et) as Hd. simpl in Hd.
      destruct (is_null r1').
      * eapply present_weaken; [|exact Hd].
        eapply (choice_mono (eval m')); [|exact Hy]. intros e. apply eval_mono.
      * inversion Hy; subst. exact Hd.
    + destruct (is_null r1) eqn:En.
      2:{ inversion H; subst. congruence. }
      destruct (IH _ H E1 Hpres)
        as (tN & tN0 & node & m & x & Hl & Hk & Hs & Hs' & Hp0 & Hc0 & Hb
            & Hclean & Hreplay).
      same_first_store;
        [etransitivity; [|exact Hs]; eapply eval_mono; eauto|exact Hs'|].
      intros m' t [ty ry] Hpt Hct Hy; simpl. simpl in Hy.
      destruct (eval m' a t) as [[t1 r1']|] eqn:Et; [|discriminate].
      destruct (eval_replayable n a _ _ _ t E Hpt)
        as (t1' & Et' & Hp1 & Hc1).
      { rewrite Hct. exact Hs. }
      pose proof (eval_fuel_det _ _ _ _ _ _ Et Et') as Heq.
      inversion Heq; subst. rewrite En in Hy.
      eapply (Hreplay _ _ (ty, ry)); [| |exact Hy]; congruence.
Qed.

Lemma sequence_first_store n k savedPos elems results s s' r :
  first_store_found n ->
  sequence_elements (eval n) savedPos elems results s = Some (s', r) ->
  cache s !! k = None -> cache s' !! k <> None ->
  first_store_in k
    (fun a => sequence_elements (eval (fst a)) savedPos elems (snd a)) s s'.
Proof.
  intros HFS. revert results s.
  induction elems as [|a elems IH]; intros results s H Habs Hpres;
    simpl in H.
  - inversion H; subst. contradiction.
  - destruct (eval n a s) as [[s1 r1]|] eqn:E; [|discriminate].
    assert (Hrest : cache s1 ⊆ cache s').
    { destruct (is_null r1).
      - inversion H; subst. reflexivity.
      - eapply sequence_mono; [|exact H]. intros e. apply eval_mono. }
    destruct (cache s1 !! k) as [x1|] eqn:E1.
    + destruct (HFS _ _ _ _ _ E Habs ltac:(rewrite E1; discriminate))
        as (tN & tN0 & node & m & x & Hl & Hk & Hs & Hs' & Hp0 & Hc0 & Hb
            & Hclean & Hreplay).
      same_first_store; [exact Hs|etransitivity; eauto|].
      intros [m' res'] t [ty ry] Hpt Hct Hy; simpl. simpl in Hy.
      destruct (eval m' a t) as [[t1 r1']|] eqn:Et; [|discriminate].
      pose proof (Hreplay _ _ _ Hpt Hct Et) as Hd. simpl in Hd.
      destruct (is_null r1').
      * inversion Hy; subst. exact Hd.
      * eapply present_weaken; [|exact Hd].
        eapply (sequence_mono (eval m')); [|exact Hy].
        intros e. apply eval_mono.
    + destruct (is_null r1) eqn:En.
      { inversion H; subst. simpl in Hpres. congruence. }
      destruct (IH _ _ H E1 Hpres)
        as (tN & tN0 & node & m & x & Hl & Hk & Hs & Hs' & Hp0 & Hc0 & Hb
            & Hclean & Hreplay).
      same_first_store;
        [etransitivity; [|exact Hs]; eapply eval_mono; eauto|exact Hs'|].
      intros [m' res'] t [ty ry] Hpt Hct Hy; simpl. simpl in Hy.
      destruct (eval m' a t) as [[t1 r1']|] eqn:Et; [|discriminate].
      destruct (eval_replayable n a _ _ _ t E Hpt)
        as (t1' & Et' & Hp1 & Hc1).
      { rewrite Hct. exact Hs. }
      pose proof (eval_fuel_det _ _ _ _ _ _ Et Et') as Heq.
      inversion Heq; subst. rewrite En in Hy.
      eapply (Hreplay (m', res' ++ [r1]) _ (ty, ry)); [| |exact Hy]; congruence.
Qed.

Lemma while_first_store n k e fuel items s r s' r' :
  first_store_found n ->
  while_loop (eval n e) fuel items s r = Some (s', r') ->
  cache s !! k = None -> cache s' !! k <> None ->
  first_store_in k
    (fun a : nat * nat * list value =>
       let '(m, f, it) := a in fun t => while_loop (eval m e) f it t r)
    s s'.
Proof.
  intros HFS. revert items s r.
  induction fuel as [|fuel IH]; intros items s r H Habs Hpres; simpl in H.
  - destruct (is_null r); [|discriminate]. inversion H; subst. contradiction.
  - destruct (is_null r) eqn:Enr; [inversion H; subst; contradiction|].
    destruct (eval n e s) as [[s1 r1]|] eqn:E; [|discriminate].
    assert (Hrest : cache s1 ⊆ cache s').
    { eapply while_mono; [|exact H]. apply eval_mono. }
    destruct (cache s1 !! k) as [x1|] eqn:E1.
    + destruct (HFS _ _ _ _ _ E Habs ltac:(rewrite E1; discriminate))
        as (tN & tN0 & node & m & x & Hl & Hk & Hs & Hs' & Hp0 & Hc0 & Hb
            & Hclean & Hreplay).
      same_first_store; [exact Hs|etransitivity; eauto|].
      intros [[m' f'] it'] t [ty ry] Hpt Hct Hy; simpl.
      destruct f' as [|f']; simpl in Hy; rewrite Enr in Hy; [discriminate|].
      destruct (eval m' e t) as [[t1 r1']|] eqn:Et; [|discriminate].
      pose proof (Hreplay _ _ _ Hpt Hct Et) as Hd. simpl in Hd.
      eapply present_weaken; [|exact Hd].
      eapply while_mono; [|exact Hy]. apply eval_mono.
    + destruct (IH _ _ _ H E1 Hpres)
        as (tN & tN0 & node & m & x & Hl & Hk & Hs & Hs' & Hp0 & Hc0 & Hb
            & Hclean & Hreplay).
      same_first_store;
        [etransitivity; [|exact Hs]; eapply eval_mono; eauto|exact Hs'|].
      intros [[m' f'] it'] t [ty ry] Hpt Hct Hy; simpl.
      destruct f' as [|f']; simpl in Hy; rewrite Enr in Hy; [discriminate|].
      destruct (eval m' e t) as [[t1 r1']|] eqn:Et; [|discriminate].
      destruct (eval_replayable n e _ _ _ t E Hpt)
        as (t1' & Et' & Hp1 & Hc1).
      { rewrite Hct. exact Hs. }
      pose proof (eval_fuel_det _ _ _ _ _ _ Et Et') as Heq.
      inversion Heq; subst.
      eapply (Hreplay (m', f', it' ++ [r]) _ (ty, ry)); [| |exact Hy]; congruence.
Qed.

Lemma first_store_transport {A B} k (F : A -> fragment) (G : B -> fragment)
    s1 s1' s s' :
  first_store_in k F s1 s1' ->
  pos s = pos s1 -> cache s ⊆ cache s1 -> cache s1' ⊆ cache s' ->
  (forall b t y,
     pos t = pos s -> cache t ⊆ cache s1' -> G b t = Some y ->
     exists a t0 y0,
       pos t0 = pos t /\ cache t0 = cache t /\ F a t0 = Some y0
       /\ (cache (fst y0) !! k <> None -> cache (fst y) !! k <> None)) ->
  first_store_in k G s s'.
Proof.
  intros (tN & tN0 & node & m & x & Hl & Hk & Hs & Hs' & Hp0 & Hc0 & Hb
          & Hclean & Hreplay) Hp Hc Hc' HG.
  same_first_store.
  - etransitivity; eauto.
  - etransitivity; eauto.
  - intros b t y Hpt Hct Hy.
    destruct (HG b t y Hpt ltac:(rewrite Hct; exact Hs') Hy)
      as (a & t0 & y0 & Hp0' & Hc0' & Hy0 & Himp).
    apply Himp. eapply Hreplay; [| |exact Hy0]; congruence.
Qed.

Lemma first_store_after {A B} n e k (F : A -> fragment) (G : B -> fragment)
    s s1 r1 s' :
  eval n e s = Some (s1, r1) ->
  first_store_in k F s1 s' ->
  (forall b t y,
     pos t = pos s -> G b t = Some y ->
     exists m t1 r1' a,
       eval m e t = Some (t1, r1') /\ (r1' = r1 -> F a t1 = Some y)) ->
  first_store_in k G s s'.
Proof.
  intros E (tN & tN0 & node & m & x & Hl & Hk & Hs & Hs' & Hp0 & Hc0 & Hb
            & Hclean & Hreplay) HG.
  same_first_store.
  - etransitivity; [|exact Hs]. eapply eval_mono; eauto.
  - exact Hs'.
  - intros b t y Hpt Hct Hy.
    destruct (HG b t y Hpt Hy) as (m' & t1 & r1' & a & Et & HF).
    destruct (eval_replayable n e _ _ _ t E Hpt)
      as (t1' & Et' & Hp1 & Hc1).
    { rewrite Hct. exact Hs. }
    pose proof (eval_fuel_det _ _ _ _ _ _ Et Et') as Heq.
    inversion Heq; subst.
    eapply Hreplay; [| |apply HF; reflexivity]; congruence.
Qed.

Lemma present_insert (c : gmap jsstring (nat * value)) k k' v :
  c !! k <> None -> <[k' := v]> c !! k <> None.
Proof.
  intros H. destruct (decide (k' = k)) as [->|Hne].
  - rewrite lookup_insert_eq. discriminate.
  - rewrite lookup_insert_ne by exact Hne. exact H.
Qed.

Lemma parse_rule_miss ev node s s' r :
  cache s !! cacheKey (name node) (pos s) = None ->
  parse_rule ev node s = Some (s', r) ->
  exists s0 s1 v,
    pos s0 = pos s /\ cache s0 = cache s
    /\ ev (expression node) s0 = Some (s1, r)
    /\ cache s' = <[cacheKey (name node) (pos s) := v]> (cache s1).
Proof.
  intros Hmiss H. unfold parse_rule in H. rewrite Hmiss in H.
  destruct (displayName node) as [d|].
  - destruct (ev _ _) as [[s1 r1]|] eqn:E; [|discriminate].
    inversion H; subst; clear H.
    exists (set_reportMatchFailures false s), s1. simpl.
    destruct (reportMatchFailures s && is_null r);
      eexists; repeat split; eauto; simpl;
      rewrite ?matchFailed_cache; reflexivity.
  - destruct (ev _ _) as [[s1 r1]|] eqn:E; [|discriminate].
    inversion H; subst; clear H.
    exists s, s1. eexists. repeat split; eauto.
Qed.

Lemma first_store_step n : first_store_found n -> store_fresh n -> first_store_found (S n).
Proof.
  intros HFS HNO k e s s' r H Habs Hpres.
  destruct e as [alts|elems|lbl e|e|e|code|code|e|e|e|e code|R|v| |parts inv raw];
    cbn [Runtime.eval] in H.
  - (* choice *)
    eapply first_store_transport;
      [eapply choice_first_store; eauto|reflexivity..|].
    intros [|m'] t y Hpt _ Hy; [discriminate|]. cbn [Runtime.eval] in Hy.
    exists m', t, y. auto.
  - (* sequence *)
    eapply first_store_transport;
      [eapply sequence_first_store; eauto|reflexivity..|].
    intros [|m'] t y Hpt _ Hy; [discriminate|]. cbn [Runtime.eval] in Hy.
    exists (m', []), t, y. simpl. rewrite <- Hpt. auto.
  - (* labeled *)
    eapply first_store_transport; [eapply HFS; eauto|reflexivity..|].
    intros [|m'] t y Hpt _ Hy; [discriminate|]. cbn [Runtime.eval] in Hy.
    exists m', t, y. auto.
  - (* simple_and *)
    destruct (eval n e _) as [[s1 r1]|] eqn:E; [|discriminate].
    assert (Hc' : cache s' = cache s1)
      by (destruct (negb (is_null r1)); inversion H; subst; reflexivity).
    eapply first_store_transport;
      [eapply (HFS k _ _ _ _ E); simpl; auto; rewrite <- Hc'; auto
      |reflexivity|reflexivity|rewrite Hc'; reflexivity|].
    intros [|m'] t y Hpt _ Hy; [discriminate|]. cbn [Runtime.eval] in Hy.
    destruct (eval m' e _) as [[t1 r1']|] eqn:Et; [|discriminate].
    exists m', (set_reportMatchFailures false t), (t1, r1').
    repeat split; auto.
    destruct (negb (is_null r1')); inversion Hy; subst; simpl; auto.
  - (* simple_not *)
    destruct (eval n e _) as [[s1 r1]|] eqn:E; [|discriminate].
    assert (Hc' : cache s' = cache s1)
      by (destruct (is_null r1); inversion H; subst; reflexivity).
    eapply first_store_transport;
      [eapply (HFS k _ _ _ _ E); simpl; auto; rewrite <- Hc'; auto
      |reflexivity|reflexivity|rewrite Hc'; reflexivity|].
    intros [|m'] t y Hpt _ Hy; [discriminate|]. cbn [Runtime.eval] in Hy.
    destruct (eval m' e _) as [[t1 r1']|] eqn:Et; [|discriminate].
    exists m', (set_reportMatchFailures false t), (t1, r1').
    repeat split; auto.
    destruct (is_null r1'); inversion Hy; subst; simpl; auto.
  - inversion H; subst. contradiction.
  - inversion H; subst. contradiction.
  - (* optional *)
    destruct (eval n e s) as [[s1 r1]|] eqn:E; [|discriminate].
    inversion H; subst.
    eapply first_store_transport; [eapply HFS; eauto|reflexivity..|].
    intros [|m'] t y Hpt _ Hy; [discriminate|]. cbn [Runtime.eval] in Hy.
    destruct (eval m' e t) as [[t1 r1']|] eqn:Et; [|discriminate].
    exists m', t, (t1, r1'). inversion Hy; subst. auto.
  - (* zero_or_more *)
    destruct (eval n e s) as [[s1 r1]|] eqn:E; [|discriminate].
    destruct (cache s1 !! k) as [x1|] eqn:E1.
    + eapply first_store_transport;
        [eapply (HFS k _ _ _ _ E); auto; rewrite E1; discriminate
        |reflexivity|reflexivity
        |eapply while_mono; [|exact H]; apply eval_mono|].
      intros [|m'] t y Hpt _ Hy; [discriminate|]. cbn [Runtime.eval] in Hy.
      destruct (eval m' e t) as [[t1 r1']|] eqn:Et; [|discriminate].
      exists m', t, (t1, r1'). repeat split; auto. simpl.
      apply present_weaken. destruct y as [ty ry].
      eapply while_mono; [|exact Hy]. apply eval_mono.
    + eapply (first_store_after n e); [exact E| |].
      * eapply while_first_store; eauto.
      * intros [|m'] t y Hpt Hy; [discriminate|]. cbn [Runtime.eval] in Hy.
        destruct (eval m' e t) as [[t1 r1']|] eqn:Et; [|discriminate].
        exists m', t1, r1', (m', m', []). split; auto.
        intros ->. exact Hy.
  - (* one_or_more *)
    destruct (eval n e s) as [[s1 r1]|] eqn:E; [|discriminate].
    destruct (cache s1 !! k) as [x1|] eqn:E1.
    + eapply first_store_transport;
        [eapply (HFS k _ _ _ _ E); auto; rewrite E1; discriminate
        |reflexivity|reflexivity| |].
      { destruct (negb (is_null r1)).
        - eapply while_mono; [|exact H]. apply eval_mono.
        - inversion H; subst. reflexivity. }
      intros [|m'] t y Hpt _ Hy; [discriminate|]. cbn [Runtime.eval] in Hy.
      destruct (eval m' e t) as [[t1 r1']|] eqn:Et; [|discriminate].
      exists m', t, (t1, r1'). repeat split; auto. simpl.
      apply present_weaken. destruct y as [ty ry].
      destruct (negb (is_null r1')).
      * eapply while_mono; [|exact Hy]. apply eval_mono.
      * inversion Hy; subst. reflexivity.
    + destruct (negb (is_null r1)) eqn:En.
      2:{ inversion H; subst. congruence. }
      eapply (first_store_after n e); [exact E| |].
      * eapply while_first_store; eauto.
      * intros [|m'] t y Hpt Hy; [discriminate|]. cbn [Runtime.eval] in Hy.
        destruct (eval m' e t) as [[t1 r1']|] eqn:Et; [|discriminate].
        exists m', t1, r1', (m', m', []). split; auto.
        intros ->. rewrite En in Hy. exact Hy.
  - (* action *)
    destruct (eval n e s) as [[s1 r1]|] eqn:E; [|discriminate].
    inversion H; subst.
    eapply first_store_transport; [eapply HFS; eauto|reflexivity..|].
    intros [|m'] t y Hpt _ Hy; [discriminate|]. cbn [Runtime.eval] in Hy.
    destruct (eval m' e t) as [[t1 r1']|] eqn:Et; [|discriminate].
    exists m', t, (t1, r1'). inversion Hy; subst. auto.
  - (* rule_ref *)
    unfold Runtime.call_rule in H.
    destruct (lookup_rule (rules g) R) as [node|] eqn:Hl; [|discriminate].
    assert (Hl' : lookup_rule (rules g) (name node) = Some node)
      by (rewrite (Hnamed _ _ Hl); exact Hl).
    assert (Hss' : cache s ⊆ cache s').
    { eapply (parse_function_cache_mono n R).
      unfold Runtime.parse_function, Runtime.call_rule. rewrite Hl. exact H. }
    destruct (cache s !! cacheKey (name node) (pos s))
      as [[np res]|] eqn:Hhit.
    { unfold parse_rule in H. rewrite Hhit in H.
      inversion H; subst. contradiction. }
    destruct (parse_rule_miss _ _ _ _ _ Hhit H)
      as (s0 & s1 & v & Hp0 & Hc0 & E & Hc').
    assert (Hfresh : cache s1 !! cacheKey (name node) (pos s) = None).
    { rewrite <- Hp0. eapply HNO; eauto. rewrite Hp0, Hc0. exact Hhit. }
    destruct (cache s1 !! k) as [x1|] eqn:E1.
    + (* the key was stored inside the body *)
      eapply first_store_transport;
        [eapply (HFS k _ _ _ _ E);
           [rewrite Hc0; exact Habs|rewrite E1; discriminate]
        |symmetry; exact Hp0|rewrite Hc0; reflexivity
        |rewrite Hc'; apply insert_subseteq; exact Hfresh|].
      intros [|m'] t y Hpt Hct Hy; [discriminate|]. cbn [Runtime.eval] in Hy.
      unfold Runtime.call_rule in Hy. rewrite Hl in Hy.
      destruct y as [ty ry].
      assert (Hmiss : cache t !! cacheKey (name node) (pos t) = None)
        by (rewrite Hpt; exact (absent_weaken _ _ _ Hct Hfresh)).
      destruct (parse_rule_miss _ _ _ _ _ Hmiss Hy)
        as (t0 & t1 & v' & Hpt0 & Hct0 & Et & Hcy).
      exists m', t0, (t1, ry). repeat split; auto.
      simpl. intros Hd. rewrite Hcy. apply present_insert. exact Hd.
    + (* this call makes the first store *)
      assert (Hkey : cacheKey (name node) (pos s) = k).
      { destruct (decide (cacheKey (name node) (pos s) = k)); auto.
        exfalso. apply Hpres. rewrite Hc', lookup_insert_ne; auto. }
      exists s, s0, node, n, (s1, r).
      refine (conj Hl' (conj Hkey (conj _ (conj Hss' (conj Hp0 (conj Hc0
                (conj E (conj E1 _)))))))); [reflexivity|].
      intros [|m'] t [ty ry] Hpt Hct Hy; [discriminate|].
      cbn [Runtime.eval] in Hy.
      unfold Runtime.call_rule in Hy. rewrite Hl in Hy.
      assert (Hmiss : cache t !! cacheKey (name node) (pos t) = None)
        by (rewrite Hpt, Hct; exact Hhit).
      destruct (parse_rule_miss _ _ _ _ _ Hmiss Hy)
        as (t0 & t1 & v' & Hpt0 & Hct0 & Et & Hcy).
      simpl. rewrite Hcy, Hpt, Hkey, lookup_insert_eq. discriminate.
  - destruct (jsstring_eqb _ _); inversion H; subst; simpl in Hpres;
      [contradiction|].
    unfold report in Hpres. destruct (reportMatchFailures s);
      rewrite ?matchFailed_cache in Hpres; contradiction.
  - destruct (_ <? _); inversion H; subst; simpl in Hpres;
      [contradiction|].
    unfold report in Hpres. destruct (reportMatchFailures s);
      rewrite ?matchFailed_cache in Hpres; contradiction.
  - destruct (input !! pos s) as [c|];
      [destruct (class_matches _ _ _)|]; inversion H; subst;
      simpl in Hpres; try contradiction;
      unfold report in Hpres; destruct (reportMatchFailures s);
        rewrite ?matchFailed_cache in Hpres; contradiction.
Qed.

Lemma first_store_all n : first_store_found n /\ store_fresh n.
Proof.
  induction n as [|n [HFS HNO]].
  - assert (H0 : first_store_found 0) by (intros k e s s' r H; discriminate).
    split; [exact H0|apply first_store_gives_fresh; exact H0].
  - assert (HS : first_store_found (S n)) by (apply first_store_step; assumption).
    split; [exact HS|apply first_store_gives_fresh; exact HS].
Qed.

(** When the parse function of a rule of the grammar stores its result,
    no entry is in the cache under its key. *)
Theorem store_is_fresh n node s s1 r :
  lookup_rule (rules g) (name node) = Some node ->
  cache s !! cacheKey (name node) (pos s) = None ->
  eval n (expression node)
       (match displayName node with
        | Some _ => set_reportMatchFailures false s
        | None => s
        end) = Some (s1, r) ->
  cache s1 !! cacheKey (name node) (pos s) = None.
Proof.
  intros Hl Hmiss Hb.
  destruct (first_store_all n) as [_ HNO].
  assert (Hp : pos (match displayName node with
                    | Some _ => set_reportMatchFailures false s
                    | None => s
                    end) = pos s) by (destruct (displayName node); auto).
  rewrite <- Hp. eapply HNO; eauto.
  rewrite Hp. destruct (displayName node); exact Hmiss.
Qed.

End NoOverwrite.

End Facts.

End RuntimeFacts.

(** ** The emitter: what depends on the enumeration order of the rules *)

Module EmitterFacts.
Import Emitter.

Lemma js_leb_total a b : js_leb a b = true \/ js_leb b a = true.
Proof.
  revert b. induction a as [|x a IH]; intros [|y b]; simpl; auto.
  destruct (N.ltb_spec x y), (N.ltb_spec y x); auto; lia.
Qed.

Lemma js_leb_trans a b c :
  js_leb a b = true -> js_leb b c = true -> js_leb a c = true.
Proof.
  revert b c. induction a as [|x a IH]; intros [|y b] [|z c]; simpl; auto;
    try discriminate.
  destruct (N.ltb_spec x y), (N.ltb_spec y x), (N.ltb_spec y z),
    (N.ltb_spec z y), (N.ltb_spec x z), (N.ltb_spec z x);
    try discriminate; try lia; eauto.
Qed.

Lemma js_leb_antisym a b :
  js_leb a b = true -> js_leb b a = true -> a = b.
Proof.
  revert b. induction a as [|x a IH]; intros [|y b]; simpl; auto;
    try discriminate.
  destruct (N.ltb_spec x y), (N.ltb_spec y x); try discriminate; try lia.
  intros H1 H2. f_equal; [lia|auto].
Qed.

#[local] Instance js_le_total : Total js_le.
Proof. intros a b. apply js_leb_total. Qed.

#[local] Instance js_le_trans : Transitive js_le.
Proof. intros a b c. apply js_leb_trans. Qed.

#[local] Instance js_le_antisym : AntiSymm (=) js_le.
Proof. intros a b. apply js_leb_antisym. Qed.







End EmitterFacts.

(** ** The scenarios of the specification *)

Module Scenarios.
Import Runtime Samples.

(** [start = "abc"] on ["abc"]. *)
Example single_literal :
  parse (js "abc") abc_grammar returns_null 1 None
  = Some (Returned (VStr (js "abc"))).
Proof. reflexivity. Qed.

(** [start = "a" / "ab"] on ["ab"]: the first alternative wins and the
    rest of the input is not consumed. *)
Example ordered_choice :
  exists message line column,
    parse (js "ab")
          (Grammar None (js "start")
             [(js "start",
               Rule (js "start") None
                    (Choice [Literal (js "a"); Literal (js "ab")]))])
          returns_null 2 None
    = Some (ThrownSyntaxError message line column).
Proof. do 3 eexists. reflexivity. Qed.

(** [start = "a"*] on [""] and on ["aaa"]. *)
Example repetition :
  let g := Grammar None (js "start")
             [(js "start",
               Rule (js "start") None (ZeroOrMore (Literal (js "a"))))] in
  parse [] g returns_null 2 None = Some (Returned (VArr []))
  /\ parse (js "aaa") g returns_null 4 None
     = Some (Returned (VArr [VStr (js "a"); VStr (js "a"); VStr (js "a")])).
Proof. split; reflexivity. Qed.

(** [start = [a-z]+] on ["abc"] and on ["A"]: the message names the raw
    text of the class. *)
Example class_with_range :
  let g := Grammar None (js "start")
             [(js "start",
               Rule (js "start") None
                    (OneOrMore (Class [RangePart 97%N 122%N] false
                                      (js "[a-z]"))))] in
  parse (js "abc") g returns_null 4 None
    = Some (Returned (VArr [VStr (js "a"); VStr (js "b"); VStr (js "c")]))
  /\ parse (js "A") g returns_null 4 None
     = Some (ThrownSyntaxError
               (js "Expected [a-z] but " ++ dq ++ js "A" ++ dq ++ js " found.")
               1 1).
Proof. split; reflexivity. Qed.

(** [start = a:"x" b:"y" { return a+b }] on ["xy"], with the meaning of the
    action given as the concatenation of its two arguments. *)
Example action_with_labels :
  let concat (code : jsstring) (p : nat) (bindings : list (jsstring * value)) :=
    match bindings with
    | [(_, VStr a); (_, VStr b)] => VStr (a ++ b)
    | _ => VUndefined
    end in
  parse (js "xy")
        (Grammar None (js "start")
           [(js "start",
             Rule (js "start") None
                  (Action (Sequence [Labeled (js "a") (Literal (js "x"));
                                     Labeled (js "b") (Literal (js "y"))])
                          (js "return a+b")))])
        concat 4 None
  = Some (Returned (VStr (js "xy"))).
Proof. reflexivity. Qed.

(** [start = "a" "\n" "b"] on ["a\nc"]: line 2, column 1. *)
Example error_position :
  parse (js "a" ++ nl ++ js "c")
        (Grammar None (js "start")
           [(js "start",
             Rule (js "start") None
                  (Sequence [Literal (js "a"); Literal nl; Literal (js "b")]))])
        returns_null 2 None
  = Some (ThrownSyntaxError
            (js "Expected " ++ dq ++ js "b" ++ dq ++ js " but "
               ++ dq ++ js "c" ++ dq ++ js " found.")
            2 1).
Proof. reflexivity. Qed.

(** The code emitted for the rule [a = "x"]. *)
Example emitted_rule :
  Emitter.emit_rule (fun s => s) rule_a ∅
  = Return
      (join nl
         [js "function parse_a() {";
          js "  var cacheKey = 'a@' + pos;";
          js "  var cachedResult = cache[cacheKey];";
          js "  if (cachedResult) {";
          js "    pos = cachedResult.nextPos;";
          js "    return cachedResult.result;";
          js "  }";
          js "  ";
          js "  ";
          js "  if (input.substr(pos, 1) === " ++ dq ++ js "x" ++ dq ++ js ") {";
          js "    var result0 = " ++ dq ++ js "x" ++ dq ++ js ";";
          js "    pos += 1;";
          js "  } else {";
          js "    var result0 = null;";
          js "    if (reportMatchFailures) {";
          js "      matchFailed(" ++ dq ++ js "\" ++ dq ++ js "x\"
             ++ dq ++ dq ++ js ");";
          js "    }";
          js "  }";
          js "  ";
          js "  ";
          js "  ";
          js "  cache[cacheKey] = {";
          js "    nextPos: pos,";
          js "    result:  result0";
          js "  };";
          js "  return result0;";
          js "}"],
       {[ js "result" := 1 ]}).
Proof. reflexivity. Qed.

(** [quote] on a string with a quote, a line feed and a character above
    U+00FF. *)
Example quote_escapes :
  quote (js "a" ++ dq ++ js "b" ++ nl ++ [233%N; 8232%N])
  = dq ++ js "a\" ++ dq ++ js "b\n\xE9\u2028" ++ dq.
Proof. reflexivity. Qed.

End Scenarios.

(** ** The template engine *)

Module TemplateFacts.
Import SpecWords.

(** The examples of the comment that documents [formatCode]. *)
Example formatCode_ex1 :
  formatCode [js "foo"; js "bar"] [] = Return (js "foo" ++ nl ++ js "bar").
Proof. reflexivity. Qed.

Example formatCode_ex2 :
  formatCode [js "foo"; js "${bar}"] [(js "bar", js "baz")]
  = Return (js "foo" ++ nl ++ js "baz").
Proof. reflexivity. Qed.

Example formatCode_ex3 :
  formatCode [js "foo"; js "${bar}"] [] = Raise (UndefinedVariable (js "bar")).
Proof. reflexivity. Qed.

Example formatCode_ex4 :
  formatCode [js "foo"; js "${bar|string}"] [(js "bar", js "baz")]
  = Return (js "foo" ++ nl ++ dq ++ js "baz" ++ dq).
Proof. reflexivity. Qed.

Example formatCode_ex5 :
  formatCode [js "foo"; js "${bar|eeek}"] [(js "bar", js "baz")]
  = Raise (UnrecognizedFilter (js "eeek")).
Proof. reflexivity. Qed.

Example formatCode_ex6 :
  formatCode [js "foo"; js "${bar}"] [(js "bar", js "  baz" ++ nl ++ js "qux")]
  = Return (js "foo" ++ nl ++ js "  baz" ++ nl ++ js "  qux").
Proof. reflexivity. Qed.

Example uid_next_reset_next :
  let '(a, c1) := UID.next (js "result") ∅ in
  let '(b, c2) := UID.next (js "result") c1 in
  let '(s, c3) := UID.next (js "savedPos") c2 in
  let '(d, _) := UID.next (js "result") (UID.reset c3) in
  (a, b, s, d) = (js "result0", js "result1", js "savedPos0", js "result0").
Proof. reflexivity. Qed.

Lemma split_on_nonempty sep s : split_on sep s <> [].
Proof.
  destruct s as [|c rest]; simpl; [discriminate|].
  destruct (N.eqb c sep); [discriminate|].
  destruct (split_on sep rest); discriminate.
Qed.

(** Where the first line of a part holds a character that is not
    whitespace, the prefix taken by the code is the whitespace at the start
    of the first line. *)
Lemma span_first_line part line0 others :
  split_on LF part = line0 :: others ->
  existsb (fun c => negb (is_whitespace c)) line0 = true ->
  fst (span is_whitespace part) = fst (span is_whitespace line0).
Proof.
  revert line0 others.
  induction part as [|c rest IH]; intros line0 others Hs Hx; simpl in Hs.
  - inversion Hs; subst. discriminate.
  - destruct (N.eqb c LF) eqn:Ec.
    + inversion Hs; subst. discriminate.
    + destruct (split_on LF rest) as [|l ls] eqn:Er;
        [exfalso; eapply split_on_nonempty; eauto|].
      inversion Hs; subst. simpl in *.
      destruct (is_whitespace c) eqn:Ew; simpl in *; [|reflexivity].
      specialize (IH _ _ eq_refl Hx).
      destruct (span is_whitespace rest), (span is_whitespace l).
      simpl in *. congruence.
Qed.

Lemma indentPart_agrees part :
  existsb (fun c => negb (is_whitespace c))
          (hd [] (split_on LF part)) = true ->
  indentPart part = spec_indentPart part.
Proof.
  intros Hx. unfold indentPart, spec_indentPart.
  destruct (negb (has_newline part)); [reflexivity|].
  destruct (split_on LF part) as [|line0 others] eqn:Es; [reflexivity|].
  simpl in Hx. rewrite (span_first_line _ _ _ Es Hx). reflexivity.
Qed.

Lemma indentPart_single_line part :
  has_newline part = false -> indentPart part = part.
Proof. unfold indentPart. intros ->. reflexivity. Qed.

(** C9.  The example of the specification holds: a part with the value
    ["  b\nc"] is re-indented to ["  b\n  c"].  But where the first line of
    a part is whitespace only, the prefix taken by the code (the match of
    [/^\s*/] on the whole part) runs over the line break.  For the template
    line ["      ${initializerCode}"] of [grammar] and the initializer of a
    grammar that starts with a block of code on lines of its own, the
    prefix is six spaces, a line break and two more spaces, and this is
    what the code puts before the second and the third line; the
    whitespace of the first line is six spaces. *)
Theorem indent_first_line_of_whitespace :
  formatCode [js "a"; js "${x}"] [(js "x", js "  b" ++ nl ++ js "c")]
    = Return (js "a" ++ nl ++ js "  b" ++ nl ++ js "  c")
  /\ formatCode [js "      ${initializerCode}"]
                [(js "initializerCode",
                  nl ++ js "  var x = 1;" ++ nl)]
     = Return (js "      " ++ nl
               ++ js "      " ++ nl ++ js "    var x = 1;" ++ nl
               ++ js "      " ++ nl ++ js "  ")
  /\ spec_indentPart (js "      " ++ nl ++ js "  var x = 1;" ++ nl)
     = js "      " ++ nl ++ js "        var x = 1;" ++ nl ++ js "      "
  /\ indentPart (js "      " ++ nl ++ js "  var x = 1;" ++ nl)
     <> spec_indentPart (js "      " ++ nl ++ js "  var x = 1;" ++ nl).
Proof.
  repeat split; try reflexivity.
  intros H. vm_compute in H. discriminate.
Qed.

End TemplateFacts.

(** ** The error position *)

Module PositionFacts.
Import Runtime SpecWords.

Lemma position_step_agrees ch st :
  ch <> [LS] -> ch <> [PS] ->
  position_step ch st = spec_position_step ch st.
Proof.
  intros H1 H2. destruct st as [[line column] seenCR].
  unfold position_step, spec_position_step.
  destruct (jsstring_eqb ch [LF]) eqn:E0.
  - destruct seenCR; reflexivity.
  - destruct (jsstring_eqb ch [CR]) eqn:E1; [reflexivity|].
    destruct (jsstring_eqb ch [LS]) eqn:E2;
      [apply jsstring_eqb_eq in E2; contradiction|].
    destruct (jsstring_eqb ch [PS]) eqn:E3;
      [apply jsstring_eqb_eq in E3; contradiction|].
    reflexivity.
Qed.

Lemma charAt_elem input i c : charAt input i = [c] -> c ∈ input.
Proof.
  unfold charAt. destruct (input !! i) as [x|] eqn:E; [|discriminate].
  intros [= ->]. eapply list_elem_of_lookup_2; eauto.
Qed.

(** On an input without U+2028 and U+2029 the code computes the position
    the specification describes. *)
Lemma computeErrorPosition_agrees input s :
  LS ∉ input -> PS ∉ input ->
  computeErrorPosition input s
  = spec_position input (rightmostMatchFailuresPos s).
Proof.
  intros H1 H2. unfold computeErrorPosition, spec_position, position_scan.
  generalize (1, 1, false) as st.
  generalize (seq 0 (rightmostMatchFailuresPos s)) as l.
  assert (Hstep : forall i st,
             position_step (charAt input i) st
             = spec_position_step (charAt input i) st).
  { intros i st. apply position_step_agrees; intros Hc;
      apply charAt_elem in Hc; contradiction. }
  induction l as [|i l IH]; intros st; simpl; [reflexivity|].
  rewrite Hstep. apply IH.
Qed.

(** C7.  The position computed for the offset 2 of the input
    U+2028, LF: the code gives line 2, column 1, since it sets [seenCR]
    after U+2028 (and U+2029) as after CR, and so does not count the LF;
    counting CR LF alone as a single line break, as the specification
    words it, the position is line 3, column 1.  The parser of
    [start = "\u2028" "\n" "x"] reports that position for this input.  On
    the example of the specification (["a\nc"], offset 2) both give
    line 2, column 1. *)
Theorem error_position_after_line_separator :
  computeErrorPosition [LS; LF] (State 2 true 2 [] ∅) = (2, 1)
  /\ spec_position [LS; LF] 2 = (3, 1)
  /\ computeErrorPosition [PS; LF] (State 2 true 2 [] ∅) = (2, 1)
  /\ spec_position [PS; LF] 2 = (3, 1)
  /\ (exists message,
        parse [LS; LF] Samples.separator_grammar Samples.returns_null 2 None
        = Some (ThrownSyntaxError message 2 1))
  /\ computeErrorPosition (js "a" ++ nl ++ js "c") (State 2 true 2 [] ∅)
     = (2, 1)
  /\ spec_position (js "a" ++ nl ++ js "c") 2 = (2, 1).
Proof.
  repeat split; try reflexivity. eexists. reflexivity.
Qed.

End PositionFacts.

(** ** The emitted parser on the sample grammars *)

Module RuntimeCases.
Import Runtime SpecWords Samples RuntimeFacts.

(** C1.  The fragment of [start = "a" { return null; }] on the input
    ["a"] at position 0: the literal matches and [pos] becomes 1, the
    action returns [null], and the fragment ends with the result [null] and
    [pos] at 1, against the contract for code fragments (a fragment whose
    result is [null] does not change [pos]). *)
Theorem action_returning_null_breaks_contract :
  eval (js "a") null_action_grammar returns_null 2 null_action initial_state
    = Some (set_pos 1 initial_state, VNull)
  /\ contract initial_state (set_pos 1 initial_state) VNull = false.
Proof. split; reflexivity. Qed.

(** C4.  The choice [ "a" { return null; } / "b" ] at position 0.  On the
    input ["a"] every alternative fails: the first after the literal has
    moved [pos] to 1, the second at position 1; the result is [null] and
    [pos] is left at 1.  On the input ["ab"] the second alternative is
    tried at position 1 and matches, though it does not match at
    position 0 where the choice started. *)
Theorem choice_after_null_action :
  eval (js "a") null_action_grammar returns_null 3
       null_action_choice initial_state
    = Some (State 1 true 1 [quote (js "b")] ∅, VNull)
  /\ eval (js "ab") null_action_grammar returns_null 3
          null_action_choice initial_state
     = Some (set_pos 2 initial_state, VStr (js "b"))
  /\ eval (js "ab") null_action_grammar returns_null 3
          (Literal (js "b")) initial_state
     = Some (State 0 true 0 [quote (js "b")] ∅, VNull).
Proof. repeat split; reflexivity. Qed.

(** The alternatives of a choice are executed from left to right, each
    in the state the one before left; the first result that is not [null]
    is the result of the choice, and the alternatives after it are not
    executed. *)
Lemma choice_first_match ev failing a rest s s1 :
  choice_alternatives ev failing s = Some (s1, VNull) ->
  (forall s2 r2, ev a s1 = Some (s2, r2) -> r2 <> VNull ->
     choice_alternatives ev (failing ++ a :: rest) s = Some (s2, r2))
  /\ (forall s2, ev a s1 = Some (s2, VNull) ->
        choice_alternatives ev (failing ++ a :: rest) s
        = choice_alternatives ev rest s2).
Proof.
  revert s. induction failing as [|f failing IH]; intros s Hf; simpl in *.
  - inversion Hf; subst. split.
    + intros s2 r2 E Hr. rewrite E.
      destruct r2; simpl; congruence.
    + intros s2 E. rewrite E. reflexivity.
  - destruct (ev f s) as [[s' r']|] eqn:E; [|discriminate].
    destruct (is_null r') eqn:En.
    + apply IH; auto.
    + inversion Hf; subst. discriminate.
Qed.

(** C5, witness: the three cases of [matchFailed], and a fragment. *)
Lemma rightmost_failure_aggregation_witness :
  matchFailed (js "x") (State 1 true 3 [js "y"] ∅) = State 1 true 3 [js "y"] ∅
  /\ matchFailed (js "x") (State 5 true 3 [js "y"] ∅) = State 5 true 5 [js "x"] ∅
  /\ matchFailed (js "x") (State 3 true 3 [js "y"] ∅)
     = State 3 true 3 [js "y"; js "x"] ∅
  /\ 3 <= 5.
Proof.
  split; [|split; [|split]].
  - apply (rightmost_failure_aggregation (js "a") abc_grammar returns_null
             (js "x") (State 1 true 3 [js "y"] ∅)). simpl. lia.
  - apply (rightmost_failure_aggregation (js "a") abc_grammar returns_null
             (js "x") (State 5 true 3 [js "y"] ∅)). simpl. lia.
  - apply (rightmost_failure_aggregation (js "a") abc_grammar returns_null
             (js "x") (State 3 true 3 [js "y"] ∅)). reflexivity.
  - apply (proj1 (proj2 (proj2 (proj2 (proj2
             (rightmost_failure_aggregation (js "abcde") abc_grammar
                returns_null (js "x") (State 5 true 3 [js "y"] ∅))))))
             2 Any (State 5 true 5 [js "any character"] ∅) VNull).
    reflexivity.
Defined.

(** C3, witness: the grammar [start = "abc"] on ["abc"], ["abcd"] and
    ["ab"]. *)
Lemma parse_syntax_error_iff_witness :
  parse (js "abc") abc_grammar returns_null 1 None
    = Some (Returned (VStr (js "abc")))
  /\ exists message line column,
       parse (js "abcd") abc_grammar returns_null 1 None
       = Some (ThrownSyntaxError message line column).
Proof.
  split.
  - destruct (proj2 (parse_syntax_error_iff (js "abc") abc_grammar
                       returns_null 1 None ltac:(discriminate))
                    (State 3 true 0 []
                       {[ js "start@0" := (3, VStr (js "abc")) ]})
                    (VStr (js "abc")) eq_refl)
      as (o & Ho & _ & Hret).
    rewrite Ho. f_equal. apply Hret; [discriminate|reflexivity].
  - destruct (proj2 (parse_syntax_error_iff (js "abcd") abc_grammar
                       returns_null 1 None ltac:(discriminate))
                    (State 3 true 0 []
                       {[ js "start@0" := (3, VStr (js "abc")) ]})
                    (VStr (js "abc")) eq_refl)
      as (o & Ho & Hiff & _).
    destruct (proj2 Hiff) as (m & l & c & Hm).
    + right. simpl. lia.
    + exists m, l, c. rewrite Ho, Hm. reflexivity.
Defined.

(** C8, counterexample: the rule [letter "a letter" = [a-z]] called on the
    input ["1"] while [reportMatchFailures] is off (inside a predicate).
    The body fails; the code does not call [matchFailed], as the restored
    flag is off, and records nothing; calling it whenever the result of the
    body is [null] would record the display name. *)
Lemma display_name_unguarded_counterexample :
  (exists s', parse_rule (eval (js "1") letter_grammar returns_null 1)
                letter_rule quiet_state = Some (s', VNull)
              /\ rightmostMatchFailuresExpected s' = [])
  /\ (exists s', spec_named_rule (eval (js "1") letter_grammar returns_null 1)
                   letter_rule (js "a letter") quiet_state = Some (s', VNull)
                 /\ rightmostMatchFailuresExpected s' = [js "a letter"])
  /\ parse_rule (eval (js "1") letter_grammar returns_null 1)
       letter_rule quiet_state
     <> spec_named_rule (eval (js "1") letter_grammar returns_null 1)
          letter_rule (js "a letter") quiet_state.
Proof.
  split; [|split].
  - eexists. split; reflexivity.
  - eexists. split; reflexivity.
  - intros H.
    apply (f_equal (fun o => match o with
                             | Some (s', _) => rightmostMatchFailuresExpected s'
                             | None => []
                             end)) in H.
    vm_compute in H. discriminate.
Qed.

(** C8, witness: the same rule called at the top level on ["1"], and the
    rule [start = "abc"], which has no display name, on ["abc"]. *)
Lemma display_name_reporting_witness :
  (exists s', parse_rule (eval (js "1") letter_grammar returns_null 1)
                letter_rule initial_state = Some (s', VNull)
              /\ rightmostMatchFailuresExpected s' = [js "a letter"])
  /\ parse_rule (eval (js "abc") abc_grammar returns_null 1)
       (Rule (js "start") None (Literal (js "abc"))) initial_state
     = Some (State 3 true 0 [] {[ js "start@0" := (3, VStr (js "abc")) ]},
             VStr (js "abc")).
Proof.
  split.
  - destruct (proj1 (display_name_reporting (js "1") letter_grammar
                       returns_null 1 letter_rule initial_state eq_refl)
                    (js "a letter") (State 0 false 0 [] ∅) VNull
                    eq_refl eq_refl) as [Hcall _].
    eexists. split; [exact Hcall|reflexivity].
  - apply (proj2 (display_name_reporting (js "abc") abc_grammar
                    returns_null 1
                    (Rule (js "start") None (Literal (js "abc")))
                    initial_state eq_refl)
                 (State 3 true 0 [] ∅) (VStr (js "abc")) eq_refl eq_refl).
Defined.

End RuntimeCases.

(** ** The emitter on the sample grammars *)

Module EmitterCases.
Import Emitter Samples EmitterFacts.



End EmitterCases.

(** ** The template engine: interpolation and re-indentation *)

Module InterpolationFacts.
Import TemplateText JsFacts.

Lemma span_length p s :
  length (snd (span p s)) <= length s.
Proof.
  induction s as [|c s IH]; simpl; auto.
  destruct (p c); simpl; [|lia].
  destruct (span p s); simpl in *. lia.
Qed.

Lemma scan_ident_length s name rest :
  scan_ident s = Some (name, rest) -> length rest < length s.
Proof.
  destruct s as [|c r]; simpl; [discriminate|].
  destruct (is_ident_start c); [|discriminate].
  pose proof (span_length is_ident_char r) as H.
  destruct (span is_ident_char r) as [a b]. simpl in H.
  intros [= <- <-]. lia.
Qed.

Lemma match_var_length s name filter after :
  match_var s = Some (name, filter, after) -> length after < length s.
Proof.
  unfold match_var.
  destruct s as [|c1 [|c2 r]]; try discriminate.
  destruct (_ && _); [|discriminate].
  destruct (scan_ident r) as [[n [|c3 r1]]|] eqn:E1; try discriminate.
  apply scan_ident_length in E1. simpl in E1.
  destruct (c3 =? 125)%N.
  - intros [= <- <- <-]. simpl. lia.
  - destruct (c3 =? 124)%N; [|discriminate].
    destruct (scan_ident r1) as [[f [|c4 r2]]|] eqn:E2; try discriminate.
    apply scan_ident_length in E2. simpl in E2.
    destruct (c4 =? 125)%N; [|discriminate].
    intros [= <- <- <-]. simpl. lia.
Qed.

(** The scan of a part does not depend on the number of steps allowed,
    once it is at least the length of the part. *)
Lemma interpolate_from_enough vs fuel1 :
  forall fuel2 s,
    length s <= fuel1 -> length s <= fuel2 ->
    interpolate_from fuel1 vs s = interpolate_from fuel2 vs s.
Proof.
  induction fuel1 as [|fuel1 IH]; intros fuel2 s H1 H2.
  - destruct s; [|simpl in H1; lia]. destruct fuel2; reflexivity.
  - destruct s as [|c rest]; [destruct fuel2; reflexivity|].
    destruct fuel2 as [|fuel2]; [simpl in H2; lia|].
    cbn [interpolate_from].
    destruct (match_var (c :: rest)) as [[[name filter] after]|] eqn:E.
    + apply match_var_length in E. simpl in *.
      rewrite (IH fuel2 after) by lia. reflexivity.
    + simpl in *. rewrite (IH fuel2 rest) by lia. reflexivity.
Qed.

Lemma interpolate_cons_plain vs c rest :
  match_var (c :: rest) = None ->
  interpolate vs (c :: rest)
  = exc_bind (interpolate vs rest) (fun r => Return (c :: r)).
Proof.
  intros E. unfold interpolate. cbn [length interpolate_from]. rewrite E.
  reflexivity.
Qed.

Lemma interpolate_match vs s name filter after :
  match_var s = Some (name, filter, after) ->
  interpolate vs s
  = exc_bind (substitute vs name filter) (fun v =>
    exc_bind (interpolate vs after) (fun r => Return (v ++ r))).
Proof.
  intros E. unfold interpolate.
  destruct s as [|c rest]; [discriminate|].
  cbn [length interpolate_from]. rewrite E.
  apply match_var_length in E. simpl in E.
  rewrite (interpolate_from_enough vs (length rest) (length after) after)
    by lia.
  reflexivity.
Qed.

Lemma match_var_not_dollar c rest :
  c <> DOLLAR -> match_var (c :: rest) = None.
Proof.
  intros Hc. unfold match_var. destruct rest as [|c2 r]; [reflexivity|].
  destruct (N.eqb_spec c 36); [contradiction|]. reflexivity.
Qed.

Lemma interpolate_prefix vs pre s :
  DOLLAR ∉ pre ->
  interpolate vs (pre ++ s)
  = exc_bind (interpolate vs s) (fun r => Return (pre ++ r)).
Proof.
  induction pre as [|c pre IH]; intros Hd; simpl.
  - destruct (interpolate vs s); reflexivity.
  - rewrite interpolate_cons_plain.
    + rewrite IH by (intros H; apply Hd; right; exact H).
      destruct (interpolate vs s); reflexivity.
    + apply match_var_not_dollar. intros ->. apply Hd. left.
Qed.

Lemma span_ident_chars name rest c :
  forallb is_ident_char name = true -> is_ident_char c = false ->
  span is_ident_char (name ++ c :: rest) = (name, c :: rest).
Proof.
  induction name as [|x name IH]; simpl; intros Hn Hc.
  - rewrite Hc. reflexivity.
  - apply andb_true_iff in Hn as [Hx Hn]. rewrite Hx, IH; auto.
Qed.

Lemma scan_ident_identifier name rest c :
  is_identifier name = true -> is_ident_char c = false ->
  scan_ident (name ++ c :: rest) = Some (name, c :: rest).
Proof.
  destruct name as [|x name]; simpl; [discriminate|].
  intros Hn Hc. apply andb_true_iff in Hn as [Hx Hn].
  rewrite Hx, span_ident_chars; auto.
Qed.

Lemma match_var_reference name post :
  is_identifier name = true ->
  match_var (reference name ++ post) = Some (name, None, post).
Proof.
  intros Hn. unfold reference, match_var.
  change (js "${") with [36%N; 123%N]. change (js "}") with [125%N].
  simpl. rewrite <- !app_assoc. simpl.
  rewrite scan_ident_identifier by auto. reflexivity.
Qed.

Lemma match_var_filtered name filter post :
  is_identifier name = true -> is_identifier filter = true ->
  match_var (filtered_reference name filter ++ post)
  = Some (name, Some filter, post).
Proof.
  intros Hn Hf. unfold filtered_reference, match_var.
  change (js "${") with [36%N; 123%N]. change (js "}") with [125%N].
  change (js "|") with [124%N].
  simpl. rewrite <- !app_assoc. simpl.
  rewrite scan_ident_identifier by auto.
  rewrite <- !app_assoc. simpl.
  rewrite scan_ident_identifier by auto. reflexivity.
Qed.

Lemma interpolate_plain vs part :
  DOLLAR ∉ part -> interpolate vs part = Return part.
Proof.
  intros Hd. pose proof (interpolate_prefix vs part [] Hd) as H.
  rewrite app_nil_r in H. rewrite H. unfold interpolate. simpl.
  rewrite app_nil_r. reflexivity.
Qed.

(** X1.  Parts without a dollar sign hold no variable reference: they pass
    through the interpolation unchanged, whatever the variables, and
    [formatCode] joins them, re-indented, with line feeds. *)
Theorem interpolate_without_dollar vs parts :
  Forall (fun part => DOLLAR ∉ part) parts ->
  interpolateVariablesInParts vs parts = Return parts
  /\ formatCode parts vs = Return (join nl (indentMultilineParts parts)).
Proof.
  intros Hd.
  assert (H : interpolateVariablesInParts vs parts = Return parts).
  { unfold interpolateVariablesInParts.
    induction Hd as [|p parts Hp _ IH]; [reflexivity|].
    cbn [exc_mapM]. rewrite (interpolate_plain vs p Hp), IH. reflexivity. }
  split; [exact H|]. unfold formatCode. rewrite H. reflexivity.
Qed.

(** X2.  A reference to a variable that is defined is replaced by the value
    of the variable as it is: the text before it (without a dollar sign) is
    kept, the value is not scanned for references, and the scan goes on
    after the closing brace. *)
Theorem interpolate_defined vs pre name value post :
  DOLLAR ∉ pre -> is_identifier name = true ->
  lookup_var vs name = Some value ->
  interpolate vs (pre ++ reference name ++ post)
  = exc_bind (interpolate vs post) (fun r => Return (pre ++ value ++ r)).
Proof.
  intros Hd Hn Hv. rewrite interpolate_prefix by exact Hd.
  rewrite (interpolate_match _ _ _ _ _ (match_var_reference name post Hn)).
  unfold substitute. rewrite Hv. simpl.
  destruct (interpolate vs post); reflexivity.
Qed.

(** X3.  The [string] filter gives the value quoted; it is the only filter. *)
Theorem interpolate_filtered vs pre name filter value post :
  DOLLAR ∉ pre -> is_identifier name = true -> is_identifier filter = true ->
  lookup_var vs name = Some value ->
  interpolate vs (pre ++ filtered_reference name filter ++ post)
  = if jsstring_eqb filter (js "string")
    then exc_bind (interpolate vs post)
                  (fun r => Return (pre ++ quote value ++ r))
    else Raise (UnrecognizedFilter filter).
Proof.
  intros Hd Hn Hf Hv. rewrite interpolate_prefix by exact Hd.
  rewrite (interpolate_match _ _ _ _ _
             (match_var_filtered name filter post Hn Hf)).
  unfold substitute. rewrite Hv.
  destruct (jsstring_eqb filter (js "string")); simpl; [|reflexivity].
  destruct (interpolate vs post); reflexivity.
Qed.

(** X4.  A reference to a variable that is not defined makes [formatCode]
    throw the error that names it, with or without a filter and whatever
    follows the reference, when the parts before are free of references.
    The variable is not defined when [vars] has no property of its name
    and its name is not the name of a property that every object inherits
    from [Object.prototype], which [vars[name]] would find. *)
Theorem formatCode_undefined_variable vs before pre name post after :
  Forall (fun p => DOLLAR ∉ p) before ->
  DOLLAR ∉ pre -> is_identifier name = true ->
  JsObject.inherited name = false ->
  lookup_var vs name = None ->
  formatCode (before ++ (pre ++ reference name ++ post) :: after) vs
    = Raise (UndefinedVariable name)
  /\ forall filter,
       is_identifier filter = true ->
       formatCode (before ++ (pre ++ filtered_reference name filter ++ post)
                            :: after) vs
       = Raise (UndefinedVariable name).
Proof.
  intros Hb Hd Hn _ Hv.
  assert (Hgen : forall part,
             interpolate vs part = Raise (UndefinedVariable name) ->
             formatCode (before ++ part :: after) vs
             = Raise (UndefinedVariable name)).
  { intros part Hp. unfold formatCode, interpolateVariablesInParts.
    induction Hb as [|p before Hp0 _ IH]; simpl.
    - rewrite Hp. reflexivity.
    - rewrite (interpolate_plain vs p Hp0). simpl.
      destruct (exc_mapM (interpolate vs) (before ++ part :: after));
        [discriminate|].
      simpl in *. congruence. }
  split.
  - apply Hgen. rewrite interpolate_prefix by exact Hd.
    rewrite (interpolate_match _ _ _ _ _ (match_var_reference name post Hn)).
    unfold substitute. rewrite Hv. reflexivity.
  - intros filter Hf. apply Hgen. rewrite interpolate_prefix by exact Hd.
    rewrite (interpolate_match _ _ _ _ _
               (match_var_filtered name filter post Hn Hf)).
    unfold substitute. rewrite Hv. reflexivity.
Qed.

End InterpolationFacts.

(** ** Re-indentation of the parts *)

Module IndentationFacts.
Import TemplateFacts.

Lemma join_split_on s : join nl (split_on LF s) = s.
Proof.
  induction s as [|c rest IH]; [reflexivity|].
  cbn [split_on].
  pose proof (split_on_nonempty LF rest) as Hne.
  destruct (split_on LF rest) as [|l ls]; [contradiction|].
  destruct (N.eqb_spec c LF) as [->|Hc].
  - change (join nl ([] :: l :: ls)) with ([] ++ nl ++ join nl (l :: ls)).
    rewrite IH. reflexivity.
  - destruct ls as [|l' ls]; simpl in IH |- *; rewrite <- IH; reflexivity.
Qed.

(** X5.  A part whose first line holds a character that is not
    whitespace: its first line is kept, and every other line is preceded
    by the whitespace the first line starts with. *)
Theorem indent_lines part line0 others :
  split_on LF part = line0 :: others ->
  existsb (fun c => negb (is_whitespace c)) line0 = true ->
  indentPart part
  = join nl (line0 :: List.map (app (fst (span is_whitespace line0))) others).
Proof.
  intros Hs Hx. unfold indentPart.
  destruct (has_newline part) eqn:Hn; cbn [negb].
  - rewrite Hs, (span_first_line _ _ _ Hs Hx). reflexivity.
  - assert (Ho : others = []).
    { clear Hx. revert line0 others Hs. unfold has_newline in Hn.
      induction part as [|c rest IH]; intros line0 others Hs.
      - inversion Hs. reflexivity.
      - cbn [existsb] in Hn. cbn [split_on] in Hs.
        apply orb_false_iff in Hn as [Ec Er].
        rewrite N.eqb_sym in Ec. rewrite Ec in Hs.
        destruct (split_on LF rest) as [|l ls] eqn:El.
        + inversion Hs. reflexivity.
        + inversion Hs; subst. eapply IH; eauto. }
    subst others. pose proof (join_split_on part) as Hj.
    rewrite Hs in Hj. exact (eq_sym Hj).
Qed.

(** X6.  A part that does not start with whitespace is left as it is,
    however many lines it has. *)
Theorem indent_unindented c rest :
  is_whitespace c = false ->
  indentPart (c :: rest) = c :: rest.
Proof.
  intros Hc. unfold indentPart.
  destruct (negb (has_newline (c :: rest))); [reflexivity|].
  cbn [span]. rewrite Hc. cbn [fst].
  pose proof (join_split_on (c :: rest)) as Hj.
  destruct (split_on LF (c :: rest)) as [|line0 others]; [exact Hj|].
  replace (List.map (fun line => [] ++ line) others) with others; [exact Hj|].
  clear Hj. induction others as [|l ls IH]; [reflexivity|].
  simpl. f_equal. exact IH.
Qed.

End IndentationFacts.

(** ** Quoting *)

Module QuoteFacts.
Import StringLiteral.

Lemma flat_map_flat_map {A B C} (f : A -> list B) (h : B -> list C) l :
  flat_map h (flat_map f l) = flat_map (fun x => flat_map h (f x)) l.
Proof.
  induction l as [|x l IH]; simpl; [reflexivity|].
  rewrite flat_map_app, IH. reflexivity.
Qed.

Lemma quote_single_pass s :
  quote s = dq ++ flat_map quote_char s ++ dq.
Proof.
  unfold quote, replace_chars. do 2 f_equal.
  rewrite !flat_map_flat_map. apply flat_map_ext. intros c.
  unfold quote_char.
  destruct (N.eqb_spec c BACKSLASH) as [->|H1]; [reflexivity|].
  assert (E1 : (BACKSLASH =? c)%N = false) by (apply N.eqb_neq; congruence).
  rewrite E1. cbn [flat_map app].
  destruct (N.eqb_spec c DQUOTE) as [->|H2]; [reflexivity|].
  assert (E2 : (DQUOTE =? c)%N = false) by (apply N.eqb_neq; congruence).
  rewrite E2. cbn [flat_map app].
  destruct (N.eqb_spec c CR) as [->|H3]; [reflexivity|].
  assert (E3 : (CR =? c)%N = false) by (apply N.eqb_neq; congruence).
  rewrite E3. cbn [flat_map app].
  destruct (N.eqb_spec c LF) as [->|H4]; [reflexivity|].
  assert (E4 : (LF =? c)%N = false) by (apply N.eqb_neq; congruence).
  rewrite E4. cbn [flat_map app].
  destruct ((128 <=? c)%N && (c <=? 65535)%N); rewrite ?app_nil_r; reflexivity.
Qed.

Lemma escape_checked_from_spec n c0 :
  escape_checked_from n c0 = true ->
  forall c, (c0 <= c)%N -> (c < c0 + N.of_nat n)%N -> escape_checked c = true.
Proof.
  revert c0. induction n as [|n IH]; intros c0 H c Hlo Hhi; [lia|].
  cbn [escape_checked_from] in H. apply andb_true_iff in H as [H0 H].
  destruct (N.eq_dec c c0) as [->|Hne]; [exact H0|].
  apply (IH _ H); lia.
Qed.

Lemma escape_checked_all c :
  (128 <= c)%N -> (c <= 65535)%N -> escape_checked c = true.
Proof.
  intros Hlo Hhi.
  apply (escape_checked_from_spec (N.to_nat 65408) 128); [|lia|lia].
  vm_compute. reflexivity.
Qed.

Lemma string_characters_quote_char c rest :
  string_characters (quote_char c ++ rest)
  = prepend c (string_characters rest).
Proof.
  unfold quote_char.
  destruct (N.eqb_spec c BACKSLASH) as [->|H1]; [reflexivity|].
  destruct (N.eqb_spec c DQUOTE) as [->|H2]; [reflexivity|].
  destruct (N.eqb_spec c CR) as [->|H3]; [reflexivity|].
  destruct (N.eqb_spec c LF) as [->|H4]; [reflexivity|].
  destruct ((128 <=? c)%N && (c <=? 65535)%N) eqn:Er.
  - apply andb_true_iff in Er as [Hlo Hhi].
    apply N.leb_le in Hlo, Hhi.
    pose proof (escape_checked_all c Hlo Hhi) as Hc.
    unfold escape_checked in Hc.
    destruct (escape c) as [|b [|x [|h1 [|h2 [|h3 [|h4 [|h5 t]]]]]]];
      try discriminate.
    + apply andb_true_iff in Hc as [Hc _].
      apply andb_true_iff in Hc as [Hc Hv].
      apply andb_true_iff in Hc as [Hb Hx].
      apply N.eqb_eq in Hb, Hx. subst b x.
      destruct (hex_number [h1; h2]) as [v|] eqn:Ev; [|discriminate].
      apply N.eqb_eq in Hv. subst v.
      cbn [app string_characters]. rewrite Ev. reflexivity.
    + apply andb_true_iff in Hc as [Hc _].
      apply andb_true_iff in Hc as [Hc Hv].
      apply andb_true_iff in Hc as [Hb Hx].
      apply N.eqb_eq in Hb, Hx. subst b x.
      destruct (hex_number [h1; h2; h3; h4]) as [v|] eqn:Ev; [|discriminate].
      apply N.eqb_eq in Hv. subst v.
      cbn [app string_characters]. rewrite Ev. reflexivity.
  - cbn [app string_characters].
    destruct (N.eqb_spec c DQUOTE); [contradiction|].
    destruct (N.eqb_spec c BACKSLASH); [contradiction|].
    assert (Hlt : is_line_terminator c = false).
    { unfold is_line_terminator.
      destruct (N.eqb_spec c LF); [contradiction|].
      destruct (N.eqb_spec c CR); [contradiction|].
      destruct (N.eqb_spec c LS) as [->|]; [discriminate|].
      destruct (N.eqb_spec c PS) as [->|]; [discriminate|].
      reflexivity. }
    rewrite Hlt. reflexivity.
Qed.

Lemma quote_char_ascii c :
  (c < 65536)%N -> forallb is_ascii_text (quote_char c) = true.
Proof.
  intros Hc. unfold quote_char.
  destruct (N.eqb_spec c BACKSLASH) as [->|H1]; [reflexivity|].
  destruct (N.eqb_spec c DQUOTE) as [->|H2]; [reflexivity|].
  destruct (N.eqb_spec c CR) as [->|H3]; [reflexivity|].
  destruct (N.eqb_spec c LF) as [->|H4]; [reflexivity|].
  destruct ((128 <=? c)%N && (c <=? 65535)%N) eqn:Er.
  - apply andb_true_iff in Er as [Hlo Hhi].
    apply N.leb_le in Hlo, Hhi.
    pose proof (escape_checked_all c Hlo Hhi) as Hk.
    unfold escape_checked in Hk.
    destruct (escape c) as [|b [|x [|h1 [|h2 [|h3 [|h4 [|h5 t]]]]]]];
      try discriminate.
    + apply andb_true_iff in Hk as [Hk Ha].
      apply andb_true_iff in Hk as [Hk _].
      apply andb_true_iff in Hk as [Hb Hx].
      apply N.eqb_eq in Hb, Hx. subst b x.
      cbn [forallb] in Ha |- *. rewrite Ha. reflexivity.
    + apply andb_true_iff in Hk as [Hk Ha].
      apply andb_true_iff in Hk as [Hk _].
      apply andb_true_iff in Hk as [Hb Hx].
      apply N.eqb_eq in Hb, Hx. subst b x.
      cbn [forallb] in Ha |- *. rewrite Ha. reflexivity.
  - apply andb_false_iff in Er.
    assert (Hlt : (c < 128)%N).
    { destruct Er as [Er|Er]; [apply N.leb_gt in Er; exact Er|].
      apply N.leb_gt in Er. lia. }
    unfold is_ascii_text. cbn [forallb].
    apply N.ltb_lt in Hlt. rewrite Hlt.
    destruct (N.eqb_spec c LF); [contradiction|].
    destruct (N.eqb_spec c CR); [contradiction|]. reflexivity.
Qed.

(** X7.  The result of [quote] is a string literal of the language whose
    value is the string that was quoted: what is quoted can be read back,
    and two strings are never quoted to the same text. *)
Theorem quote_round_trip s :
  string_literal_value (quote s) = Some s
  /\ forall s', quote s = quote s' -> s = s'.
Proof.
  assert (Hrt : forall t, string_literal_value (quote t) = Some t).
  { intros t. rewrite quote_single_pass.
    change (dq ++ flat_map quote_char t ++ dq)
      with (DQUOTE :: (flat_map quote_char t ++ dq)).
    cbn [string_literal_value]. rewrite N.eqb_refl.
    induction t as [|c t IH]; [reflexivity|].
    cbn [flat_map]. rewrite <- app_assoc.
    rewrite string_characters_quote_char, IH. reflexivity. }
  split; [apply Hrt|].
  intros s' H. pose proof (Hrt s) as H1. rewrite H, Hrt in H1.
  congruence.
Qed.

(** X8.  The result of [quote] for a string of 16-bit code units is made of
    ASCII characters, none of them a line feed or a carriage return: quoted
    text can be put on one line of the generated code whatever the grammar
    holds. *)
Theorem quote_ascii s :
  Forall (fun c => (c < 65536)%N) s ->
  Forall (fun c => (c < 128)%N /\ c <> LF /\ c <> CR) (quote s).
Proof.
  intros Hs.
  assert (Hb : forallb is_ascii_text (quote s) = true).
  { rewrite quote_single_pass. rewrite !forallb_app.
    apply andb_true_iff. split; [reflexivity|].
    apply andb_true_iff. split; [|reflexivity].
    induction Hs as [|c t Hc _ IH]; [reflexivity|].
    cbn [flat_map]. rewrite forallb_app, IH, quote_char_ascii by exact Hc.
    reflexivity. }
  apply Forall_forall. intros c Hc.
  rewrite forallb_forall in Hb. specialize (Hb c).
  assert (Hin : In c (quote s)) by (apply list_elem_of_In; exact Hc).
  specialize (Hb Hin). unfold is_ascii_text in Hb.
  apply andb_true_iff in Hb as [Hb H3]. apply andb_true_iff in Hb as [H1 H2].
  apply N.ltb_lt in H1. apply negb_true_iff in H2, H3.
  apply N.eqb_neq in H2, H3. auto.
Qed.

End QuoteFacts.

(** ** Unique identifiers *)

Module UIDFacts.
Import UIDCalls JsFacts.

Lemma uint_digits d :
  Forall (fun c => is_digit c = true) (js (NilEmpty.string_of_uint d)).
Proof.
  unfold js.
  induction d; simpl; constructor; auto.
Qed.

Lemma to_decimal_digits n :
  Forall (fun c => is_digit c = true) (to_decimal n).
Proof. apply uint_digits. Qed.

Lemma digits_prefix_inj (a1 a2 b1 b2 : jsstring) :
  Forall (fun c => is_digit c = true) a1 ->
  Forall (fun c => is_digit c = true) a2 ->
  head b1 ≫= (fun c => if is_digit c then Some c else None) = None ->
  head b2 ≫= (fun c => if is_digit c then Some c else None) = None ->
  a1 ++ b1 = a2 ++ b2 -> a1 = a2 /\ b1 = b2.
Proof.
  intros H1. revert a2.
  induction H1 as [|x a1 Hx _ IH]; intros a2 H2 Hb1 Hb2 E.
  - destruct H2 as [|y a2 Hy _]; [auto|].
    simpl in E. subst b1. simpl in Hb1. rewrite Hy in Hb1. discriminate.
  - destruct H2 as [|y a2 Hy H2].
    + simpl in E. subst b2. simpl in Hb2. rewrite Hx in Hb2. discriminate.
    + simpl in E. inversion E; subst.
      destruct (IH a2 H2 Hb1 Hb2 H1) as [-> ->]. auto.
Qed.

Lemma ends_in_digit_rev p :
  ends_in_digit p = false ->
  head (rev p) ≫= (fun c => if is_digit c then Some c else None) = None.
Proof.
  unfold ends_in_digit.
  destruct p as [|c p] using rev_ind; [reflexivity|].
  rewrite last_snoc, rev_app_distr. simpl. intros ->. reflexivity.
Qed.

(** A name tells its prefix and its number, for prefixes that do not end
    in a digit. *)
Lemma name_inj p1 n1 p2 n2 :
  ends_in_digit p1 = false -> ends_in_digit p2 = false ->
  p1 ++ to_decimal n1 = p2 ++ to_decimal n2 -> p1 = p2 /\ n1 = n2.
Proof.
  intros H1 H2 E.
  apply (f_equal (@rev _)) in E. rewrite !rev_app_distr in E.
  apply digits_prefix_inj in E.
  - destruct E as [Ed Ep].
    apply (f_equal (@rev _)) in Ed, Ep. rewrite !rev_involutive in Ed, Ep.
    split; [exact Ep|]. apply to_decimal_inj. exact Ed.
  - apply Forall_rev, to_decimal_digits.
  - apply Forall_rev, to_decimal_digits.
  - apply ends_in_digit_rev; exact H1.
  - apply ends_in_digit_rev; exact H2.
Qed.

Lemma next_all_names prefixes :
  forall c name,
    name ∈ fst (next_all prefixes c) ->
    exists p n, p ∈ prefixes /\ name = p ++ to_decimal n
                /\ default 0 (c !! p) <= n.
Proof.
  induction prefixes as [|p0 rest IH]; intros c name Hin.
  - simpl in Hin. inversion Hin.
  - cbn [next_all] in Hin. unfold UID.next in Hin.
    destruct (next_all rest _) as [names c2] eqn:E. simpl in Hin.
    apply elem_of_cons in Hin as [->|Hin].
    + exists p0, (default 0 (c !! p0)). split; [left|]. auto.
    + specialize (IH (<[p0 := S (default 0 (c !! p0))]> c) name).
      rewrite E in IH. destruct (IH Hin) as (p & n & Hp & Hn & Hle).
      exists p, n. split; [right; exact Hp|]. split; [exact Hn|].
      destruct (decide (p0 = p)) as [->|Hne].
      * rewrite lookup_insert_eq in Hle. simpl in Hle. lia.
      * rewrite lookup_insert_ne in Hle by exact Hne. exact Hle.
Qed.

(** X9.  Between two calls of [UID.reset], [UID.next] never returns the same
    name twice, whatever the order of the calls, when no prefix ends in a
    digit (the emitter's prefixes are [result], [savedPos] and
    [savedReportMatchFailuresVar]), no prefix is the name of a property
    that [_counters] inherits from [Object.prototype], and the counters
    stay below 2^53, where a number is still followed by the next one: the
    counters at the start and the number of calls add up to 2^53 at
    most. *)
Theorem next_names_distinct prefixes c :
  Forall (fun p => ends_in_digit p = false) prefixes ->
  Forall (fun p => JsObject.inherited p = false) prefixes ->
  (N.of_nat (length prefixes) <= JsObject.MAX_EXACT)%N ->
  (forall p n, c !! p = Some n ->
     (N.of_nat n + N.of_nat (length prefixes) <= JsObject.MAX_EXACT)%N) ->
  NoDup (fst (next_all prefixes c)).
Proof.
  intros Hp _ _ _. revert c.
  induction Hp as [|p0 rest Hp0 Hrest IH]; intros c.
  - simpl. constructor.
  - cbn [next_all]. unfold UID.next.
    pose proof (next_all_names rest
                  (<[p0 := S (default 0 (c !! p0))]> c)) as Hnames.
    specialize (IH (<[p0 := S (default 0 (c !! p0))]> c)).
    destruct (next_all rest _) as [names c2]. simpl in *.
    constructor; [|exact IH].
    intros Hin. destruct (Hnames _ Hin) as (p & n & Hpin & Hn & Hle).
    rewrite Forall_forall in Hrest.
    apply name_inj in Hn as [<- <-]; auto.
    rewrite lookup_insert_eq in Hle. simpl in Hle. lia.
Qed.

End UIDFacts.

(** ** The emitter never throws *)

Module EmitterTotality.
Import Emitter Outcome.

Lemma formatCode_returns parts vs :
  returns (interpolateVariablesInParts vs parts) = true ->
  exists code, formatCode parts vs = Return code.
Proof.
  unfold formatCode.
  destruct (interpolateVariablesInParts vs parts); [|discriminate].
  eexists. reflexivity.
Qed.

(** Induction on expressions, through the lists of alternatives and of
    elements. *)
Lemma expr_nested_ind (P : expr -> Prop) :
  (forall alternatives, Forall P alternatives -> P (Choice alternatives)) ->
  (forall elements, Forall P elements -> P (Sequence elements)) ->
  (forall label e, P e -> P (Labeled label e)) ->
  (forall e, P e -> P (SimpleAnd e)) ->
  (forall e, P e -> P (SimpleNot e)) ->
  (forall code, P (SemanticAnd code)) ->
  (forall code, P (SemanticNot code)) ->
  (forall e, P e -> P (Optional e)) ->
  (forall e, P e -> P (ZeroOrMore e)) ->
  (forall e, P e -> P (OneOrMore e)) ->
  (forall e code, P e -> P (Action e code)) ->
  (forall name, P (RuleRef name)) ->
  (forall value, P (Literal value)) ->
  P Any ->
  (forall parts inverted rawText, P (Class parts inverted rawText)) ->
  forall e, P e.
Proof.
  intros HChoice HSequence HLabeled HAnd HNot HSAnd HSNot HOpt HZero HOne
         HAction HRef HLit HAny HClass.
  fix IH 1.
  intros [alts|elems|lbl e|e|e|code|code|e|e|e|e code|R|v| |parts inv raw].
  - apply HChoice.
    exact ((fix all (l : list expr) : Forall P l :=
              match l with
              | [] => @List.Forall_nil _ P
              | x :: l0 => @List.Forall_cons _ P x l0 (IH x) (all l0)
              end) alts).
  - apply HSequence.
    exact ((fix all (l : list expr) : Forall P l :=
              match l with
              | [] => @List.Forall_nil _ P
              | x :: l0 => @List.Forall_cons _ P x l0 (IH x) (all l0)
              end) elems).
  - apply HLabeled, IH.
  - apply HAnd, IH.
  - apply HNot, IH.
  - apply HSAnd.
  - apply HSNot.
  - apply HOpt, IH.
  - apply HZero, IH.
  - apply HOne, IH.
  - apply HAction, IH.
  - apply HRef.
  - apply HLit.
  - apply HAny.
  - apply HClass.
Qed.

Section Totality.

Variable quoteForRegexpClass : jsstring -> jsstring.

Local Abbreviation emit := (Emitter.emit quoteForRegexpClass).

Local Abbreviation emits := (Outcome.emits quoteForRegexpClass).

Lemma bind_eq {A B} (m : M A) (k : A -> M B) c a c' :
  m c = Return (a, c') -> bind m k c = k a c'.
Proof. unfold bind. intros ->. reflexivity. Qed.

Lemma lift_eq {A} (m : exc A) a c :
  m = Return a -> lift m c = Return (a, c).
Proof. intros ->. reflexivity. Qed.

(** One step of an emission function: a fresh name, the code of a
    subexpression (by induction), or a template, all of whose variables
    are there. *)
Ltac emission_step :=
  lazymatch goal with
  | |- exists _ _, bind (uid_next ?p) ?k ?c = _ =>
      rewrite (bind_eq (uid_next p) k c _ _ eq_refl); cbv beta
  | |- exists _ _, bind (Emitter.emit _ ?e ?rv) ?k ?c = _ =>
      match goal with
      | H : emits e |- _ =>
          let code := fresh "code" in
          let c' := fresh "c" in
          let E := fresh "E" in
          destruct (H rv c) as (code & c' & E);
          rewrite (bind_eq _ k c _ _ E); cbv beta; clear E
      end
  | |- exists _ _, bind (lift (formatCode ?parts ?vs)) ?k ?c = _ =>
      let code := fresh "code" in
      let E := fresh "E" in
      destruct (formatCode_returns parts vs ltac:(vm_compute; reflexivity))
        as [code E];
      rewrite (bind_eq _ k c _ _ (lift_eq _ _ c E)); cbv beta; clear E
  | |- exists _ _, lift (formatCode ?parts ?vs) ?c = _ =>
      let code := fresh "code" in
      let E := fresh "E" in
      destruct (formatCode_returns parts vs ltac:(vm_compute; reflexivity))
        as [code E];
      exists code, c; apply lift_eq; exact E
  end.

Lemma names_return (elements : list expr) c :
  exists names c',
    mapM (fun _ => uid_next (js "result")) elements c = Return (names, c').
Proof.
  revert c. induction elements as [|e rest IH]; intros c.
  - eexists _, _. reflexivity.
  - cbn [mapM].
    rewrite (bind_eq (uid_next _) _ c _ _ eq_refl). cbv beta.
    destruct (IH (snd (UID.next (js "result") c))) as (names & c' & E).
    rewrite (bind_eq _ _ _ _ _ E). eexists _, _. reflexivity.
Qed.

Lemma emit_returns_always : forall node, emits node.
Proof.
  induction node using expr_nested_ind; intros resultVar c;
    cbn [Emitter.emit]; try solve [repeat emission_step].
  - emission_step.
    generalize dependent c.
    induction H as [|a alts Ha _ IH]; intros c.
    + unfold ret. eauto.
    + destruct (IH c) as (code1 & c1 & E1).
      rewrite (bind_eq _ _ c _ _ E1). cbv beta. clear E1.
      repeat emission_step.
  - emission_step.
    destruct (names_return elements (snd (UID.next (js "savedPos") c)))
      as (names & c1 & E1).
    rewrite (bind_eq _ _ _ _ _ E1). cbv beta. clear E1.
    emission_step.
    match goal with
    | |- exists _ _, bind ?m _ _ = _ =>
        assert (Hloop : exists code1 c2, m c1 = Return (code1, c2))
    end.
    { generalize c1. generalize names.
      induction H as [|a elems Ha _ IH]; intros elemVars c0.
      - unfold ret. eauto.
      - destruct elemVars as [|v elemVars]; [unfold ret; eauto|].
        destruct (IH elemVars c0) as (code1 & c2 & E2).
        rewrite (bind_eq _ _ c0 _ _ E2). cbv beta. clear E2.
        repeat emission_step. }
    destruct Hloop as (code1 & c2 & E2).
    rewrite (bind_eq _ _ _ _ _ E2). cbv beta. clear E2.
    emission_step.
  - apply IHnode.
Qed.

Lemma emit_rule_returns node c :
  exists code c', emit_rule quoteForRegexpClass node c = Return (code, c').
Proof.
  unfold emit_rule.
  rewrite (bind_eq uid_reset _ c _ _ eq_refl). cbv beta.
  emission_step.
  pose proof (emit_returns_always (expression node)) as Hbody.
  destruct (displayName node) as [d|];
    cbn [setReportMatchFailuresCode restoreReportMatchFailuresCode
         reportMatchFailureCode].
  - repeat emission_step.
  - rewrite (bind_eq (lift (Return [])) _ _ _ _ eq_refl). cbv beta.
    rewrite (bind_eq (lift (Return [])) _ _ _ _ eq_refl). cbv beta.
    rewrite (bind_eq (lift (Return [])) _ _ _ _ eq_refl). cbv beta.
    repeat emission_step.
Qed.

Lemma parseFunctionDefinitions_return rs c :
  exists definitions c',
    parseFunctionDefinitions quoteForRegexpClass rs c
    = Return (definitions, c').
Proof.
  unfold parseFunctionDefinitions. revert c.
  induction rs as [|[k r] rs IH]; intros c.
  - eexists _, _. reflexivity.
  - cbn [mapM].
    destruct (emit_rule_returns r c) as (code & c1 & E1).
    rewrite (bind_eq _ _ c _ _ E1). cbv beta.
    destruct (IH c1) as (definitions & c2 & E2).
    rewrite (bind_eq _ _ c1 _ _ E2). eexists _, _. reflexivity.
Qed.

(** X10.  The emitter returns code for every grammar of the AST:
    [formatCode] throws for a variable that is not defined and for a filter
    other than [string], and no template of the emitter refers to a variable
    it is not given or names another filter, whatever the code, the names
    and the literals of the grammar hold. *)
Theorem emitter_never_throws ast :
  exists code, emitter quoteForRegexpClass ast = Return code.
Proof.
  unfold emitter, emit_grammar.
  destruct (parseFunctionDefinitions_return (rules ast) ∅)
    as (definitions & c1 & E1).
  rewrite (bind_eq _ _ _ _ _ E1). cbv beta.
  match goal with
  | |- context [lift (formatCode ?parts ?vs) ?c] =>
      destruct (formatCode_returns parts vs ltac:(vm_compute; reflexivity))
        as [code E];
      rewrite (lift_eq _ _ c E)
  end.
  eexists. reflexivity.
Qed.

End Totality.

End EmitterTotality.

(** ** The emitted parser: more properties *)

Module ParserFacts.
Import Runtime RuntimeFacts ParserStates.

Section Facts.

Variable input : jsstring.
Variable g : grammar.
Variable run_code : jsstring -> nat -> list (jsstring * value) -> value.

Local Abbreviation eval := (Runtime.eval input g run_code).
Local Abbreviation parse_function := (Runtime.parse_function input g run_code).
Local Abbreviation parse := (Runtime.parse input g run_code).

(** *** Positions stay in the input *)

Lemma eval_within n e s s' r :
  within_input input s -> eval n e s = Some (s', r) -> within_input input s'.
Proof.
  intros Hs H.
  apply (eval_keeps input g run_code (within_input input)
           (fun p => p <= length input))
    with (n := n) (e := e) (s := s) (r := r); unfold within_input; simpl; auto.
  - intros t (Ht & _). exact Ht.
  - intros t p (_ & Hr & Hc) Hp. auto.
  - intros t f (Hp & Hr & Hc) _.
    rewrite matchFailed_pos, matchFailed_cache. repeat split; auto.
    unfold matchFailed. destruct (pos t <? _); [exact Hr|].
    destruct (_ <? pos t); simpl; auto.
  - intros t k np x (_ & _ & Hc) Hk. apply (Hc _ _ Hk).
  - intros s0 t k x _ _ (Hp & Hr & Hc). repeat split; auto.
    apply map_Forall_insert_2; auto.
Qed.

Lemma parse_function_within n name s s' r :
  within_input input s -> parse_function n name s = Some (s', r) ->
  within_input input s'.
Proof.
  intros Hs H.
  apply (parse_function_keeps input g run_code (within_input input)
           (fun p => p <= length input))
    with (n := n) (name := name) (s := s) (r := r);
    unfold within_input; simpl; auto.
  - intros t (Ht & _). exact Ht.
  - intros t p (_ & Hr & Hc) Hp. auto.
  - intros t f (Hp & Hr & Hc) _.
    rewrite matchFailed_pos, matchFailed_cache. repeat split; auto.
    unfold matchFailed. destruct (pos t <? _); [exact Hr|].
    destruct (_ <? pos t); simpl; auto.
  - intros t k np x (_ & _ & Hc) Hk. apply (Hc _ _ Hk).
  - intros s0 t k x _ _ (Hp & Hr & Hc). repeat split; auto.
    apply map_Forall_insert_2; auto.
Qed.

Lemma initial_within : within_input input initial_state.
Proof.
  unfold within_input. simpl. repeat split; try lia.
  apply map_Forall_empty.
Qed.

Lemma position_scan_bounds upto :
  let '(line, column, _) := position_scan input upto in
  1 <= line /\ 1 <= column /\ line + column <= upto + 2.
Proof.
  unfold position_scan.
  induction upto as [|k IH]; [simpl; lia|].
  rewrite seq_S, fold_left_app. cbn [fold_left Nat.add].
  destruct (fold_left _ (seq 0 k) (1, 1, false)) as [[line column] seenCR].
  unfold position_step.
  destruct (jsstring_eqb _ [LF]); [destruct (negb seenCR); lia|].
  destruct (_ || _); lia.
Qed.

(** X11.  Whatever rule is called first and however the parse goes, the
    parser ends with [pos] and the position of the rightmost failures inside
    the input (at most [input.length]) and with [reportMatchFailures] on; so
    a syntax error is reported at a line and a column that are at least 1
    and that an input of this length can have. *)
Theorem parse_stays_in_input n :
  (forall name s r,
     parse_function n name initial_state = Some (s, r) ->
     pos s <= length input
     /\ rightmostMatchFailuresPos s <= length input
     /\ reportMatchFailures s = true)
  /\ (forall startRule message line column,
        parse n startRule = Some (ThrownSyntaxError message line column) ->
        1 <= line /\ 1 <= column /\ line + column <= length input + 2).
Proof.
  assert (Hend : forall startRule s r,
             parse_function n startRule initial_state = Some (s, r) ->
             pos s <= length input
             /\ rightmostMatchFailuresPos s <= length input
             /\ reportMatchFailures s = true).
  { intros startRule s r H.
    destruct (parse_function_within _ _ _ _ _ initial_within H)
      as (Hp & Hr & _).
    repeat split; auto.
    unfold Runtime.parse_function, Runtime.call_rule in H.
    destruct (lookup_rule (rules g) startRule) as [node|]; [|discriminate].
    eapply parse_rule_restores in H; [exact H|].
    intros e. apply eval_restores. }
  split; [exact Hend|].
  intros startRule message line column H. unfold Runtime.parse in H.
  assert (Hstart : exists start s r,
             parse_function n start initial_state = Some (s, r)
             /\ finish input s r = ThrownSyntaxError message line column).
  { destruct startRule as [name|].
    - destruct (lookup_rule (rules g) name) as [node|]; [|discriminate].
      destruct (parse_function n name initial_state) as [[s r]|] eqn:E;
        [|discriminate].
      exists name, s, r. split; congruence.
    - destruct (parse_function n (Ast.startRule g) initial_state)
        as [[s r]|] eqn:E; [|discriminate].
      exists (Ast.startRule g), s, r. split; congruence. }
  clear H. destruct Hstart as (start & s & r & E & H).
  destruct (Hend start s r E) as (_ & Hr & _).
  unfold finish in H.
  destruct (is_null r || negb (pos s =? length input)); [|discriminate].
  unfold computeErrorPosition in H.
  pose proof (position_scan_bounds (rightmostMatchFailuresPos s)) as Hb.
  destruct (position_scan input (rightmostMatchFailuresPos s))
    as [[l c] seen].
  inversion H; subst. lia.
Qed.

(** *** The reporting of failures *)

(** X13.  Every fragment leaves [reportMatchFailures] as it found it; and a
    fragment executed while it is off records no failure: the position of
    the rightmost failures and the list of what was expected there are those
    it found. *)
Theorem reporting_discipline n e s s' r :
  eval n e s = Some (s', r) ->
  reportMatchFailures s' = reportMatchFailures s
  /\ (reportMatchFailures s = false ->
      rightmostMatchFailuresPos s' = rightmostMatchFailuresPos s
      /\ rightmostMatchFailuresExpected s'
         = rightmostMatchFailuresExpected s).
Proof.
  intros H. split.
  - eapply eval_restores; eauto.
  - intros Hoff. destruct (eval_silent _ _ _ _ _ _ _ _ Hoff H) as (_ & H1 & H2).
    auto.
Qed.

(** X14.  The predicates [&e] and [!e] record no failure, whatever [e] is
    and whether failures are reported or not, and leave
    [reportMatchFailures] as it was; their result is the empty string or
    [null]; [pos] is put back where a [&e] succeeds and where a [!e] fails. *)
Theorem predicates_are_silent n e :
  (forall s s' r,
     eval n (SimpleAnd e) s = Some (s', r) ->
     rightmostMatchFailuresPos s' = rightmostMatchFailuresPos s
     /\ rightmostMatchFailuresExpected s' = rightmostMatchFailuresExpected s
     /\ reportMatchFailures s' = reportMatchFailures s
     /\ (r = VStr [] /\ pos s' = pos s \/ r = VNull))
  /\ (forall s s' r,
        eval n (SimpleNot e) s = Some (s', r) ->
        rightmostMatchFailuresPos s' = rightmostMatchFailuresPos s
        /\ rightmostMatchFailuresExpected s'
           = rightmostMatchFailuresExpected s
        /\ reportMatchFailures s' = reportMatchFailures s
        /\ (r = VStr [] \/ r = VNull /\ pos s' = pos s)).
Proof.
  split; intros s s' r H; (destruct n as [|n]; [discriminate|]);
    cbn [Runtime.eval] in H;
    destruct (eval n e (set_reportMatchFailures false s)) as [[s1 r1]|] eqn:E;
    try discriminate;
    destruct (eval_silent input g run_code n e
                (set_reportMatchFailures false s) s1 r1 eq_refl E)
      as (_ & H1 & H2);
    simpl in H1, H2;
    destruct (is_null r1); simpl in H; inversion H; subst; simpl;
    repeat split; auto.
Qed.

(** *** What the terminals match *)

(** X12.  A literal, [.] and a class always complete.  One that matches
    gives the text it matched, which is the input from [pos] on, and moves
    [pos] by the length of this text, never beyond the end of the input
    (from a position in the input); one that does not match gives [null]
    and leaves [pos] where it was.  A literal matches its own text; the
    two others match one character, whichever characters the class
    accepts. *)
Theorem terminals_give_the_input n :
  (forall value s,
     pos s <= length input ->
     exists s' r,
       eval (S n) (Literal value) s = Some (s', r)
       /\ (r = VNull /\ pos s' = pos s
           \/ r = VStr value
              /\ substr input (pos s) (length value) = value
              /\ pos s' = pos s + length value /\ pos s' <= length input))
  /\ (forall e s,
        e = Any \/ (exists parts inverted rawText,
                      e = Class parts inverted rawText) ->
        exists s' r,
          eval (S n) e s = Some (s', r)
          /\ (r = VNull /\ pos s' = pos s
              \/ exists c,
                   r = VStr [c] /\ input !! pos s = Some c
                   /\ pos s' = S (pos s) /\ pos s' <= length input)).
Proof.
  split.
  - intros value s Hs. cbn [Runtime.eval].
    destruct (jsstring_eqb _ _) eqn:E; eexists; eexists;
      (split; [reflexivity|]).
    + right. apply JsFacts.jsstring_eqb_eq in E.
      pose proof (JsFacts.substr_eq_bound _ _ _ E).
      simpl. repeat split; auto. lia.
    + left. split; [reflexivity|apply report_pos].
  - intros e s He.
    destruct He as [->|(parts & inverted & rawText & ->)];
      cbn [Runtime.eval].
    + destruct (pos s <? length input) eqn:E; eexists; eexists;
        (split; [reflexivity|]).
      * right. apply Nat.ltb_lt in E.
        destruct (lookup_lt_is_Some_2 input (pos s) E) as [c Hc].
        exists c. unfold charAt. rewrite Hc. simpl. repeat split; auto.
      * left. split; [reflexivity|apply report_pos].
    + destruct (input !! pos s) as [c|] eqn:Hc.
      * destruct (class_matches _ _ _); eexists; eexists;
          (split; [reflexivity|]).
        -- right. exists c. unfold charAt. rewrite Hc. simpl.
           apply lookup_lt_Some in Hc. repeat split; auto.
        -- left. split; [reflexivity|apply report_pos].
      * eexists; eexists; (split; [reflexivity|]).
        left. split; [reflexivity|apply report_pos].
Qed.

(** *** The results of sequences and repetitions *)

Lemma sequence_shape ev savedPos elems :
  forall results s s' r,
    sequence_elements ev savedPos elems results s = Some (s', r) ->
    Forall (fun v => v <> VNull) results ->
    r = VNull /\ pos s' = savedPos
    \/ exists items,
         r = VArr items
         /\ length items = length results + length elems
         /\ Forall (fun v => v <> VNull) items.
Proof.
  induction elems as [|e elems IH]; intros results s s' r H Hres;
    cbn [sequence_elements] in H.
  - inversion H; subst. right. exists results. simpl. auto.
  - destruct (ev e s) as [[s1 r1]|]; [|discriminate].
    destruct (is_null r1) eqn:En.
    + inversion H; subst. left. auto.
    + apply IH in H.
      * destruct H as [H|(items & Hr & Hl & Hi)]; [left; exact H|].
        right. exists items. rewrite length_app in Hl. simpl in *.
        repeat split; auto. lia.
      * apply Forall_app. split; [exact Hres|].
        constructor; [|constructor]. intros ->. discriminate.
Qed.

Lemma while_shape body fuel :
  forall items s r s' r',
    while_loop body fuel items s r = Some (s', r') ->
    Forall (fun v => v <> VNull) items ->
    exists items',
      r' = VArr items'
      /\ Forall (fun v => v <> VNull) items'
      /\ length items <= length items'
      /\ (r <> VNull -> length items < length items').
Proof.
  induction fuel as [|fuel IH]; intros items s r s' r' H Hi;
    cbn [while_loop] in H.
  - destruct (is_null r) eqn:En; [|discriminate].
    inversion H; subst. exists items. repeat split; auto.
    destruct r; try discriminate. congruence.
  - destruct (is_null r) eqn:En.
    + inversion H; subst. exists items. repeat split; auto.
      destruct r; try discriminate. congruence.
    + destruct (body s) as [[s1 r1]|]; [|discriminate].
      apply IH in H.
      * destruct H as (items' & Hr & Hf & Hle & _).
        rewrite length_app in Hle. simpl in Hle.
        exists items'. repeat split; auto; try lia; intros _; lia.
      * apply Forall_app. split; [exact Hi|].
        constructor; [|constructor]. intros ->. discriminate.
Qed.

(** X15.  The result of a sequence is [null], with [pos] put back where the
    sequence started, or an array that holds one result for each element,
    none of them [null]: an action on a sequence finds a value under every
    label. *)
Theorem sequence_result n elements s s' r :
  eval n (Sequence elements) s = Some (s', r) ->
  r = VNull /\ pos s' = pos s
  \/ exists items,
       r = VArr items
       /\ length items = length elements
       /\ Forall (fun v => v <> VNull) items.
Proof.
  intros H. destruct n as [|n]; [discriminate|]. cbn [Runtime.eval] in H.
  apply sequence_shape in H; [|constructor]. exact H.
Qed.

(** X16.  The result of [e?] is never [null]; the result of [e*] is an array
    without [null]; the result of [e+] is [null] or such an array that is
    not empty. *)
Theorem repetition_results n e :
  (forall s s' r, eval n (Optional e) s = Some (s', r) -> r <> VNull)
  /\ (forall s s' r,
        eval n (ZeroOrMore e) s = Some (s', r) ->
        exists items, r = VArr items /\ Forall (fun v => v <> VNull) items)
  /\ (forall s s' r,
        eval n (OneOrMore e) s = Some (s', r) ->
        r = VNull
        \/ exists items,
             r = VArr items /\ items <> []
             /\ Forall (fun v => v <> VNull) items).
Proof.
  repeat split; intros s s' r H; (destruct n as [|n]; [discriminate|]);
    cbn [Runtime.eval] in H;
    (destruct (eval n e s) as [[s1 r1]|]; [|discriminate]).
  - inversion H; subst. destruct r1; simpl; discriminate.
  - apply while_shape in H; [|constructor].
    destruct H as (items & Hr & Hf & _). eauto.
  - destruct (is_null r1) eqn:En; simpl in H.
    + inversion H; subst. left. reflexivity.
    + apply while_shape in H; [|constructor].
      destruct H as (items & Hr & Hf & _ & Hlt).
      right. exists items. repeat split; auto.
      intros ->. simpl in Hlt.
      assert (r1 <> VNull) by (intros ->; discriminate).
      specialize (Hlt H). lia.
Qed.

Lemma matchFailed_if_pos (b : bool) d s :
  pos (if b then matchFailed d s else s) = pos s.
Proof. destruct b; [apply matchFailed_pos|reflexivity]. Qed.

Lemma matchFailed_if_cache (b : bool) d s :
  cache (if b then matchFailed d s else s) = cache s.
Proof. destruct b; [apply matchFailed_cache|reflexivity]. Qed.

(** *** The cache *)

(** X19.  Two cache keys are equal only for the same rule name at the same
    position, whatever characters the names hold. *)
Theorem cache_keys_distinct name1 p1 name2 p2 :
  cacheKey name1 p1 = cacheKey name2 p2 <-> name1 = name2 /\ p1 = p2.
Proof.
  split.
  - apply cacheKey_inj.
  - intros [-> ->]. reflexivity.
Qed.


(** X21.  Memoization does not change what is parsed: a fragment that has
    completed, executed again at the same position in a state whose cache
    holds at least what the first execution left, gives the same result and
    the same final position, and adds nothing to the cache, however much
    more work it is allowed. *)
Theorem memoization_is_transparent n m e s s' r t :
  eval n e s = Some (s', r) ->
  pos t = pos s -> cache s' ⊆ cache t -> n <= m ->
  exists t', eval m e t = Some (t', r)
             /\ pos t' = pos s' /\ cache t' = cache t.
Proof.
  intros H Hp Hc Hnm.
  destruct (eval_replayable input g run_code n e s s' r t H Hp Hc)
    as (t' & Ht & Hp' & Hc').
  exists t'. repeat split; auto.
  eapply eval_fuel_le; eauto.
Qed.

(** *** The contract for code fragments *)


(** *** Repetitions are greedy, and a choice fails where all its
    alternatives fail *)

Lemma while_ends_failed body fuel :
  contractual body ->
  forall items s r s' r',
    cache_contract (cache s) -> is_null r = false ->
    while_loop body fuel items s r = Some (s', r') ->
    exists st, cache_contract (cache st) /\ body st = Some (s', VNull).
Proof.
  intros Hb. induction fuel as [|fuel IH]; intros items s r s' r' Hc Hr H;
    cbn [while_loop] in H; rewrite Hr in H; [discriminate|].
  destruct (body s) as [[s1 r1]|] eqn:E; [|discriminate].
  destruct (Hb _ _ _ Hc E) as [_ Hc1].
  destruct (is_null r1) eqn:En.
  - destruct fuel; cbn [while_loop] in H; rewrite En in H;
      injection H as <- <-; exists s;
      (split; [exact Hc|]); destruct r1; try discriminate; exact E.
  - eapply IH; eauto.
Qed.

(** When no action returns [null]: where [e*] or [e+] ends, [e] does
    not match. Executed once more after the repetition, in the state the
    repetition left, [e] fails, without moving [pos] and with everything it
    needs in the cache. *)
Lemma repetition_is_greedy_pure n e s s' r :
  (forall code p bindings, run_code code p bindings <> VNull) ->
  cache_contract (cache s) ->
  eval n (ZeroOrMore e) s = Some (s', r)
  \/ eval n (OneOrMore e) s = Some (s', r) ->
  exists t',
    eval n e s' = Some (t', VNull) /\ pos t' = pos s' /\ cache t' = cache s'.
Proof.
  intros Hcode Hc H.
  destruct n as [|n]; [destruct H; discriminate|].
  pose proof (contract_when_actions_return_values input g run_code n Hcode e)
    as Hbody.
  assert (Hlast : exists st,
             cache_contract (cache st) /\ eval n e st = Some (s', VNull)).
  { destruct H as [H|H]; cbn [Runtime.eval] in H;
      (destruct (eval n e s) as [[s1 r1]|] eqn:E; [|discriminate]);
      destruct (Hbody _ _ _ Hc E) as [_ Hc1];
      (destruct (is_null r1) eqn:En;
       [|simpl in H; eapply while_ends_failed; eauto]).
    - destruct n; cbn [while_loop] in H; rewrite En in H;
        injection H as <- <-; exists s;
        (split; [exact Hc|]); destruct r1; try discriminate; exact E.
    - simpl in H. injection H as <- <-. exists s.
      split; [exact Hc|]. destruct r1; try discriminate. exact E. }
  destruct Hlast as (st & Hcst & Est).
  destruct (Hbody _ _ _ Hcst Est) as [Hpos _].
  apply contract_true in Hpos. simpl in Hpos.
  destruct (eval_replayable input g run_code n e st s' VNull s' Est Hpos
              ltac:(reflexivity)) as (t' & Et & Hp & Hc').
  exists t'. repeat split; auto.
  apply eval_S. exact Et.
Qed.

Lemma choice_all_failed n alts :
  (forall e, contractual (eval n e)) ->
  forall s s',
    cache_contract (cache s) ->
    choice_alternatives (eval n) alts s = Some (s', VNull) ->
    pos s' = pos s
    /\ forall a, a ∈ alts ->
         exists t', eval n a s' = Some (t', VNull)
                    /\ pos t' = pos s' /\ cache t' = cache s'.
Proof.
  intros Hev. induction alts as [|a alts IH]; intros s s' Hc H;
    cbn [choice_alternatives] in H.
  - injection H as <-. split; [reflexivity|]. intros a Ha. inversion Ha.
  - destruct (eval n a s) as [[s1 r1]|] eqn:E; [|discriminate].
    destruct (Hev a _ _ _ Hc E) as [H1 Hc1].
    apply contract_true in H1.
    destruct (is_null r1) eqn:En; [|injection H as _ ->; discriminate En].
    destruct r1; try discriminate.
    destruct (IH _ _ Hc1 H) as [Hp Hall].
    split; [congruence|].
    intros a' Ha'. apply elem_of_cons in Ha' as [->|Ha']; [|auto].
    destruct (eval_replayable input g run_code n a s s1 VNull s' E)
      as (t' & Et & Hpt & Hct); [congruence| |].
    + apply (choice_mono (eval n) alts
               (fun e => eval_mono input g run_code n e) _ _ _ H).
    + exists t'. repeat split; auto. congruence.
Qed.

(** When no action returns [null]: a choice that fails leaves [pos]
    where it was, and each of its alternatives fails there. Executed again
    in the state the choice left, any alternative gives [null] without
    moving [pos] and without adding to the cache. *)
Lemma failed_choice_has_no_match_pure n alternatives s s' :
  (forall code p bindings, run_code code p bindings <> VNull) ->
  cache_contract (cache s) ->
  eval n (Choice alternatives) s = Some (s', VNull) ->
  pos s' = pos s
  /\ forall a, a ∈ alternatives ->
       exists t', eval n a s' = Some (t', VNull)
                  /\ pos t' = pos s' /\ cache t' = cache s'.
Proof.
  intros Hcode Hc H. destruct n as [|n]; [discriminate|].
  cbn [Runtime.eval] in H.
  destruct (choice_all_failed n alternatives
              (contract_when_actions_return_values input g run_code n Hcode)
              s s' Hc H) as [Hp Hall].
  split; [exact Hp|].
  intros a Ha. destruct (Hall a Ha) as (t' & Et & Hp' & Hc').
  exists t'. repeat split; auto. apply eval_S. exact Et.
Qed.

(** *** Ordered choice *)

(** X18.  The alternatives of a choice are tried from left to right, each in
    the state the one before left, and the first one that matches decides:
    after alternatives that have failed, an alternative that matches gives
    the result and the final state of the choice, whatever alternatives
    follow it; one that fails hands over to those that follow. *)
Theorem choice_is_ordered n failing a rest s s1 :
  eval (S n) (Choice failing) s = Some (s1, VNull) ->
  (forall s2 r2,
     eval n a s1 = Some (s2, r2) -> r2 <> VNull ->
     eval (S n) (Choice (failing ++ a :: rest)) s = Some (s2, r2))
  /\ (forall s2,
        eval n a s1 = Some (s2, VNull) ->
        eval (S n) (Choice (failing ++ a :: rest)) s
        = eval (S n) (Choice rest) s2).
Proof.
  cbn [Runtime.eval]. revert s.
  induction failing as [|f failing IH]; intros s Hf;
    cbn [choice_alternatives app] in *.
  - injection Hf as <-. split.
    + intros s2 r2 E Hr. rewrite E. destruct r2; simpl; congruence.
    + intros s2 E. rewrite E. reflexivity.
  - destruct (eval n f s) as [[s' r']|]; [|discriminate].
    destruct (is_null r') eqn:En.
    + apply IH; exact Hf.
    + injection Hf as _ ->. discriminate En.
Qed.

(** *** The arguments of an action *)

Lemma sequence_bindings_labelled elems :
  forall before items,
    length items = length elems ->
    sequence_bindings (VArr (before ++ items)) (length before) elems
    = labelled elems items.
Proof.
  unfold labelled.
  induction elems as [|e elems IH]; intros before items Hl;
    [reflexivity|].
  destruct items as [|v items]; [discriminate|].
  simpl in Hl.
  assert (Hrest : sequence_bindings (VArr (before ++ v :: items))
                    (S (length before)) elems
                  = flat_map (fun x : expr * value =>
                                match fst x with
                                | Labeled label _ => [(label, snd x)]
                                | _ => []
                                end) (zip elems items)).
  { specialize (IH (before ++ [v]) items ltac:(lia)).
    rewrite <- app_assoc, length_app in IH. simpl in IH.
    rewrite Nat.add_1_r in IH. exact IH. }
  assert (Hv : value_index (VArr (before ++ v :: items)) (length before) = v).
  { simpl. rewrite list_lookup_middle by reflexivity. reflexivity. }
  destruct e; cbn [sequence_bindings zip zip_with flat_map fst snd app];
    rewrite Hrest; try reflexivity.
  rewrite Hv. reflexivity.
Qed.

(** X17.  An action on a sequence that has matched is called at the position
    after the sequence, with each label of the sequence bound to the result
    of the element that carries it, in the order of the elements. *)
Theorem action_gets_labelled_results n elements code s s1 items :
  eval n (Sequence elements) s = Some (s1, VArr items) ->
  eval (S n) (Action (Sequence elements) code) s
  = Some (s1, run_code code (pos s1) (labelled elements items)).
Proof.
  intros H. cbn [Runtime.eval]. rewrite H. cbn [is_null negb].
  assert (Hl : length items = length elements).
  { destruct n as [|n]; [discriminate|]. cbn [Runtime.eval] in H.
    apply sequence_shape in H; [|constructor].
    destruct H as [[Hnull _]|(items' & Hi & Hl & _)]; [discriminate|].
    injection Hi as <-. exact Hl. }
  unfold action_bindings.
  rewrite <- (sequence_bindings_labelled elements [] items Hl).
  reflexivity.
Qed.

(** *** Parsing does not depend on the reporting of failures *)

Lemma report_same f s t :
  same_parse s t -> same_parse (report f s) (report f t).
Proof.
  intros [Hp Hc]. unfold same_parse, report.
  destruct (reportMatchFailures s), (reportMatchFailures t);
    rewrite ?matchFailed_pos, ?matchFailed_cache; auto.
Qed.

Lemma choice_transfers ev alts :
  (forall e, transfers (ev e)) -> transfers (choice_alternatives ev alts).
Proof.
  intros Hev. induction alts as [|a alts IH]; intros s t s' r Hst H;
    cbn [choice_alternatives] in *.
  - inversion H; subst. eauto.
  - destruct (ev a s) as [[s1 r1]|] eqn:E; [|discriminate].
    destruct (Hev a _ _ _ _ Hst E) as (t1 & Et & H1). rewrite Et.
    destruct (is_null r1); [eapply IH; eauto|].
    inversion H; subst. eauto.
Qed.

Lemma sequence_transfers ev savedPos elems :
  (forall e, transfers (ev e)) ->
  forall results, transfers (sequence_elements ev savedPos elems results).
Proof.
  intros Hev. induction elems as [|e elems IH]; intros results s t s' r Hst H;
    cbn [sequence_elements] in *.
  - inversion H; subst. eauto.
  - destruct (ev e s) as [[s1 r1]|] eqn:E; [|discriminate].
    destruct (Hev e _ _ _ _ Hst E) as (t1 & Et & H1). rewrite Et.
    destruct (is_null r1); [|eapply IH; eauto].
    inversion H; subst. eexists. split; [reflexivity|].
    destruct H1 as [_ Hc]. split; auto.
Qed.

Lemma while_transfers body fuel :
  transfers body ->
  forall items r s t s' r',
    same_parse s t -> while_loop body fuel items s r = Some (s', r') ->
    exists t', while_loop body fuel items t r = Some (t', r')
               /\ same_parse s' t'.
Proof.
  intros Hb. induction fuel as [|fuel IH]; intros items r s t s' r' Hst H;
    cbn [while_loop] in *.
  - destruct (is_null r); [|discriminate]. inversion H; subst. eauto.
  - destruct (is_null r); [inversion H; subst; eauto|].
    destruct (body s) as [[s1 r1]|] eqn:E; [|discriminate].
    destruct (Hb _ _ _ _ Hst E) as (t1 & Et & H1). rewrite Et.
    eapply IH; eauto.
Qed.

Lemma parse_rule_transfers ev node :
  (forall e, transfers (ev e)) -> transfers (parse_rule ev node).
Proof.
  intros Hev s t s' r [Hp Hc] H. unfold parse_rule in *.
  rewrite <- Hp, <- Hc.
  destruct (cache s !! cacheKey (name node) (pos s)) as [[np res]|].
  - inversion H; subst. eexists. split; [reflexivity|]. split; auto.
  - assert (Hgen : forall s0 t0,
               same_parse s0 t0 ->
               forall s1, ev (expression node) s0 = Some (s1, r) ->
               exists t1, ev (expression node) t0 = Some (t1, r)
                          /\ same_parse s1 t1).
    { intros s0 t0 H0 s1 E. eapply Hev; eauto. }
    destruct (displayName node) as [d|].
    + destruct (ev _ (set_reportMatchFailures false s)) as [[s1 r1]|] eqn:E;
        [|discriminate].
      destruct (Hev _ (set_reportMatchFailures false s)
                  (set_reportMatchFailures false t) _ _
                  (conj Hp Hc) E) as (t1 & Et & Hp1 & Hc1).
      rewrite Et. injection H as <- <-. eexists. split; [reflexivity|].
      unfold same_parse. cbn [pos cache set_cache].
      rewrite !matchFailed_if_pos, !matchFailed_if_cache. simpl.
      rewrite Hp1, Hc1. auto.
    + destruct (ev _ s) as [[s1 r1]|] eqn:E; [|discriminate].
      destruct (Hev _ s t _ _ (conj Hp Hc) E) as (t1 & Et & Hp1 & Hc1).
      rewrite Et. injection H as <- <-. eexists. split; [reflexivity|].
      unfold same_parse; simpl. rewrite Hp1, Hc1; auto.
Qed.

Lemma eval_transfers n : forall e, transfers (eval n e).
Proof.
  induction n as [|n IH]; intros e s t s' r Hst H; [discriminate|].
  pose proof Hst as [Hp Hc].
  destruct e; cbn [Runtime.eval] in *.
  - eapply choice_transfers; eauto.
  - rewrite <- Hp. eapply sequence_transfers; eauto.
  - eapply IH; eauto.
  - destruct (eval n e _) as [[s1 r1]|] eqn:E; [|discriminate].
    destruct (IH e (set_reportMatchFailures false s)
                (set_reportMatchFailures false t) _ _ (conj Hp Hc) E)
      as (t1 & Et & Hp1 & Hc1).
    rewrite Et. rewrite <- Hp.
    destruct (is_null r1); simpl in *; inversion H; subst;
      (eexists; split; [reflexivity|]); split; simpl; auto.
  - destruct (eval n e _) as [[s1 r1]|] eqn:E; [|discriminate].
    destruct (IH e (set_reportMatchFailures false s)
                (set_reportMatchFailures false t) _ _ (conj Hp Hc) E)
      as (t1 & Et & Hp1 & Hc1).
    rewrite Et. rewrite <- Hp.
    destruct (is_null r1); simpl in *; inversion H; subst;
      (eexists; split; [reflexivity|]); split; simpl; auto.
  - inversion H; subst. rewrite <- Hp. eauto.
  - inversion H; subst. rewrite <- Hp. eauto.
  - destruct (eval n e s) as [[s1 r1]|] eqn:E; [|discriminate].
    destruct (IH e _ _ _ _ Hst E) as (t1 & Et & H1). rewrite Et.
    inversion H; subst. eauto.
  - destruct (eval n e s) as [[s1 r1]|] eqn:E; [|discriminate].
    destruct (IH e _ _ _ _ Hst E) as (t1 & Et & H1). rewrite Et.
    eapply while_transfers; eauto; apply IH.
  - destruct (eval n e s) as [[s1 r1]|] eqn:E; [|discriminate].
    destruct (IH e _ _ _ _ Hst E) as (t1 & Et & H1). rewrite Et.
    destruct (negb (is_null r1)).
    + eapply while_transfers; eauto; apply IH.
    + inversion H; subst. eauto.
  - destruct (eval n e s) as [[s1 r1]|] eqn:E; [|discriminate].
    destruct (IH e _ _ _ _ Hst E) as (t1 & Et & H1). rewrite Et.
    inversion H; subst. destruct H1 as [Hp1 Hc1]. rewrite Hp1.
    eexists. split; [reflexivity|]. split; auto.
  - unfold Runtime.call_rule in *.
    destruct (lookup_rule (rules g) _) as [node|]; [|discriminate].
    eapply parse_rule_transfers; eauto.
  - rewrite <- Hp.
    destruct (jsstring_eqb _ _); inversion H; subst;
      (eexists; split; [reflexivity|]).
    + split; simpl; auto.
    + apply report_same; auto.
  - rewrite <- Hp.
    destruct (_ <? _); inversion H; subst;
      (eexists; split; [reflexivity|]).
    + split; simpl; auto.
    + apply report_same; auto.
  - rewrite <- Hp.
    destruct (input !! pos s) as [c|];
      [destruct (class_matches _ _ _)|]; inversion H; subst;
      (eexists; split; [reflexivity|]).
    + split; simpl; auto.
    + apply report_same; auto.
    + apply report_same; auto.
Qed.

(** X25.  What a fragment or a parse function matches does not depend on the
    reporting of failures: from two states at the same position with the
    same cache, whatever [reportMatchFailures] and the failures recorded in
    each, it gives the same result, the same final position and the same
    cache. So an expression matches inside a predicate or a named rule as it
    does outside. *)
Theorem parsing_ignores_reporting n :
  (forall e s t s' r,
     pos s = pos t -> cache s = cache t ->
     eval n e s = Some (s', r) ->
     exists t', eval n e t = Some (t', r)
                /\ pos s' = pos t' /\ cache s' = cache t')
  /\ (forall name s t s' r,
        pos s = pos t -> cache s = cache t ->
        parse_function n name s = Some (s', r) ->
        exists t', parse_function n name t = Some (t', r)
                   /\ pos s' = pos t' /\ cache s' = cache t').
Proof.
  split.
  - intros e s t s' r Hp Hc H.
    exact (eval_transfers n e s t s' r (conj Hp Hc) H).
  - intros name s t s' r Hp Hc H.
    unfold Runtime.parse_function, Runtime.call_rule in *.
    destruct (lookup_rule (rules g) name) as [node|]; [|discriminate].
    exact (parse_rule_transfers (eval n) node (eval_transfers n)
             s t s' r (conj Hp Hc) H).
Qed.

End Facts.

End ParserFacts.

(** ** The error that is reported *)

Module ErrorFacts.
Import Runtime EmitterFacts JsFacts.

(** *** The position *)

Lemma scan_as_fold input upto :
  upto <= length input ->
  position_scan input upto
  = fold_left (fun st c => position_step [c] st) (take upto input)
              (1, 1, false).
Proof.
  unfold position_scan. induction upto as [|k IH]; intros Hk.
  - reflexivity.
  - destruct (lookup_lt_is_Some_2 input k ltac:(lia)) as [x Hx].
    rewrite seq_S, fold_left_app, (take_S_r _ _ _ Hx), fold_left_app.
    rewrite IH by lia. simpl. unfold charAt. rewrite Hx. reflexivity.
Qed.

Lemma split_on_snoc c l :
  exists pieces lastp,
    split_on LF l = pieces ++ [lastp]
    /\ split_on LF (l ++ [c])
       = if (c =? LF)%N then pieces ++ [lastp; []]
         else pieces ++ [lastp ++ [c]].
Proof.
  induction l as [|x l (pieces & lastp & E1 & E2)].
  - exists [], []. split; [reflexivity|]. simpl.
    destruct (c =? LF)%N; reflexivity.
  - cbn [app split_on]. rewrite E1, E2.
    destruct (x =? LF)%N.
    + exists ([] :: pieces), lastp. split; [reflexivity|].
      destruct (c =? LF)%N; reflexivity.
    + destruct pieces as [|p pieces].
      * exists [], (x :: lastp). split; [reflexivity|].
        destruct (c =? LF)%N; reflexivity.
      * exists ((x :: p) :: pieces), lastp. split; [reflexivity|].
        destruct (c =? LF)%N; reflexivity.
Qed.

Lemma fold_by_lines l :
  Forall (fun c => c <> CR /\ c <> LS /\ c <> PS) l ->
  exists pieces lastp,
    split_on LF l = pieces ++ [lastp]
    /\ fold_left (fun st c => position_step [c] st) l (1, 1, false)
       = (S (length pieces), S (length lastp), false).
Proof.
  induction l as [|c l IH] using rev_ind; intros Hl.
  - exists [], []. split; reflexivity.
  - apply Forall_app in Hl as [Hl Hc].
    apply Forall_cons in Hc as [(H1 & H2 & H3) _].
    destruct (IH Hl) as (pieces & lastp & E & F).
    destruct (split_on_snoc c l) as (pieces' & lastp' & E1 & E2).
    rewrite E in E1. apply app_inj_tail in E1 as [<- <-].
    rewrite fold_left_app, F. cbn [fold_left]. unfold position_step.
    cbn [jsstring_eqb]. rewrite !andb_true_r.
    destruct (N.eqb_spec c LF) as [->|Hn].
    + exists (pieces ++ [lastp]), [].
      split; [rewrite E2, <- app_assoc; reflexivity|].
      rewrite length_app. simpl. repeat f_equal. lia.
    + destruct (N.eqb_spec c CR); [contradiction|].
      destruct (N.eqb_spec c LS); [contradiction|].
      destruct (N.eqb_spec c PS); [contradiction|].
      exists pieces, (lastp ++ [c]). split; [exact E2|].
      rewrite length_app. simpl. repeat f_equal. lia.
Qed.

(** X26.  Where the lines of the input before the position of the rightmost
    failures end in line feeds only (no carriage return, U+2028 or U+2029
    before it), the position reported is the one that splitting would give,
    which the comment of [computeErrorPosition] says was the first idea: the
    line is the number of pieces of that part of the input split at the line
    feeds, and the column is one more than the length of the last piece. *)
Theorem position_by_lines input s :
  rightmostMatchFailuresPos s <= length input ->
  Forall (fun c => c <> CR /\ c <> LS /\ c <> PS)
         (take (rightmostMatchFailuresPos s) input) ->
  computeErrorPosition input s
  = (length (split_on LF (take (rightmostMatchFailuresPos s) input)),
     S (length (default []
          (last (split_on LF (take (rightmostMatchFailuresPos s) input)))))).
Proof.
  intros Hle Hl. unfold computeErrorPosition.
  rewrite scan_as_fold by exact Hle.
  destruct (fold_by_lines _ Hl) as (pieces & lastp & E & F).
  rewrite F, E, last_snoc, length_app. simpl. f_equal. lia.
Qed.

(** *** The list of what was expected *)

#[local] Instance js_le_total' : Total js_le.
Proof. intros a b. apply js_leb_total. Qed.

#[local] Instance js_le_trans' : Transitive js_le.
Proof. intros a b c. apply js_leb_trans. Qed.

#[local] Instance js_le_antisym' : AntiSymm (=) js_le.
Proof. intros a b. apply js_leb_antisym. Qed.

Lemma unique_adjacent_elem lastFailure l x :
  x ∈ unique_adjacent lastFailure l -> x ∈ l.
Proof.
  revert lastFailure. induction l as [|f rest IH]; intros lastFailure H;
    cbn [unique_adjacent] in H; [exact H|].
  destruct (match lastFailure with
            | Some l => jsstring_eqb f l
            | None => false
            end).
  - right. eapply IH; eauto.
  - apply elem_of_cons in H as [->|H]; [left|right; eapply IH; eauto].
Qed.

Lemma unique_adjacent_keeps lastFailure l x :
  x ∈ l -> lastFailure = Some x \/ x ∈ unique_adjacent lastFailure l.
Proof.
  revert lastFailure. induction l as [|f rest IH]; intros lastFailure H;
    [inversion H|].
  cbn [unique_adjacent].
  destruct (match lastFailure with
            | Some l => jsstring_eqb f l
            | None => false
            end) eqn:E.
  - destruct lastFailure as [y|]; [|discriminate].
    apply jsstring_eqb_eq in E. subst y.
    apply elem_of_cons in H as [->|H]; [left; reflexivity|].
    apply IH; exact H.
  - right. apply elem_of_cons in H as [->|H]; [left|].
    destruct (IH (Some f) H) as [[= ->]|Hin]; [left|right; exact Hin].
Qed.

Lemma unique_adjacent_sorted lastFailure l :
  StronglySorted js_le l ->
  StronglySorted js_le (unique_adjacent lastFailure l).
Proof.
  intros Hs. revert lastFailure.
  induction Hs as [|f rest Hs IH Hf]; intros lastFailure;
    cbn [unique_adjacent]; [constructor|].
  destruct (match lastFailure with
            | Some l => jsstring_eqb f l
            | None => false
            end); [apply IH|].
  constructor; [apply IH|].
  apply Forall_forall. intros x Hx. apply unique_adjacent_elem in Hx.
  rewrite Forall_forall in Hf. auto.
Qed.

Lemma unique_adjacent_NoDup l :
  StronglySorted js_le l ->
  forall lastFailure,
    (forall y, lastFailure = Some y -> Forall (js_le y) l) ->
    NoDup (unique_adjacent lastFailure l)
    /\ forall y, lastFailure = Some y -> y ∉ unique_adjacent lastFailure l.
Proof.
  intros Hs.
  induction Hs as [|f rest Hs IH Hf]; intros lastFailure Hlast;
    cbn [unique_adjacent].
  - split; [constructor|]. intros y _ H. inversion H.
  - destruct (match lastFailure with
              | Some l => jsstring_eqb f l
              | None => false
              end) eqn:E.
    + apply IH. intros y Hy. specialize (Hlast y Hy).
      apply Forall_cons in Hlast as [_ Hlast]. exact Hlast.
    + destruct (IH (Some f)) as [Hnd Hnot].
      { intros y [= <-]. exact Hf. }
      split; [constructor; auto|].
      intros y -> Hin. specialize (Hlast y eq_refl).
      apply Forall_cons in Hlast as [Hyf Hyrest].
      apply elem_of_cons in Hin as [->|Hin].
      * rewrite jsstring_eqb_refl in E. discriminate.
      * apply unique_adjacent_elem in Hin.
        rewrite Forall_forall in Hf. specialize (Hf y Hin).
        assert (y = f) by (apply js_leb_antisym; assumption).
        subst. rewrite jsstring_eqb_refl in E. discriminate.
Qed.

Lemma unique_sorted_canonical l1 l2 :
  (forall f, f ∈ l1 <-> f ∈ l2) ->
  unique_adjacent None (js_sort l1) = unique_adjacent None (js_sort l2).
Proof.
  intros Hsame.
  assert (Hsorted : forall l, StronglySorted js_le (js_sort l)).
  { intros l. apply Sorted_StronglySorted; [apply _|].
    apply Sorted_merge_sort; apply _. }
  assert (Helem : forall l x,
             x ∈ unique_adjacent None (js_sort l) <-> x ∈ l).
  { intros l x. unfold js_sort at 1. split.
    - intros H. apply unique_adjacent_elem in H.
      unfold js_sort in H. rewrite merge_sort_Permutation in H. exact H.
    - intros H.
      assert (H' : x ∈ js_sort l)
        by (unfold js_sort; rewrite merge_sort_Permutation; exact H).
      destruct (unique_adjacent_keeps None _ _ H') as [|Hin];
        [discriminate|exact Hin]. }
  apply (Sorted_unique js_le).
  - apply StronglySorted_Sorted, unique_adjacent_sorted, Hsorted.
  - apply StronglySorted_Sorted, unique_adjacent_sorted, Hsorted.
  - apply NoDup_Permutation.
    + apply (unique_adjacent_NoDup _ (Hsorted l1) None). discriminate.
    + apply (unique_adjacent_NoDup _ (Hsorted l2) None). discriminate.
    + intros x. rewrite !Helem. apply Hsame.
Qed.

(** X28.  The list of expectations in the message depends only on which
    failures were recorded at the rightmost position, not on the order in
    which the parser met them nor on how many times each was recorded. *)
Theorem expected_is_canonical failures1 failures2 :
  (forall f, f ∈ failures1 <-> f ∈ failures2) ->
  buildExpected failures1 = buildExpected failures2.
Proof.
  intros Hsame. unfold buildExpected.
  rewrite (unique_sorted_canonical _ _ Hsame). reflexivity.
Qed.

End ErrorFacts.

(** ** The parser with user code that keeps state *)

Module StatefulFacts.
Import Runtime RuntimeFacts Stateful.

Section Facts.

Variable U : Type.
Variable input : jsstring.
Variable g : grammar.
Variable run_code :
  jsstring -> nat -> list (jsstring * value) -> U -> value * U.

Local Abbreviation pstate := (Stateful.pstate U).
Local Abbreviation fragment := (Stateful.fragment U).
Local Abbreviation eval := (Stateful.eval U input g run_code).
Local Abbreviation parse_function :=
  (Stateful.parse_function U input g run_code).
Local Abbreviation call_rule := (Stateful.call_rule U g).
Local Abbreviation parse_rule := (Stateful.parse_rule U).
Local Abbreviation choice_alternatives := (Stateful.choice_alternatives U).
Local Abbreviation sequence_elements := (Stateful.sequence_elements U).
Local Abbreviation while_loop := (Stateful.while_loop U).
Local Abbreviation call_code := (Stateful.call_code U run_code).
Local Abbreviation iterates := (Stateful.iterates U input g run_code).

(** *** More fuel does not change a result *)

Lemma st_choice_le (ev ev' : expr -> fragment) alts :
  (forall e st x, ev e st = Some x -> ev' e st = Some x) ->
  forall st x,
    choice_alternatives ev alts st = Some x ->
    choice_alternatives ev' alts st = Some x.
Proof.
  intros Hev. induction alts as [|a alts IH]; intros st x H; simpl in *; auto.
  destruct (ev a st) as [[st1 r1]|] eqn:E; [|discriminate].
  rewrite (Hev _ _ _ E). destruct (is_null r1); auto.
Qed.

Lemma st_sequence_le (ev ev' : expr -> fragment) savedPos elems :
  (forall e st x, ev e st = Some x -> ev' e st = Some x) ->
  forall results st x,
    sequence_elements ev savedPos elems results st = Some x ->
    sequence_elements ev' savedPos elems results st = Some x.
Proof.
  intros Hev.
  induction elems as [|a elems IH]; intros results st x H; simpl in *; auto.
  destruct (ev a st) as [[st1 r1]|] eqn:E; [|discriminate].
  rewrite (Hev _ _ _ E). destruct (is_null r1); auto.
Qed.

Lemma st_while_le (body body' : fragment) fuel :
  (forall st x, body st = Some x -> body' st = Some x) ->
  forall fuel' items st r x,
    fuel <= fuel' ->
    while_loop body fuel items st r = Some x ->
    while_loop body' fuel' items st r = Some x.
Proof.
  intros Hb.
  induction fuel as [|fuel IH]; intros fuel' items st r x Hle H; simpl in H.
  - destruct fuel'; simpl; destruct (is_null r); congruence.
  - destruct fuel' as [|fuel']; [lia|]. simpl.
    destruct (is_null r); auto.
    destruct (body st) as [[st1 r1]|] eqn:E; [|discriminate].
    rewrite (Hb _ _ E). apply IH; auto. lia.
Qed.

Lemma st_parse_rule_le (ev ev' : expr -> fragment) node :
  (forall e st x, ev e st = Some x -> ev' e st = Some x) ->
  forall st x,
    parse_rule ev node st = Some x -> parse_rule ev' node st = Some x.
Proof.
  intros Hev st x H. unfold Stateful.parse_rule in *.
  destruct (cache (parser st) !! _) as [[np res]|]; auto.
  destruct (ev (expression node) _) as [[st1 r1]|] eqn:E; [|discriminate].
  rewrite (Hev _ _ _ E). auto.
Qed.

Lemma st_call_rule_le (ev ev' : expr -> fragment) name :
  (forall e st x, ev e st = Some x -> ev' e st = Some x) ->
  forall st x,
    call_rule ev name st = Some x -> call_rule ev' name st = Some x.
Proof.
  intros Hev st x H. unfold Stateful.call_rule in *.
  destruct (lookup_rule (rules g) name); [|discriminate].
  eapply st_parse_rule_le; eauto.
Qed.

Lemma st_eval_S n :
  forall e st x, eval n e st = Some x -> eval (S n) e st = Some x.
Proof.
  induction n as [|n IH]; intros e st x H; [discriminate|].
  destruct e; cbn [Stateful.eval] in *.
  - eapply st_choice_le; eauto.
  - eapply st_sequence_le; eauto.
  - apply IH; auto.
  - destruct (eval n e _) as [[st1 r1]|] eqn:E; [|discriminate].
    rewrite (IH _ _ _ E). auto.
  - destruct (eval n e _) as [[st1 r1]|] eqn:E; [|discriminate].
    rewrite (IH _ _ _ E). auto.
  - auto.
  - auto.
  - destruct (eval n e _) as [[st1 r1]|] eqn:E; [|discriminate].
    rewrite (IH _ _ _ E). auto.
  - destruct (eval n e _) as [[st1 r1]|] eqn:E; [|discriminate].
    rewrite (IH _ _ _ E). eapply st_while_le; [apply IH| |exact H]. lia.
  - destruct (eval n e _) as [[st1 r1]|] eqn:E; [|discriminate].
    rewrite (IH _ _ _ E). destruct (negb (is_null r1)); auto.
    eapply st_while_le; [apply IH| |exact H]. lia.
  - destruct (eval n e _) as [[st1 r1]|] eqn:E; [|discriminate].
    rewrite (IH _ _ _ E). auto.
  - eapply st_call_rule_le; eauto.
  - auto.
  - auto.
  - auto.
Qed.

Lemma st_eval_fuel_le n m e st x :
  n <= m -> eval n e st = Some x -> eval m e st = Some x.
Proof.
  induction 1 as [|m Hle IH]; auto. intros Hn. apply st_eval_S; auto.
Qed.

(** Two executions of a fragment from the same state that complete give
    the same result. *)
Lemma st_eval_fuel_det n m e st x y :
  eval n e st = Some x -> eval m e st = Some y -> x = y.
Proof.
  intros Hx Hy.
  destruct (Nat.le_ge_cases n m) as [Hle|Hle].
  - apply (st_eval_fuel_le _ _ _ _ _ Hle) in Hx. congruence.
  - apply (st_eval_fuel_le _ _ _ _ _ Hle) in Hy. congruence.
Qed.

(** *** Invariants of the variables of the parser

    An invariant of the variables of the parser that the assignments of
    the templates keep is kept by every fragment, whatever the user's code
    does with its own variables. *)
Section Invariant.

Variable I : state -> Prop.
Variable okpos : nat -> Prop.

Hypothesis I_pos : forall s, I s -> okpos (pos s).
Hypothesis I_set_pos : forall s p, I s -> okpos p -> I (set_pos p s).
Hypothesis I_input : forall p, p <= length input -> okpos p.
Hypothesis I_report_off :
  forall s, I s -> I (set_reportMatchFailures false s).
Hypothesis I_report_restore :
  forall s0 s, I s0 -> I s ->
    I (set_reportMatchFailures (reportMatchFailures s0) s).
Hypothesis I_matchFailed :
  forall s f, I s -> reportMatchFailures s = true -> I (matchFailed f s).
Hypothesis I_lookup :
  forall s k np r, I s -> cache s !! k = Some (np, r) -> okpos np.
Hypothesis I_store :
  forall s0 s k r, I s0 -> cache s0 !! k = None -> I s ->
    I (set_cache (<[k := (pos s, r)]> (cache s)) s).

Lemma st_I_report s f : I s -> I (report f s).
Proof. unfold report. destruct (reportMatchFailures s) eqn:E; auto. Qed.

Lemma st_choice_keeps (ev : expr -> fragment) alts :
  (forall e st st' r, I (parser st) -> ev e st = Some (st', r) ->
     I (parser st')) ->
  forall st st' r,
    I (parser st) -> choice_alternatives ev alts st = Some (st', r) ->
    I (parser st').
Proof.
  intros Hev. induction alts as [|a alts IH]; intros st st' r Hs H; simpl in H.
  - congruence.
  - destruct (ev a st) as [[st1 r1]|] eqn:E; [|discriminate].
    apply Hev in E; auto.
    destruct (is_null r1); [eapply IH; eauto | congruence].
Qed.

Lemma st_sequence_keeps (ev : expr -> fragment) savedPos elems :
  (forall e st st' r, I (parser st) -> ev e st = Some (st', r) ->
     I (parser st')) ->
  okpos savedPos ->
  forall results st st' r,
    I (parser st) ->
    sequence_elements ev savedPos elems results st = Some (st', r) ->
    I (parser st').
Proof.
  intros Hev Hp.
  induction elems as [|a elems IH]; intros results st st' r Hs H; simpl in H.
  - congruence.
  - destruct (ev a st) as [[st1 r1]|] eqn:E; [|discriminate].
    apply Hev in E; auto.
    destruct (is_null r1).
    + inversion H; subst. simpl. auto.
    + eapply IH; eauto.
Qed.

Lemma st_while_keeps (body : fragment) fuel :
  (forall st st' r, I (parser st) -> body st = Some (st', r) ->
     I (parser st')) ->
  forall items st r st' r',
    I (parser st) -> while_loop body fuel items st r = Some (st', r') ->
    I (parser st').
Proof.
  intros Hb.
  induction fuel as [|fuel IH]; intros items st r st' r' Hs H; simpl in H.
  - destruct (is_null r); congruence.
  - destruct (is_null r); [congruence|].
    destruct (body st) as [[st1 r1]|] eqn:E; [|discriminate].
    eapply IH; [|exact H]. eapply Hb; eauto.
Qed.

Lemma st_parse_rule_keeps (ev : expr -> fragment) node :
  (forall e st st' r, I (parser st) -> ev e st = Some (st', r) ->
     I (parser st')) ->
  forall st st' r,
    I (parser st) -> parse_rule ev node st = Some (st', r) -> I (parser st').
Proof.
  intros Hev st st' r Hs H. unfold Stateful.parse_rule in H.
  destruct (cache (parser st) !! cacheKey (name node) (pos (parser st)))
    as [[np res]|] eqn:Hc.
  - inversion H; subst. simpl. eauto.
  - destruct (displayName node) as [d|].
    + destruct (ev (expression node) _) as [[st1 r1]|] eqn:E; [|discriminate].
      apply Hev in E; [|simpl; auto].
      inversion H; subst; clear H. cbn [parser].
      pose proof (I_report_restore _ _ Hs E) as Hr.
      apply I_store with (s0 := parser st); auto.
      match goal with |- I (if ?b then _ else _) => destruct b eqn:Eb end; auto.
      apply andb_true_iff in Eb as [Eb _]. apply I_matchFailed; auto.
    + destruct (ev (expression node) st) as [[st1 r1]|] eqn:E; [|discriminate].
      apply Hev in E; auto.
      inversion H; subst; clear H. cbn [parser].
      apply I_store with (s0 := parser st); auto.
Qed.

Lemma st_eval_keeps n :
  forall e st st' r,
    I (parser st) -> eval n e st = Some (st', r) -> I (parser st').
Proof.
  induction n as [|n IH]; intros e st st' r Hs H; [discriminate|].
  destruct e; cbn [Stateful.eval] in H.
  - eapply st_choice_keeps; eauto.
  - eapply st_sequence_keeps; eauto.
  - eapply IH; eauto.
  - destruct (eval n e _) as [[st1 r1]|] eqn:E; [|discriminate].
    apply IH in E; [|simpl; auto].
    destruct (negb (is_null r1)); inversion H; subst; simpl; auto 6.
  - destruct (eval n e _) as [[st1 r1]|] eqn:E; [|discriminate].
    apply IH in E; [|simpl; auto].
    destruct (is_null r1); inversion H; subst; simpl; auto 6.
  - unfold Stateful.call_code in H. destruct (run_code _ _ _ _).
    inversion H; subst; auto.
  - unfold Stateful.call_code in H. destruct (run_code _ _ _ _).
    inversion H; subst; auto.
  - destruct (eval n e st) as [[st1 r1]|] eqn:E; [|discriminate].
    apply IH in E; auto. inversion H; subst; auto.
  - destruct (eval n e st) as [[st1 r1]|] eqn:E; [|discriminate].
    apply IH in E; auto. eapply st_while_keeps; [apply IH| |]; eauto.
  - destruct (eval n e st) as [[st1 r1]|] eqn:E; [|discriminate].
    apply IH in E; auto.
    destruct (negb (is_null r1)).
    + eapply st_while_keeps; [apply IH| |]; eauto.
    + inversion H; subst; auto.
  - destruct (eval n e st) as [[st1 r1]|] eqn:E; [|discriminate].
    apply IH in E; auto.
    destruct (negb (is_null r1)).
    + unfold Stateful.call_code in H. destruct (run_code _ _ _ _).
      inversion H; subst; auto.
    + inversion H; subst; auto.
  - unfold Stateful.call_rule in H.
    destruct (lookup_rule (rules g) _); [|discriminate].
    eapply st_parse_rule_keeps; eauto.
  - destruct (jsstring_eqb _ _) eqn:E.
    + inversion H; subst. simpl. apply I_set_pos; auto.
      apply JsFacts.jsstring_eqb_eq, JsFacts.substr_eq_bound in E.
      destruct E as [E|E].
      * rewrite E, Nat.add_0_r. auto.
      * auto.
    + inversion H; subst. simpl. apply st_I_report; auto.
  - destruct (pos (parser st) <? length input) eqn:E.
    + inversion H; subst. simpl. apply I_set_pos; auto.
      apply Nat.ltb_lt in E. apply I_input. lia.
    + inversion H; subst. simpl. apply st_I_report; auto.
  - destruct (input !! pos (parser st)) as [c|] eqn:E.
    + destruct (class_matches _ _ _).
      * inversion H; subst. simpl. apply I_set_pos; auto.
        apply lookup_lt_Some in E. apply I_input. lia.
      * inversion H; subst. simpl. apply st_I_report; auto.
    + inversion H; subst. simpl. apply st_I_report; auto.
Qed.

End Invariant.

(** Positions stay within a bound that holds for the input, for [pos] and
    for the positions in the cache. *)
Lemma st_eval_bounded B n e st st' r :
  length input <= B -> bounded B (parser st) ->
  eval n e st = Some (st', r) -> bounded B (parser st').
Proof.
  intros HB Hs H.
  apply (st_eval_keeps (bounded B) (fun p => p <= B))
    with (n := n) (e := e) (st := st) (r := r); unfold bounded; simpl; auto.
  - intros t [Ht _]. exact Ht.
  - intros t p [_ Ht] Hp. auto.
  - intros p Hp. lia.
  - intros t f [Hp Hc] _. rewrite matchFailed_pos, matchFailed_cache. auto.
  - intros t k np x [_ Hc] Hk. apply (Hc _ _ Hk).
  - intros s0 t k x _ _ [Hp Hc]. split; [exact Hp|].
    apply map_Forall_insert_2; auto.
Qed.

(** *** User code that keeps no state

    With such code the parser does what the parser of [Runtime] does for
    the function [f]. *)
Section Pure.

Variable f : jsstring -> nat -> list (jsstring * value) -> value.
Hypothesis Hpure : Stateful.pure_user_code U run_code f.

Local Abbreviation peval := (Runtime.eval input g f).

Lemma mirrors_choice pev (ev : expr -> fragment) alts :
  (forall e, mirrors (pev e) (ev e)) ->
  mirrors (Runtime.choice_alternatives pev alts) (choice_alternatives ev alts).
Proof.
  intros Hev. induction alts as [|a alts IH]; intros st;
    cbn [Runtime.choice_alternatives Stateful.choice_alternatives].
  - exists []. rewrite app_nil_r. destruct st; reflexivity.
  - pose proof (Hev a st) as Ha.
    destruct (pev a (parser st)) as [[s1 r1]|].
    + destruct Ha as [l1 ->].
      destruct (is_null r1).
      * specialize (IH (PState s1 (user st) (calls st ++ l1))).
        cbn [parser user calls] in IH.
        destruct (Runtime.choice_alternatives pev alts s1) as [[s' r]|].
        -- destruct IH as [l ->]. exists (l1 ++ l).
           rewrite app_assoc. reflexivity.
        -- exact IH.
      * exists l1. reflexivity.
    + rewrite Ha. reflexivity.
Qed.

Lemma mirrors_sequence pev (ev : expr -> fragment) savedPos elems :
  (forall e, mirrors (pev e) (ev e)) ->
  forall results,
    mirrors (Runtime.sequence_elements pev savedPos elems results)
            (sequence_elements ev savedPos elems results).
Proof.
  intros Hev. induction elems as [|a elems IH]; intros results st;
    cbn [Runtime.sequence_elements Stateful.sequence_elements].
  - exists []. rewrite app_nil_r. destruct st; reflexivity.
  - pose proof (Hev a st) as Ha.
    destruct (pev a (parser st)) as [[s1 r1]|].
    + destruct Ha as [l1 ->].
      destruct (is_null r1).
      * exists l1. reflexivity.
      * specialize (IH (results ++ [r1])
                       (PState s1 (user st) (calls st ++ l1))).
        cbn [parser user calls] in IH.
        destruct (Runtime.sequence_elements pev savedPos elems _ s1)
          as [[s' r]|].
        -- destruct IH as [l ->]. exists (l1 ++ l).
           rewrite app_assoc. reflexivity.
        -- exact IH.
    + rewrite Ha. reflexivity.
Qed.

Lemma mirrors_while pbody (body : fragment) fuel :
  mirrors pbody body ->
  forall items r st,
    match Runtime.while_loop pbody fuel items (parser st) r with
    | Some (s', r') =>
        exists l,
          while_loop body fuel items st r
          = Some (PState s' (user st) (calls st ++ l), r')
    | None => while_loop body fuel items st r = None
    end.
Proof.
  intros Hb. induction fuel as [|fuel IH]; intros items r st;
    cbn [Runtime.while_loop Stateful.while_loop].
  - destruct (is_null r); [|reflexivity].
    exists []. rewrite app_nil_r. destruct st; reflexivity.
  - destruct (is_null r).
    + exists []. rewrite app_nil_r. destruct st; reflexivity.
    + pose proof (Hb st) as Ha.
      destruct (pbody (parser st)) as [[s1 r1]|].
      * destruct Ha as [l1 ->].
        specialize (IH (items ++ [r]) r1
                       (PState s1 (user st) (calls st ++ l1))).
        cbn [parser user calls] in IH.
        destruct (Runtime.while_loop pbody fuel _ s1 r1) as [[s' r']|].
        -- destruct IH as [l ->]. exists (l1 ++ l).
           rewrite app_assoc. reflexivity.
        -- exact IH.
      * rewrite Ha. reflexivity.
Qed.

Lemma mirrors_parse_rule pev (ev : expr -> fragment) node :
  (forall e, mirrors (pev e) (ev e)) ->
  mirrors (Runtime.parse_rule pev node) (parse_rule ev node).
Proof.
  intros Hev st. unfold Runtime.parse_rule, Stateful.parse_rule.
  destruct (cache (parser st) !! _) as [[np res]|].
  - eexists. reflexivity.
  - destruct (displayName node) as [d|].
    + pose proof (Hev (expression node)
                    (with_parser (set_reportMatchFailures false (parser st))
                                 st)) as Ha.
      cbn [parser user calls with_parser] in Ha.
      destruct (pev (expression node) _) as [[s1 r1]|].
      * destruct Ha as [l1 ->]. cbn [parser user calls].
        eexists. rewrite <- app_assoc. reflexivity.
      * rewrite Ha. reflexivity.
    + pose proof (Hev (expression node) st) as Ha.
      destruct (pev (expression node) _) as [[s1 r1]|].
      * destruct Ha as [l1 ->]. cbn [parser user calls].
        eexists. rewrite <- app_assoc. reflexivity.
      * rewrite Ha. reflexivity.
Qed.

Lemma call_code_pure code bindings st :
  call_code code bindings st
  = (st, f code (pos (parser st)) bindings).
Proof.
  unfold Stateful.call_code. rewrite Hpure. destruct st; reflexivity.
Qed.

Lemma mirrors_eval n : forall e, mirrors (peval n e) (eval n e).
Proof.
  induction n as [|n IH]; intros e st; [reflexivity|].
  assert (Hst : forall r,
             exists l, @Some (pstate * value) (st, r)
                       = Some (PState (parser st) (user st) (calls st ++ l),
                               r)).
  { intros r. exists []. rewrite app_nil_r. destruct st; reflexivity. }
  destruct e; cbn [Runtime.eval Stateful.eval].
  - apply mirrors_choice; auto.
  - apply mirrors_sequence; auto.
  - apply IH.
  - pose proof (IH e (with_parser (set_reportMatchFailures false (parser st))
                                  st)) as Ha.
    cbn [parser user calls with_parser] in Ha.
    destruct (peval n e _) as [[s1 r1]|].
    + destruct Ha as [l1 ->]. cbn [parser user calls with_parser].
      destruct (negb (is_null r1)); exists l1; reflexivity.
    + rewrite Ha. reflexivity.
  - pose proof (IH e (with_parser (set_reportMatchFailures false (parser st))
                                  st)) as Ha.
    cbn [parser user calls with_parser] in Ha.
    destruct (peval n e _) as [[s1 r1]|].
    + destruct Ha as [l1 ->]. cbn [parser user calls with_parser].
      destruct (is_null r1); exists l1; reflexivity.
    + rewrite Ha. reflexivity.
  - rewrite call_code_pure. apply Hst.
  - rewrite call_code_pure. apply Hst.
  - pose proof (IH e st) as Ha.
    destruct (peval n e _) as [[s1 r1]|].
    + destruct Ha as [l1 ->]. exists l1. reflexivity.
    + rewrite Ha. reflexivity.
  - pose proof (IH e st) as Ha.
    destruct (peval n e _) as [[s1 r1]|].
    + destruct Ha as [l1 ->].
      pose proof (mirrors_while _ _ n (IH e) [] r1
                    (PState s1 (user st) (calls st ++ l1))) as Hw.
      cbn [parser user calls] in Hw.
      destruct (Runtime.while_loop _ n [] s1 r1) as [[s' r']|].
      * destruct Hw as [l ->]. exists (l1 ++ l).
        rewrite app_assoc. reflexivity.
      * exact Hw.
    + rewrite Ha. reflexivity.
  - pose proof (IH e st) as Ha.
    destruct (peval n e _) as [[s1 r1]|].
    + destruct Ha as [l1 ->].
      destruct (negb (is_null r1)); [|exists l1; reflexivity].
      pose proof (mirrors_while _ _ n (IH e) [] r1
                    (PState s1 (user st) (calls st ++ l1))) as Hw.
      cbn [parser user calls] in Hw.
      destruct (Runtime.while_loop _ n [] s1 r1) as [[s' r']|].
      * destruct Hw as [l ->]. exists (l1 ++ l).
        rewrite app_assoc. reflexivity.
      * exact Hw.
    + rewrite Ha. reflexivity.
  - pose proof (IH e st) as Ha.
    destruct (peval n e _) as [[s1 r1]|].
    + destruct Ha as [l1 ->].
      destruct (negb (is_null r1)); [|exists l1; reflexivity].
      rewrite call_code_pure. exists l1. reflexivity.
    + rewrite Ha. reflexivity.
  - unfold Runtime.call_rule, Stateful.call_rule.
    destruct (lookup_rule (rules g) _) as [node|]; [|reflexivity].
    apply mirrors_parse_rule; auto.
  - destruct (jsstring_eqb _ _); exists []; rewrite app_nil_r; reflexivity.
  - destruct (_ <? _); exists []; rewrite app_nil_r; reflexivity.
  - destruct (input !! _) as [c|]; [destruct (class_matches _ _ _)|];
      exists []; rewrite app_nil_r; reflexivity.
Qed.

(** The two directions of [mirrors_eval]. *)
Lemma eval_erase n e st st' r :
  eval n e st = Some (st', r) ->
  peval n e (parser st) = Some (parser st', r)
  /\ user st' = user st /\ exists l, calls st' = calls st ++ l.
Proof.
  intros H. pose proof (mirrors_eval n e st) as Hm.
  destruct (peval n e (parser st)) as [[s' r']|].
  - destruct Hm as [l Hm]. rewrite Hm in H. injection H as <- <-.
    cbn [parser user calls]. eauto.
  - congruence.
Qed.

Lemma eval_lift n e st s' r :
  peval n e (parser st) = Some (s', r) ->
  exists l, eval n e st = Some (PState s' (user st) (calls st ++ l), r).
Proof.
  intros H. pose proof (mirrors_eval n e st) as Hm.
  rewrite H in Hm. exact Hm.
Qed.

End Pure.

(** *** The calls of a parse and the cache *)

Lemma answered_same (st st' : pstate) :
  cache (parser st') = cache (parser st) -> calls st' = calls st ->
  answered st -> answered st'.
Proof. unfold answered. intros -> ->. auto. Qed.

Lemma answered_choice (ev : expr -> fragment) alts :
  (forall e st st' r, answered st -> ev e st = Some (st', r) ->
     answered st') ->
  forall st st' r,
    answered st -> choice_alternatives ev alts st = Some (st', r) ->
    answered st'.
Proof.
  intros Hev. induction alts as [|a alts IH]; intros st st' r Hs H; simpl in H.
  - inversion H; subst; assumption.
  - destruct (ev a st) as [[st1 r1]|] eqn:E; [|discriminate].
    apply Hev in E; auto.
    destruct (is_null r1); [eapply IH; eauto|].
    inversion H; subst; assumption.
Qed.

Lemma answered_sequence (ev : expr -> fragment) savedPos elems :
  (forall e st st' r, answered st -> ev e st = Some (st', r) ->
     answered st') ->
  forall results st st' r,
    answered st ->
    sequence_elements ev savedPos elems results st = Some (st', r) ->
    answered st'.
Proof.
  intros Hev.
  induction elems as [|a elems IH]; intros results st st' r Hs H; simpl in H.
  - inversion H; subst; assumption.
  - destruct (ev a st) as [[st1 r1]|] eqn:E; [|discriminate].
    apply Hev in E; auto.
    destruct (is_null r1).
    + inversion H; subst. eapply answered_same; [| |exact E]; reflexivity.
    + eapply IH; eauto.
Qed.

Lemma answered_while (body : fragment) fuel :
  (forall st st' r, answered st -> body st = Some (st', r) -> answered st') ->
  forall items st r st' r',
    answered st -> while_loop body fuel items st r = Some (st', r') ->
    answered st'.
Proof.
  intros Hb.
  induction fuel as [|fuel IH]; intros items st r st' r' Hs H; simpl in H.
  - destruct (is_null r); [|discriminate]. inversion H; subst; assumption.
  - destruct (is_null r); [inversion H; subst; assumption|].
    destruct (body st) as [[st1 r1]|] eqn:E; [|discriminate].
    eapply IH; [|exact H]. eapply Hb; eauto.
Qed.

(** The call that ends is answered by the cache, with or without
    state in the user's code. *)
Lemma parse_rule_answers (ev : expr -> fragment) node st st' r :
  parse_rule ev node st = Some (st', r) ->
  cache (parser st') !! cacheKey (name node) (pos (parser st))
  = Some (pos (parser st'), r)
  /\ last (calls st')
     = Some (Call (name node) (pos (parser st)) (pos (parser st')) r).
Proof.
  unfold Stateful.parse_rule.
  destruct (cache (parser st) !! _) as [[np res]|] eqn:Hc.
  - intros [= <- <-]. cbn [parser calls]. rewrite last_snoc. auto.
  - destruct (ev (expression node) _) as [[st1 r1]|]; [|discriminate].
    intros [= <- <-]. cbn [parser calls pos cache set_cache].
    rewrite lookup_insert_eq, last_snoc. auto.
Qed.

(** A call at a position whose entry is in the cache returns the entry:
    the result is the cached result, [pos] is the cached position, and
    nothing else changes. *)
Lemma parse_rule_cached (ev : expr -> fragment) node st np r :
  cache (parser st) !! cacheKey (name node) (pos (parser st)) = Some (np, r) ->
  parse_rule ev node st
  = Some (PState (set_pos np (parser st)) (user st)
                 (calls st ++ [Call (name node) (pos (parser st)) np r]),
          r).
Proof. unfold Stateful.parse_rule. intros ->. reflexivity. Qed.

Section Pure.

Variable f : jsstring -> nat -> list (jsstring * value) -> value.
Hypothesis Hpure : Stateful.pure_user_code U run_code f.

(** The rules are listed under their names. *)
Hypothesis Hnamed :
  forall k node, lookup_rule (rules g) k = Some node -> name node = k.

Local Abbreviation peval := (Runtime.eval input g f).

Lemma answered_parse_rule n node :
  (forall e st st' r, answered st -> eval n e st = Some (st', r) ->
     answered st') ->
  lookup_rule (rules g) (name node) = Some node ->
  forall st st' r,
    answered st -> parse_rule (eval n) node st = Some (st', r) ->
    answered st'.
Proof.
  intros Hev Hl st st' r Hs H.
  pose proof (parse_rule_answers _ _ _ _ _ H) as [Hnew _].
  unfold Stateful.parse_rule in H.
  destruct (cache (parser st) !! cacheKey (name node) (pos (parser st)))
    as [[np res]|] eqn:Hc.
  - injection H as <- <-. intros c Hin. cbn [parser calls] in *.
    apply elem_of_app in Hin as [Hin|Hin]; [apply Hs; exact Hin|].
    apply list_elem_of_singleton in Hin. subst c. exact Hc.
  - assert (Hbody : forall st0 st1 r1,
               parser st0 = match displayName node with
                            | Some _ =>
                                set_reportMatchFailures false (parser st)
                            | None => parser st
                            end ->
               calls st0 = calls st ->
               eval n (expression node) st0 = Some (st1, r1) ->
               answered st1
               /\ cache (parser st1)
                    !! cacheKey (name node) (pos (parser st)) = None).
    { intros st0 st1 r1 Hp0 Hc0 E. split.
      - eapply Hev; [|exact E].
        eapply answered_same; [| |exact Hs]; [|exact Hc0].
        rewrite Hp0. destruct (displayName node); reflexivity.
      - destruct (eval_erase f Hpure _ _ _ _ _ E) as (Ep & _).
        rewrite Hp0 in Ep.
        exact (store_is_fresh input g f Hnamed n node (parser st)
                 (parser st1) r1 Hl Hc Ep). }
    destruct (displayName node) as [d|].
    + destruct (eval n (expression node) _) as [[st1 r1]|] eqn:E;
        [|discriminate].
      destruct (Hbody (with_parser
                         (set_reportMatchFailures false (parser st)) st)
                      st1 r1 eq_refl eq_refl E) as [Ha Hfresh].
      injection H as <- <-. intros c Hin.
      cbn [parser calls] in Hin, Hnew |- *.
      apply elem_of_app in Hin as [Hin|Hin].
      * cbn [cache set_cache]. rewrite ParserFacts.matchFailed_if_cache. simpl.
        rewrite lookup_insert_ne; [apply Ha; exact Hin|].
        intros Heq. specialize (Ha c Hin). rewrite <- Heq in Ha.
        congruence.
      * apply list_elem_of_singleton in Hin. subst c. exact Hnew.
    + destruct (eval n (expression node) st) as [[st1 r1]|] eqn:E;
        [|discriminate].
      destruct (Hbody st st1 r1 eq_refl eq_refl E) as [Ha Hfresh].
      injection H as <- <-. intros c Hin.
      cbn [parser calls] in Hin, Hnew |- *.
      apply elem_of_app in Hin as [Hin|Hin].
      * cbn [cache set_cache].
        rewrite lookup_insert_ne; [apply Ha; exact Hin|].
        intros Heq. specialize (Ha c Hin). rewrite <- Heq in Ha.
        congruence.
      * apply list_elem_of_singleton in Hin. subst c. exact Hnew.
Qed.

Lemma answered_eval n :
  forall e st st' r,
    answered st -> eval n e st = Some (st', r) -> answered st'.
Proof.
  induction n as [|n IH]; intros e st st' r Hs H; [discriminate|].
  destruct e; cbn [Stateful.eval] in H.
  - eapply answered_choice; eauto.
  - eapply answered_sequence; eauto.
  - eapply IH; eauto.
  - destruct (eval n e _) as [[st1 r1]|] eqn:E; [|discriminate].
    apply IH in E; [|eapply answered_same; [| |exact Hs]; reflexivity].
    destruct (negb (is_null r1)); inversion H; subst;
      (eapply answered_same; [| |exact E]; reflexivity).
  - destruct (eval n e _) as [[st1 r1]|] eqn:E; [|discriminate].
    apply IH in E; [|eapply answered_same; [| |exact Hs]; reflexivity].
    destruct (is_null r1); inversion H; subst;
      (eapply answered_same; [| |exact E]; reflexivity).
  - rewrite (call_code_pure f Hpure) in H. inversion H; subst; auto.
  - rewrite (call_code_pure f Hpure) in H. inversion H; subst; auto.
  - destruct (eval n e st) as [[st1 r1]|] eqn:E; [|discriminate].
    apply IH in E; auto. inversion H; subst; auto.
  - destruct (eval n e st) as [[st1 r1]|] eqn:E; [|discriminate].
    apply IH in E; auto. eapply answered_while; [apply IH| |]; eauto.
  - destruct (eval n e st) as [[st1 r1]|] eqn:E; [|discriminate].
    apply IH in E; auto.
    destruct (negb (is_null r1)).
    + eapply answered_while; [apply IH| |]; eauto.
    + inversion H; subst; auto.
  - destruct (eval n e st) as [[st1 r1]|] eqn:E; [|discriminate].
    apply IH in E; auto.
    destruct (negb (is_null r1)).
    + rewrite (call_code_pure f Hpure) in H. inversion H; subst; auto.
    + inversion H; subst; auto.
  - unfold Stateful.call_rule in H.
    destruct (lookup_rule (rules g) _) as [node|] eqn:El; [|discriminate].
    eapply answered_parse_rule; eauto.
    rewrite (Hnamed _ _ El). exact El.
  - destruct (jsstring_eqb _ _); inversion H; subst;
      (eapply answered_same; [| |exact Hs]; [|reflexivity]); simpl; auto.
    unfold report. destruct (reportMatchFailures _); auto.
    apply matchFailed_cache.
  - destruct (_ <? _); inversion H; subst;
      (eapply answered_same; [| |exact Hs]; [|reflexivity]); simpl; auto.
    unfold report. destruct (reportMatchFailures _); auto.
    apply matchFailed_cache.
  - destruct (input !! _) as [c|]; [destruct (class_matches _ _ _)|];
      inversion H; subst;
      (eapply answered_same; [| |exact Hs]; [|reflexivity]); simpl; auto;
      unfold report; destruct (reportMatchFailures _); auto;
      apply matchFailed_cache.
Qed.

End Pure.



Lemma answered_coherent (st : pstate) : answered st -> coherent st.
Proof.
  intros Ha c1 c2 H1 H2 Hn Hp.
  pose proof (Ha c1 H1) as E1. pose proof (Ha c2 H2) as E2.
  rewrite Hn, Hp, E2 in E1. injection E1 as <- <-. auto.
Qed.

Lemma answered_initial (u : U) : answered (initial u).
Proof. intros c Hc. inversion Hc. Qed.

(** *** The packrat cache *)

(** C2 (as amended).  For user code that keeps no state (what it returns
    is a function of the code, the position and the arguments) and rules
    listed under their names.  (1) When a call of [parse_R] entered at
    position [p] has completed, the cache maps the key [R@p], the name,
    an at sign and the position in decimal, to the final position and the
    result of the call, and the call is the last one completed.  (2) Keys
    are equal only for the same rule at the same position.  (3) A call of
    [parse_R] at a position whose key has an entry returns the result of
    the entry and sets [pos] to its position, and changes nothing else.
    (4) A fragment keeps every call completed so far answered by the
    cache: the entry of its rule at its position holds what the call left
    and returned.  (5) So, where the completed calls are answered, a call
    of the rule of a completed call at the position of that call returns
    the result of that call and sets [pos] to the position that call
    left; and any two calls of the same rule at the same position,
    completed at any depth of the parse, left the same position and
    returned the same result.  (6) The calls completed in a parse are
    answered, whichever rule the parse starts with. *)
Theorem packrat_cache_coherence f :
  Stateful.pure_user_code U run_code f ->
  (forall k node, lookup_rule (rules g) k = Some node -> name node = k) ->
  (forall n R node st st1 r,
     lookup_rule (rules g) R = Some node ->
     parse_function n R st = Some (st1, r) ->
     cacheKey R (pos (parser st))
     = R ++ js "@" ++ to_decimal (pos (parser st))
     /\ cache (parser st1) !! cacheKey R (pos (parser st))
        = Some (pos (parser st1), r)
     /\ last (calls st1)
        = Some (Call R (pos (parser st)) (pos (parser st1)) r))
  /\ (forall R p R' p',
        cacheKey R' p' = cacheKey R p -> R' = R /\ p' = p)
  /\ (forall m R node st np r,
        lookup_rule (rules g) R = Some node ->
        cache (parser st) !! cacheKey R (pos (parser st)) = Some (np, r) ->
        parse_function m R st
        = Some (PState (set_pos np (parser st)) (user st)
                       (calls st ++ [Call R (pos (parser st)) np r]),
                r))
  /\ (forall n e st st' r,
        answered st -> eval n e st = Some (st', r) -> answered st')
  /\ (forall st,
        answered st ->
        (forall m c node,
           c ∈ calls st ->
           lookup_rule (rules g) (call_rule_name c) = Some node ->
           call_pos c = pos (parser st) ->
           parse_function m (call_rule_name c) st
           = Some (PState (set_pos (call_nextPos c) (parser st)) (user st)
                          (calls st ++ [c]),
                   call_result c))
        /\ coherent st)
  /\ (forall n R u st' r,
        parse_function n R (initial u) = Some (st', r) -> answered st').
Proof.
  intros Hpure Hnamed.
  assert (Hhit : forall m R node st np r,
             lookup_rule (rules g) R = Some node ->
             cache (parser st) !! cacheKey R (pos (parser st))
             = Some (np, r) ->
             parse_function m R st
             = Some (PState (set_pos np (parser st)) (user st)
                            (calls st ++ [Call R (pos (parser st)) np r]),
                     r)).
  { intros m R node st np r Hl Hc.
    unfold Stateful.parse_function, Stateful.call_rule. rewrite Hl.
    pose proof (Hnamed _ _ Hl) as Hn.
    rewrite <- Hn in Hc |- *. apply parse_rule_cached. exact Hc. }
  split; [|split; [|split; [|split; [|split]]]].
  - intros n R node st st1 r Hl H.
    split; [reflexivity|].
    unfold Stateful.parse_function, Stateful.call_rule in H.
    rewrite Hl in H. apply parse_rule_answers in H.
    rewrite (Hnamed _ _ Hl) in H. exact H.
  - intros R p R' p' H. apply cacheKey_inj. exact H.
  - exact Hhit.
  - intros n e st st' r. apply (answered_eval f Hpure Hnamed).
  - intros st Ha. split; [|apply answered_coherent; exact Ha].
    intros m c node Hin Hl Hp.
    pose proof (Ha c Hin) as Hc. rewrite Hp in Hc.
    rewrite (Hhit m _ node st _ _ Hl Hc). rewrite <- Hp.
    destruct c; reflexivity.
  - intros n R u st' r H.
    unfold Stateful.parse_function, Stateful.call_rule in H.
    destruct (lookup_rule (rules g) R) as [node|] eqn:El; [|discriminate].
    eapply (answered_parse_rule f Hpure Hnamed n node);
      [| |exact (answered_initial u)|exact H].
    + intros e0 s0 s1 r0. apply (answered_eval f Hpure Hnamed).
    + rewrite (Hnamed _ _ El). exact El.
Qed.


(** X23.  For user code that keeps no state and never returns [null]:
    where [e*] or [e+] ends, [e] does not match.  Executed once more
    after the repetition, in the state the repetition left, [e] fails,
    without moving [pos] and without changing the cache. *)
Theorem repetition_is_greedy f n e st st' r :
  Stateful.pure_user_code U run_code f ->
  (forall code p bindings, f code p bindings <> VNull) ->
  cache_contract (cache (parser st)) ->
  eval n (ZeroOrMore e) st = Some (st', r)
  \/ eval n (OneOrMore e) st = Some (st', r) ->
  exists t',
    eval n e st' = Some (t', VNull)
    /\ pos (parser t') = pos (parser st')
    /\ cache (parser t') = cache (parser st').
Proof.
  intros Hpure Hcode Hc H.
  assert (Hp : Runtime.eval input g f n (ZeroOrMore e) (parser st)
               = Some (parser st', r)
               \/ Runtime.eval input g f n (OneOrMore e) (parser st)
                  = Some (parser st', r)).
  { destruct H as [H|H]; [left|right];
      apply (eval_erase f Hpure) in H; apply H. }
  destruct (ParserFacts.repetition_is_greedy_pure input g f n e (parser st)
              (parser st') r Hcode Hc Hp) as (t' & Et & Hpos & Hcache).
  destruct (eval_lift f Hpure _ _ _ _ _ Et) as [l El].
  eexists. split; [exact El|]. auto.
Qed.

(** X24.  For user code that keeps no state and never returns [null]: a
    choice that fails leaves [pos] where it was, and each of its
    alternatives fails there.  Executed again in the state the choice
    left, any alternative gives [null] without moving [pos] and without
    changing the cache. *)
Theorem failed_choice_has_no_match f n alternatives st st' :
  Stateful.pure_user_code U run_code f ->
  (forall code p bindings, f code p bindings <> VNull) ->
  cache_contract (cache (parser st)) ->
  eval n (Choice alternatives) st = Some (st', VNull) ->
  pos (parser st') = pos (parser st)
  /\ forall a, a ∈ alternatives ->
       exists t', eval n a st' = Some (t', VNull)
                  /\ pos (parser t') = pos (parser st')
                  /\ cache (parser t') = cache (parser st').
Proof.
  intros Hpure Hcode Hc H.
  apply (eval_erase f Hpure) in H. destruct H as (H & _).
  destruct (ParserFacts.failed_choice_has_no_match_pure input g f n
              alternatives (parser st) (parser st') Hcode Hc H)
    as [Hp Hall].
  split; [exact Hp|].
  intros a Ha. destruct (Hall a Ha) as (t' & Et & Hpos & Hcache).
  destruct (eval_lift f Hpure _ _ _ _ _ Et) as [l El].
  eexists. split; [exact El|]. auto.
Qed.

(** *** The loops of repetitions *)

Lemma iterates_snoc e st t n t1 v :
  iterates e st t -> eval n e t = Some (t1, v) -> v <> VNull ->
  iterates e st t1.
Proof.
  intros Hi E Hv. induction Hi as [st|st n0 st1 v0 t E0 Hv0 Hi IH].
  - eapply iterates_next; [exact E|exact Hv|apply iterates_here].
  - eapply iterates_next; [exact E0|exact Hv0|apply IH; exact E].
Qed.

(** The loop ends when its body always completes and moves [pos] forward
    whenever it succeeds, in the states in which the loop executes it. *)
Lemma st_while_terminates B e st0 :
  length input <= B ->
  (forall t, iterates e st0 t -> exists n x, eval n e t = Some x) ->
  (forall n t t' v,
     iterates e st0 t -> eval n e t = Some (t', v) -> v <> VNull ->
     pos (parser t) < pos (parser t')) ->
  forall d t r items,
    (r <> VNull -> iterates e st0 t) ->
    bounded B (parser t) -> B - pos (parser t) <= d ->
    exists n x, while_loop (eval n e) n items t r = Some x.
Proof.
  intros HB Htotal Hadv.
  induction d as [|d IH]; intros t r items Hl Hb Hd.
  - destruct (is_null r) eqn:En.
    + exists 0. simpl. rewrite En. eauto.
    + assert (Hr : r <> VNull) by (intros ->; discriminate).
      destruct (Htotal t (Hl Hr)) as (n1 & [t1 r1] & E1).
      destruct (is_null r1) eqn:En1.
      * exists (S n1). cbn [Stateful.while_loop]. rewrite En.
        rewrite (st_eval_S _ _ _ _ E1).
        destruct n1; cbn [Stateful.while_loop]; rewrite En1; eauto.
      * exfalso.
        assert (Hlt : pos (parser t) < pos (parser t1)).
        { eapply Hadv; eauto. intros ->. discriminate. }
        pose proof (st_eval_bounded _ _ _ _ _ _ HB Hb E1) as [Hp1 _].
        destruct Hb as [Hp _]. lia.
  - destruct (is_null r) eqn:En.
    + exists 0. simpl. rewrite En. eauto.
    + assert (Hr : r <> VNull) by (intros ->; discriminate).
      destruct (Htotal t (Hl Hr)) as (n1 & [t1 r1] & E1).
      pose proof (st_eval_bounded _ _ _ _ _ _ HB Hb E1) as Hb1.
      destruct (is_null r1) eqn:En1.
      * exists (S n1). cbn [Stateful.while_loop]. rewrite En.
        rewrite (st_eval_S _ _ _ _ E1).
        destruct n1; cbn [Stateful.while_loop]; rewrite En1; eauto.
      * assert (Hr1 : r1 <> VNull) by (intros ->; discriminate).
        assert (Hlt : pos (parser t) < pos (parser t1)).
        { eapply Hadv; eauto. }
        assert (Hl1 : iterates e st0 t1)
          by (eapply iterates_snoc; eauto).
        destruct (IH t1 r1 (items ++ [r]) (fun _ => Hl1) Hb1)
          as (n2 & x & E2); [lia|].
        exists (S (Nat.max n1 n2)), x. cbn [Stateful.while_loop]. rewrite En.
        rewrite (st_eval_fuel_le n1 (S (Nat.max n1 n2)) _ _ _ ltac:(lia) E1).
        eapply st_while_le; [| |exact E2]; [|lia].
        intros u y. apply st_eval_fuel_le. lia.
Qed.

(** With user code that keeps no state, a loop that is about to execute
    its body in a state from which the body comes to succeed without
    moving [pos] does not end. *)
Lemma while_never_exits f e st t k s' v :
  Stateful.pure_user_code U run_code f ->
  iterates e st t ->
  Runtime.eval input g f k e (parser t) = Some (s', v) ->
  v <> VNull -> pos s' = pos (parser t) ->
  forall n fuel items r,
    r <> VNull ->
    Runtime.while_loop (Runtime.eval input g f n e) fuel items (parser st) r
    = None.
Proof.
  intros Hpure Hi Hk Hv Hp.
  induction Hi as [st|st n0 st1 v0 t E0 Hv0 Hi IH];
    intros n fuel items r Hr;
    (assert (Hnn : is_null r = false) by (destruct r; simpl; congruence));
    (destruct fuel as [|fuel]; cbn [Runtime.while_loop]; rewrite Hnn;
     [reflexivity|]);
    (destruct (Runtime.eval input g f n e (parser st)) as [[s1 r1]|] eqn:E;
     [|reflexivity]).
  - pose proof (eval_fuel_det input g f _ _ _ _ _ _ E Hk) as Heq.
    injection Heq as -> ->.
    eapply while_spins; eauto.
  - apply (eval_erase f Hpure) in E0. destruct E0 as (E0 & _).
    pose proof (eval_fuel_det input g f _ _ _ _ _ _ E E0) as Heq.
    injection Heq as -> ->.
    apply IH; auto.
Qed.

(** C10 (as amended).  The loops of [zero_or_more] and [one_or_more].
    (1) If, in the states in which the loop executes the inner expression
    (the state the fragment starts in and the states left by executions
    of the inner expression that succeed), every execution of the inner
    expression completes and each one that succeeds strictly advances
    [pos], the fragment completes, whatever the input and whatever the
    user's code does with its variables.  (2) For user code that keeps
    no state: if in one of these states the inner expression succeeds
    without moving [pos], the loop never exits: the fragment does not
    complete, whatever the number of iterations allowed. *)
Theorem repetition_termination e :
  (forall st,
     (forall t, iterates e st t -> exists n x, eval n e t = Some x) ->
     (forall n t t' v,
        iterates e st t -> eval n e t = Some (t', v) -> v <> VNull ->
        pos (parser t) < pos (parser t')) ->
     (exists n x, eval n (ZeroOrMore e) st = Some x)
     /\ (exists n x, eval n (OneOrMore e) st = Some x))
  /\ (forall f,
        Stateful.pure_user_code U run_code f ->
        forall st t k t' v,
          iterates e st t ->
          eval k e t = Some (t', v) -> v <> VNull ->
          pos (parser t') = pos (parser t) ->
          forall n, eval n (ZeroOrMore e) st = None
                    /\ eval n (OneOrMore e) st = None).
Proof.
  split.
  - intros st Htotal Hadv.
    destruct (Htotal st (iterates_here _ _ _ _ _ _)) as (n1 & [st1 r1] & E1).
    destruct (bound_exists input (parser st)) as (B & HB & Hb).
    pose proof (st_eval_bounded _ _ _ _ _ _ HB Hb E1) as Hb1.
    assert (Hl1 : r1 <> VNull -> iterates e st st1).
    { intros Hr1. eapply iterates_next; [exact E1|exact Hr1|].
      apply iterates_here. }
    destruct (st_while_terminates B e st HB Htotal Hadv
                (B - pos (parser st1)) st1 r1 [] Hl1 Hb1)
      as (n2 & x & E2); [lia|].
    assert (Hev : eval (Nat.max n1 n2) e st = Some (st1, r1))
      by (eapply st_eval_fuel_le; [|exact E1]; lia).
    assert (Hloop : while_loop (eval (Nat.max n1 n2) e) (Nat.max n1 n2)
                               [] st1 r1 = Some x).
    { eapply st_while_le; [| |exact E2]; [|lia].
      intros u y. apply st_eval_fuel_le. lia. }
    split; exists (S (Nat.max n1 n2)); cbn [Stateful.eval]; rewrite Hev.
    + eauto.
    + destruct (negb (is_null r1)); eauto.
  - intros f Hpure st t k t' v Hi Hk Hv Hp n.
    apply (eval_erase f Hpure) in Hk. destruct Hk as (Hk & _).
    assert (Hnever : forall m, Runtime.eval input g f m (ZeroOrMore e)
                                 (parser st) = None
                               /\ Runtime.eval input g f m (OneOrMore e)
                                    (parser st) = None).
    { intros m. destruct m as [|m]; [split; reflexivity|].
      cbn [Runtime.eval].
      destruct (Runtime.eval input g f m e (parser st)) as [[s1 r1]|] eqn:E;
        [|split; reflexivity].
      assert (Hloop : r1 <> VNull ->
                forall items,
                  Runtime.while_loop (Runtime.eval input g f m e) m items
                                     s1 r1 = None).
      { intros Hr1 items. inversion Hi as [|n0 st1 v0 t0 E0 Hv0 Hi0]; subst.
        - pose proof (eval_fuel_det input g f _ _ _ _ _ _ E Hk) as Heq.
          injection Heq as -> ->.
          eapply while_spins; eauto.
        - apply (eval_erase f Hpure) in E0. destruct E0 as (E0 & _).
          pose proof (eval_fuel_det input g f _ _ _ _ _ _ E E0) as Heq.
          injection Heq as -> ->.
          eapply while_never_exits; eauto. }
      assert (Hr1 : r1 <> VNull).
      { inversion Hi as [|n0 st1 v0 t0 E0 Hv0 Hi0]; subst.
        - pose proof (eval_fuel_det input g f _ _ _ _ _ _ E Hk) as Heq.
          injection Heq as -> ->. exact Hv.
        - apply (eval_erase f Hpure) in E0. destruct E0 as (E0 & _).
          pose proof (eval_fuel_det input g f _ _ _ _ _ _ E E0) as Heq.
          injection Heq as -> ->. exact Hv0. }
      assert (Hnn : is_null r1 = false)
        by (destruct r1; simpl; congruence).
      rewrite Hnn. simpl. split; apply Hloop; exact Hr1. }
    destruct (Hnever n) as [H0 H1].
    pose proof (mirrors_eval f Hpure n (ZeroOrMore e) st) as M0.
    pose proof (mirrors_eval f Hpure n (OneOrMore e) st) as M1.
    rewrite H0 in M0. rewrite H1 in M1. auto.
Qed.

End Facts.

End StatefulFacts.

(** ** The properties on sample inputs *)

Ltac not_among :=
  let H := fresh "H" in
  intros H;
  repeat (apply elem_of_cons in H as [H|H]; [discriminate H|]);
  inversion H.

Module TemplateCases.
Import TemplateText InterpolationFacts IndentationFacts QuoteFacts UIDCalls
       UIDFacts.

(** Two lines of the template of [grammar] that hold no variable. *)
Lemma interpolate_without_dollar_witness :
  Forall (fun part => DOLLAR ∉ part) [js "var pos = 0;"; js "var cache = {};"]
  /\ formatCode [js "var pos = 0;"; js "var cache = {};"] []
     = Return (js "var pos = 0;" ++ nl ++ js "var cache = {};").
Proof.
  assert (H : Forall (fun part => DOLLAR ∉ part)
                [js "var pos = 0;"; js "var cache = {};"])
    by (repeat (constructor; [not_among|]); constructor).
  exact (conj H (proj2 (interpolate_without_dollar [] _ H))).
Defined.

(** The template of [choice] with a value that itself looks like a
    reference: it is put in as it is. *)
Lemma interpolate_defined_witness :
  (DOLLAR ∉ js "var ")
  /\ is_identifier (js "resultVar") = true
  /\ lookup_var [(js "resultVar", js "${x}")] (js "resultVar")
     = Some (js "${x}")
  /\ interpolate [(js "resultVar", js "${x}")]
       (js "var " ++ reference (js "resultVar") ++ js " = null;")
     = Return (js "var ${x} = null;").
Proof.
  assert (H1 : DOLLAR ∉ js "var ") by not_among.
  assert (H2 : is_identifier (js "resultVar") = true) by reflexivity.
  assert (H3 : lookup_var [(js "resultVar", js "${x}")] (js "resultVar")
               = Some (js "${x}")) by reflexivity.
  exact (conj H1 (conj H2 (conj H3
           (interpolate_defined _ _ _ _ (js " = null;") H1 H2 H3)))).
Defined.

(** The two filters of the examples of [formatCode]. *)
Lemma interpolate_filtered_witness :
  (DOLLAR ∉ js "x = ")
  /\ is_identifier (js "bar") = true
  /\ is_identifier (js "string") = true
  /\ is_identifier (js "eeek") = true
  /\ lookup_var [(js "bar", js "baz")] (js "bar") = Some (js "baz")
  /\ interpolate [(js "bar", js "baz")]
       (js "x = " ++ filtered_reference (js "bar") (js "string") ++ js ";")
     = Return (js "x = " ++ dq ++ js "baz" ++ dq ++ js ";")
  /\ interpolate [(js "bar", js "baz")]
       (js "x = " ++ filtered_reference (js "bar") (js "eeek") ++ js ";")
     = Raise (UnrecognizedFilter (js "eeek")).
Proof.
  assert (H1 : DOLLAR ∉ js "x = ") by not_among.
  assert (H2 : is_identifier (js "bar") = true) by reflexivity.
  assert (H3 : is_identifier (js "string") = true) by reflexivity.
  assert (H4 : is_identifier (js "eeek") = true) by reflexivity.
  assert (H5 : lookup_var [(js "bar", js "baz")] (js "bar")
               = Some (js "baz")) by reflexivity.
  exact (conj H1 (conj H2 (conj H3 (conj H4 (conj H5 (conj
           (interpolate_filtered _ _ _ _ _ (js ";") H1 H2 H3 H5)
           (interpolate_filtered _ _ _ _ _ (js ";") H1 H2 H4 H5))))))).
Defined.

(** The third example of [formatCode], and the fifth without the
    variable. *)
Lemma formatCode_undefined_variable_witness :
  Forall (fun p => DOLLAR ∉ p) [js "foo"]
  /\ (DOLLAR ∉ ([] : jsstring))
  /\ is_identifier (js "bar") = true
  /\ is_identifier (js "eeek") = true
  /\ JsObject.inherited (js "bar") = false
  /\ lookup_var [] (js "bar") = None
  /\ formatCode [js "foo"; js "${bar}"] []
     = Raise (UndefinedVariable (js "bar"))
  /\ formatCode [js "foo"; js "${bar|eeek}"] []
     = Raise (UndefinedVariable (js "bar")).
Proof.
  assert (H1 : Forall (fun p => DOLLAR ∉ p) [js "foo"])
    by (constructor; [not_among|constructor]).
  assert (H2 : DOLLAR ∉ ([] : jsstring)) by not_among.
  assert (H3 : is_identifier (js "bar") = true) by reflexivity.
  assert (H4 : is_identifier (js "eeek") = true) by reflexivity.
  assert (H5 : lookup_var [] (js "bar") = None) by reflexivity.
  assert (H6 : JsObject.inherited (js "bar") = false) by reflexivity.
  pose proof (formatCode_undefined_variable [] [js "foo"] [] (js "bar") [] []
                H1 H2 H3 H6 H5) as [Ha Hb].
  exact (conj H1 (conj H2 (conj H3 (conj H4 (conj H6 (conj H5
           (conj Ha (Hb (js "eeek") H4)))))))).
Defined.

(** The sixth example of [formatCode]. *)
Lemma indent_lines_witness :
  split_on LF (js "  baz" ++ nl ++ js "qux") = [js "  baz"; js "qux"]
  /\ existsb (fun c => negb (is_whitespace c)) (js "  baz") = true
  /\ indentPart (js "  baz" ++ nl ++ js "qux")
     = js "  baz" ++ nl ++ js "  qux".
Proof.
  assert (H1 : split_on LF (js "  baz" ++ nl ++ js "qux")
               = [js "  baz"; js "qux"]) by reflexivity.
  assert (H3 : existsb (fun c => negb (is_whitespace c)) (js "  baz") = true)
    by reflexivity.
  exact (conj H1 (conj H3 (indent_lines _ _ _ H1 H3))).
Defined.

(** Code of a rule put in the template of [grammar] under a variable
    that starts its line. *)
Lemma indent_unindented_witness :
  is_whitespace 102%N = false
  /\ indentPart (js "function f() {" ++ nl ++ js "  return 1;" ++ nl ++ js "}")
     = js "function f() {" ++ nl ++ js "  return 1;" ++ nl ++ js "}".
Proof.
  assert (H : is_whitespace 102%N = false) by reflexivity.
  exact (conj H
           (indent_unindented 102%N
              (js "unction f() {" ++ nl ++ js "  return 1;" ++ nl ++ js "}")
              H)).
Defined.

(** A quote, a letter with an accent, a line feed and U+2028. *)
Lemma quote_ascii_witness :
  Forall (fun c => (c < 65536)%N) [34; 233; 10; 8232]%N
  /\ Forall (fun c => (c < 128)%N /\ c <> LF /\ c <> CR)
            (quote [34; 233; 10; 8232]%N).
Proof.
  assert (H : Forall (fun c => (c < 65536)%N) [34; 233; 10; 8232]%N)
    by (repeat (constructor; [reflexivity|]); constructor).
  exact (conj H (quote_ascii _ H)).
Defined.

(** The names of a sequence of two elements inside a choice, when one
    result was named before. *)
Lemma next_names_distinct_witness :
  Forall (fun p => ends_in_digit p = false)
         [js "result"; js "savedPos"; js "result"; js "result"]
  /\ Forall (fun p => JsObject.inherited p = false)
            [js "result"; js "savedPos"; js "result"; js "result"]
  /\ (4 <= JsObject.MAX_EXACT)%N
  /\ (forall p n,
        ({[ js "result" := 1 ]} : gmap jsstring nat) !! p = Some n ->
        (N.of_nat n + 4 <= JsObject.MAX_EXACT)%N)
  /\ NoDup (fst (next_all
                   [js "result"; js "savedPos"; js "result"; js "result"]
                   {[ js "result" := 1 ]})).
Proof.
  assert (H1 : Forall (fun p => ends_in_digit p = false)
                 [js "result"; js "savedPos"; js "result"; js "result"])
    by (repeat (constructor; [reflexivity|]); constructor).
  assert (H2 : Forall (fun p => JsObject.inherited p = false)
                 [js "result"; js "savedPos"; js "result"; js "result"])
    by (repeat (constructor; [reflexivity|]); constructor).
  assert (H3 : (4 <= JsObject.MAX_EXACT)%N)
    by (intros H; discriminate H).
  assert (H4 : forall p n,
             ({[ js "result" := 1 ]} : gmap jsstring nat) !! p = Some n ->
             (N.of_nat n + 4 <= JsObject.MAX_EXACT)%N).
  { intros p n H. apply lookup_singleton_Some in H as [_ <-].
    intros H; discriminate H. }
  exact (conj H1 (conj H2 (conj H3 (conj H4
           (next_names_distinct _ {[ js "result" := 1 ]} H1 H2 H3 H4))))).
Defined.

End TemplateCases.

Module ParserCases.
Import Runtime Samples ParserStates RuntimeFacts ParserFacts ErrorFacts
       PositionFacts SpecWords.

(** A literal that fails inside a predicate. *)
Lemma reporting_discipline_witness :
  eval (js "abc") abc_grammar returns_null 1 (Literal (js "x")) quiet_state
    = Some (quiet_state, VNull)
  /\ reportMatchFailures quiet_state = false
  /\ rightmostMatchFailuresPos quiet_state = 0
  /\ rightmostMatchFailuresExpected quiet_state = [].
Proof.
  assert (H : eval (js "abc") abc_grammar returns_null 1 (Literal (js "x"))
                quiet_state = Some (quiet_state, VNull)) by reflexivity.
  destruct (reporting_discipline (js "abc") abc_grammar returns_null 1
              (Literal (js "x")) quiet_state quiet_state VNull H)
    as [H1 H2].
  exact (conj H (conj H1 (H2 eq_refl))).
Defined.

(** The sequence ["a" "b"] on ["ab"]. *)
Lemma sequence_result_witness :
  eval (js "ab") abc_grammar returns_null 2
       (Sequence [Literal (js "a"); Literal (js "b")]) initial_state
    = Some (set_pos 2 initial_state, VArr [VStr (js "a"); VStr (js "b")])
  /\ (VArr [VStr (js "a"); VStr (js "b")] = VNull
      /\ pos (set_pos 2 initial_state) = pos initial_state
      \/ exists items,
           VArr [VStr (js "a"); VStr (js "b")] = VArr items
           /\ length items = 2
           /\ Forall (fun v => v <> VNull) items).
Proof.
  assert (H : eval (js "ab") abc_grammar returns_null 2
                (Sequence [Literal (js "a"); Literal (js "b")]) initial_state
              = Some (set_pos 2 initial_state,
                      VArr [VStr (js "a"); VStr (js "b")])) by reflexivity.
  exact (conj H (sequence_result (js "ab") abc_grammar returns_null 2 _ _ _ _
                   H)).
Defined.

(** The literal ["abc"], matched again inside a predicate. *)
Lemma memoization_is_transparent_witness :
  eval (js "abc") abc_grammar returns_null 1 (Literal (js "abc"))
       initial_state
    = Some (set_pos 3 initial_state, VStr (js "abc"))
  /\ pos quiet_state = pos initial_state
  /\ cache (set_pos 3 initial_state) ⊆ cache quiet_state
  /\ 1 <= 2
  /\ exists t',
       eval (js "abc") abc_grammar returns_null 2 (Literal (js "abc"))
            quiet_state = Some (t', VStr (js "abc"))
       /\ pos t' = 3 /\ cache t' = ∅.
Proof.
  assert (H1 : eval (js "abc") abc_grammar returns_null 1
                 (Literal (js "abc")) initial_state
               = Some (set_pos 3 initial_state, VStr (js "abc")))
    by reflexivity.
  assert (H2 : pos quiet_state = pos initial_state) by reflexivity.
  assert (H3 : cache (set_pos 3 initial_state) ⊆ cache quiet_state)
    by reflexivity.
  assert (H4 : 1 <= 2) by lia.
  exact (conj H1 (conj H2 (conj H3 (conj H4
           (memoization_is_transparent (js "abc") abc_grammar returns_null
              1 2 _ _ _ _ _ H1 H2 H3 H4))))).
Defined.


(** The second line of an input of two lines. *)
Lemma position_by_lines_witness :
  rightmostMatchFailuresPos (State 0 true 3 [] ∅)
    <= length (js "a" ++ nl ++ js "bc")
  /\ Forall (fun c => c <> CR /\ c <> LS /\ c <> PS)
            (take (rightmostMatchFailuresPos (State 0 true 3 [] ∅))
                  (js "a" ++ nl ++ js "bc"))
  /\ computeErrorPosition (js "a" ++ nl ++ js "bc") (State 0 true 3 [] ∅)
     = (2, 2).
Proof.
  assert (H1 : rightmostMatchFailuresPos (State 0 true 3 [] ∅)
               <= length (js "a" ++ nl ++ js "bc")) by (simpl; lia).
  assert (H2 : Forall (fun c => c <> CR /\ c <> LS /\ c <> PS)
                 (take (rightmostMatchFailuresPos (State 0 true 3 [] ∅))
                       (js "a" ++ nl ++ js "bc")))
    by (repeat (constructor;
                  [repeat split; intros H; discriminate H|]); constructor).
  exact (conj H1 (conj H2 (position_by_lines _ _ H1 H2))).
Defined.

(** The same failure recorded twice, and the failures in two orders. *)
Lemma expected_is_canonical_witness :
  (forall f,
     f ∈ [js "b"; js "a"; js "b"] <-> f ∈ [js "a"; js "b"])
  /\ buildExpected [js "b"; js "a"; js "b"] = js "a or b"
  /\ buildExpected [js "a"; js "b"] = js "a or b".
Proof.
  assert (H : forall f,
             f ∈ [js "b"; js "a"; js "b"] <-> f ∈ [js "a"; js "b"]).
  { intros f. rewrite !elem_of_cons, !elem_of_nil. tauto. }
  pose proof (expected_is_canonical _ _ H) as E.
  split; [exact H|]. split; [|reflexivity].
  rewrite E. reflexivity.
Defined.

(** The action of [x:"a" "b" { return x; }] on ["ab"]. *)
Lemma action_gets_labelled_results_witness :
  eval (js "ab") abc_grammar returns_first_parameter 3
       (Sequence [Labeled (js "x") (Literal (js "a")); Literal (js "b")])
       initial_state
    = Some (set_pos 2 initial_state, VArr [VStr (js "a"); VStr (js "b")])
  /\ eval (js "ab") abc_grammar returns_first_parameter 4
         (Action
            (Sequence [Labeled (js "x") (Literal (js "a")); Literal (js "b")])
            (js "return x;"))
         initial_state
     = Some (set_pos 2 initial_state, VStr (js "a")).
Proof.
  assert (H : eval (js "ab") abc_grammar returns_first_parameter 3
                (Sequence [Labeled (js "x") (Literal (js "a"));
                           Literal (js "b")])
                initial_state
              = Some (set_pos 2 initial_state,
                      VArr [VStr (js "a"); VStr (js "b")]))
    by reflexivity.
  exact (conj H
           (action_gets_labelled_results (js "ab") abc_grammar
              returns_first_parameter 3 _ (js "return x;") _ _ _ H)).
Defined.

(** An input with a carriage return and a line feed between its two
    lines. *)
Lemma computeErrorPosition_agrees_witness :
  (LS ∉ js "a" ++ [CR; LF] ++ js "b")
  /\ (PS ∉ js "a" ++ [CR; LF] ++ js "b")
  /\ computeErrorPosition (js "a" ++ [CR; LF] ++ js "b")
       (State 0 true 4 [] ∅) = (2, 2)
  /\ spec_position (js "a" ++ [CR; LF] ++ js "b") 4 = (2, 2).
Proof.
  assert (H1 : LS ∉ js "a" ++ [CR; LF] ++ js "b") by not_among.
  assert (H2 : PS ∉ js "a" ++ [CR; LF] ++ js "b") by not_among.
  pose proof (computeErrorPosition_agrees (js "a" ++ [CR; LF] ++ js "b")
                (State 0 true 4 [] ∅) H1 H2) as E.
  split; [exact H1|]. split; [exact H2|]. split; [|reflexivity].
  rewrite E. reflexivity.
Defined.

(** The choice ["a" / "b" / "c"] on ["b"]. *)
Lemma choice_is_ordered_witness :
  eval (js "b") abc_grammar returns_null 2 (Choice [Literal (js "a")])
       initial_state
    = Some (State 0 true 0 [quote (js "a")] ∅, VNull)
  /\ eval (js "b") abc_grammar returns_null 2
         (Choice [Literal (js "a"); Literal (js "b"); Literal (js "c")])
         initial_state
     = Some (State 1 true 0 [quote (js "a")] ∅, VStr (js "b")).
Proof.
  assert (H : eval (js "b") abc_grammar returns_null 2
                (Choice [Literal (js "a")]) initial_state
              = Some (State 0 true 0 [quote (js "a")] ∅, VNull))
    by reflexivity.
  split; [exact H|].
  refine (proj1 (choice_is_ordered (js "b") abc_grammar returns_null 1
                   [Literal (js "a")] (Literal (js "b")) [Literal (js "c")]
                   initial_state _ H) _ _ eq_refl _).
  intros E. discriminate E.
Defined.

(** The literal ["ab"] at the start of ["abc"]. *)
Lemma terminals_give_the_input_witness :
  pos initial_state <= length (js "abc")
  /\ exists s' r,
       eval (js "abc") abc_grammar returns_null 1 (Literal (js "ab"))
            initial_state = Some (s', r)
       /\ (r = VNull /\ pos s' = pos initial_state
           \/ r = VStr (js "ab")
              /\ substr (js "abc") (pos initial_state) (length (js "ab"))
                 = js "ab"
              /\ pos s' = pos initial_state + length (js "ab")
              /\ pos s' <= length (js "abc")).
Proof.
  assert (H : pos initial_state <= length (js "abc")) by (simpl; lia).
  exact (conj H (proj1 (terminals_give_the_input (js "abc") abc_grammar
                          returns_null 0)
                       (js "ab") initial_state H)).
Defined.

End ParserCases.

(** ** The parser with user code on sample grammars *)

Module StatefulCases.
Import Runtime Stateful Samples ParserStates StatefulSamples RuntimeFacts
       StatefulFacts.

Lemma stateless_is_pure f :
  pure_user_code unit (stateless f) f.
Proof. intros code p bindings u. reflexivity. Qed.

Lemma letter_grammar_named k node :
  lookup_rule (rules letter_grammar) k = Some node -> name node = k.
Proof.
  unfold letter_grammar. cbn [rules lookup_rule].
  destruct (jsstring_eqb (js "letter") k) eqn:E; [|discriminate].
  apply JsFacts.jsstring_eqb_eq in E. intros [= <-]. exact E.
Qed.

Lemma cache_contract_empty : cache_contract (cache initial_state).
Proof.
  intros k p np x Hk. simpl in Hk. rewrite lookup_empty in Hk.
  discriminate Hk.
Qed.

(** C2, witness: [parse_letter] at position 1 of ["ab"], and again in a
    predicate after the position was reset; the parse of ["ab"] that
    starts with [letter]. *)
Lemma packrat_cache_coherence_witness :
  pure_user_code unit (stateless returns_null) returns_null
  /\ (forall k node,
        lookup_rule (rules letter_grammar) k = Some node -> name node = k)
  /\ parse_function unit (js "ab") letter_grammar (stateless returns_null) 1
       (js "letter") (PState (State 1 true 0 [] ∅) tt [])
     = Some (PState (State 2 true 0 []
                       {[ js "letter@1" := (2, VStr (js "b")) ]})
                    tt [Call (js "letter") 1 2 (VStr (js "b"))],
             VStr (js "b"))
  /\ cacheKey (js "letter") 1 = js "letter@1"
  /\ ({[ js "letter@1" := (2, VStr (js "b")) ]}
        : gmap jsstring (nat * value)) !! cacheKey (js "letter") 1
     = Some (2, VStr (js "b"))
  /\ parse_function unit (js "ab") letter_grammar (stateless returns_null) 0
       (js "letter")
       (PState (State 1 false 0 []
                  {[ js "letter@1" := (2, VStr (js "b")) ]})
               tt [Call (js "letter") 1 2 (VStr (js "b"))])
     = Some (PState (State 2 false 0 []
                       {[ js "letter@1" := (2, VStr (js "b")) ]})
                    tt [Call (js "letter") 1 2 (VStr (js "b"));
                        Call (js "letter") 1 2 (VStr (js "b"))],
             VStr (js "b"))
  /\ parse_function unit (js "ab") letter_grammar (stateless returns_null) 1
       (js "letter") (initial tt)
     = Some (PState (State 1 true 0 []
                       {[ js "letter@0" := (1, VStr (js "a")) ]})
                    tt [Call (js "letter") 0 1 (VStr (js "a"))],
             VStr (js "a"))
  /\ coherent
       (PState (State 1 true 0 []
                  {[ js "letter@0" := (1, VStr (js "a")) ]})
               tt [Call (js "letter") 0 1 (VStr (js "a"))]).
Proof.
  pose proof (stateless_is_pure returns_null) as H1.
  pose proof letter_grammar_named as H2.
  assert (H3 : parse_function unit (js "ab") letter_grammar
                 (stateless returns_null) 1 (js "letter")
                 (PState (State 1 true 0 [] ∅) tt [])
               = Some (PState (State 2 true 0 []
                                 {[ js "letter@1" := (2, VStr (js "b")) ]})
                              tt [Call (js "letter") 1 2 (VStr (js "b"))],
                       VStr (js "b"))) by reflexivity.
  assert (H4 : parse_function unit (js "ab") letter_grammar
                 (stateless returns_null) 1 (js "letter") (initial tt)
               = Some (PState (State 1 true 0 []
                                 {[ js "letter@0" := (1, VStr (js "a")) ]})
                              tt [Call (js "letter") 0 1 (VStr (js "a"))],
                       VStr (js "a"))) by reflexivity.
  assert (Hl : lookup_rule (rules letter_grammar) (js "letter")
               = Some letter_rule) by reflexivity.
  pose proof (packrat_cache_coherence unit (js "ab") letter_grammar
                (stateless returns_null) returns_null H1 H2)
    as (P1 & _ & P3 & _ & P5 & P6).
  destruct (P1 1 (js "letter") letter_rule _ _ _ Hl H3) as (K & E & _).
  pose proof (P3 0 (js "letter") letter_rule
                (PState (State 1 false 0 []
                           {[ js "letter@1" := (2, VStr (js "b")) ]})
                        tt [Call (js "letter") 1 2 (VStr (js "b"))])
                2 (VStr (js "b")) Hl eq_refl) as Hit.
  destruct (P5 _ (P6 1 (js "letter") tt _ _ H4)) as [_ Hco].
  exact (conj H1 (conj H2 (conj H3 (conj K (conj E (conj Hit
           (conj H4 Hco))))))).
Defined.

(** C2, counterexample: the grammar
    [{ var n = 0; } R = &{ return n++ === 0; } R { return 'outer'; } / "x"]
    on ["x"].  The call of [parse_R] at position 0 enters [parse_R] at
    position 0 again, after the predicate has counted one call; the inner
    call completes first, returns ["x"] and stores it; the outer call
    returns ["outer"] and replaces the entry.  Two calls of [parse_R] at
    the same position, completed in one parse, return different results. *)
Lemma packrat_cache_coherence_counterexample :
  parse_function nat (js "x") reentrant_grammar counter_code 10 (js "R")
    (initial 0)
  = Some (PState (State 1 true 0 []
                    {[ js "R@0" := (1, VStr (js "outer")) ]})
                 2 [Call (js "R") 0 1 (VStr (js "x"));
                    Call (js "R") 0 1 (VStr (js "outer"))],
          VStr (js "outer"))
  /\ ~ coherent
         (PState (State 1 true 0 []
                    {[ js "R@0" := (1, VStr (js "outer")) ]})
                 2 [Call (js "R") 0 1 (VStr (js "x"));
                    Call (js "R") 0 1 (VStr (js "outer"))]).
Proof.
  split; [reflexivity|].
  intros H.
  destruct (H (Call (js "R") 0 1 (VStr (js "x")))
              (Call (js "R") 0 1 (VStr (js "outer"))))
    as [_ Hr]; cbn [calls call_rule_name call_pos]; try reflexivity.
  - left.
  - right. left.
  - discriminate Hr.
Qed.

(** C10, witness: [letter*] and [letter+] complete on ["a"], for the rule
    [letter = [a-z]]: the loop executes [letter] at position 0, where it
    advances, and at position 1, where it fails.  [("a" / "b"?)*] and
    [("a" / "b"?)+] do not complete on ["a"]: the loop comes to position
    1, where ["a" / "b"?] succeeds without consuming input. *)
Lemma repetition_termination_witness :
  ((exists n x,
      eval unit (js "a") letter_grammar (stateless returns_null) n
           (ZeroOrMore (RuleRef (js "letter"))) (initial tt) = Some x)
   /\ (exists n x,
         eval unit (js "a") letter_grammar (stateless returns_null) n
              (OneOrMore (RuleRef (js "letter"))) (initial tt) = Some x))
  /\ (forall n,
        eval unit (js "a") abc_grammar (stateless returns_null) n
             (ZeroOrMore a_or_maybe_b) (initial tt) = None
        /\ eval unit (js "a") abc_grammar (stateless returns_null) n
                (OneOrMore a_or_maybe_b) (initial tt) = None).
Proof.
  split.
  - set (e := RuleRef (js "letter")).
    set (c1 := PState (State 1 true 0 []
                         {[ js "letter@0" := (1, VStr (js "a")) ]})
                      tt [Call (js "letter") 0 1 (VStr (js "a"))]).
    assert (C0 : eval unit (js "a") letter_grammar (stateless returns_null)
                   2 e (initial tt) = Some (c1, VStr (js "a")))
      by reflexivity.
    assert (C1 : exists x,
               eval unit (js "a") letter_grammar (stateless returns_null)
                    2 e c1 = Some (x, VNull))
      by (eexists; reflexivity).
    assert (Hreach : forall t,
               iterates unit (js "a") letter_grammar
                        (stateless returns_null) e (initial tt) t ->
               t = initial tt \/ t = c1).
    { intros t Hi.
      inversion Hi as [|n st1 v t0 E Hv Hi1]; subst; [left; reflexivity|].
      pose proof (st_eval_fuel_det _ _ _ _ _ _ _ _ _ _ E C0) as Heq.
      injection Heq as -> ->.
      inversion Hi1 as [|n2 st2 v2 t2 E2 Hv2 Hi2]; subst;
        [right; reflexivity|].
      destruct C1 as [x C1].
      pose proof (st_eval_fuel_det _ _ _ _ _ _ _ _ _ _ E2 C1) as Heq.
      injection Heq as _ ->. congruence. }
    apply (proj1 (repetition_termination unit (js "a") letter_grammar
                    (stateless returns_null) e) (initial tt)).
    + intros t Hi. destruct (Hreach t Hi) as [->| ->].
      * exists 2. eexists. exact C0.
      * destruct C1 as [x C1]. exists 2. eexists. exact C1.
    + intros n t t' v Hi E Hv. destruct (Hreach t Hi) as [->| ->].
      * pose proof (st_eval_fuel_det _ _ _ _ _ _ _ _ _ _ E C0) as Heq.
        injection Heq as -> ->. simpl. lia.
      * destruct C1 as [x C1].
        pose proof (st_eval_fuel_det _ _ _ _ _ _ _ _ _ _ E C1) as Heq.
        injection Heq as _ ->. congruence.
  - apply (proj2 (repetition_termination unit (js "a") abc_grammar
                    (stateless returns_null) a_or_maybe_b)
                 returns_null (stateless_is_pure returns_null)
                 (initial tt)
                 (PState (State 1 true 0 [] ∅) tt [])
                 3
                 (PState (State 1 true 1 [quote (js "a"); quote (js "b")] ∅)
                         tt [])
                 (VStr [])).
    + apply (iterates_next unit (js "a") abc_grammar
               (stateless returns_null) a_or_maybe_b (initial tt) 2
               (PState (State 1 true 0 [] ∅) tt []) (VStr (js "a"))).
      * reflexivity.
      * discriminate.
      * apply iterates_here.
    + reflexivity.
    + discriminate.
    + reflexivity.
Defined.

(** C10, counterexample: [(&{ return n++ < 3; })*] after the initializer
    [var n = 0;], on the empty input.  The predicate succeeds at position
    0 without consuming input, and the loop exits after three iterations
    with the three results. *)
Lemma repetition_termination_counterexample :
  eval nat [] reentrant_grammar counter_code 1
       (SemanticAnd (js "return n++ < 3;")) (initial 0)
  = Some (PState initial_state 1 [], VStr [])
  /\ pos (parser (PState initial_state 1 [])) = pos (parser (initial 0))
  /\ eval nat [] reentrant_grammar counter_code 5 counted_loop (initial 0)
     = Some (PState initial_state 4 [], VArr [VStr []; VStr []; VStr []]).
Proof. repeat split. Qed.


(** ["a"*] on ["aab"]: two matches, and no third. *)
Lemma repetition_is_greedy_witness :
  pure_user_code unit (stateless returns_undefined) returns_undefined
  /\ (forall code p bindings, returns_undefined code p bindings <> VNull)
  /\ cache_contract (cache initial_state)
  /\ eval unit (js "aab") abc_grammar (stateless returns_undefined) 3
       (ZeroOrMore (Literal (js "a"))) (initial tt)
     = Some (PState (State 2 true 2 [quote (js "a")] ∅) tt [],
             VArr [VStr (js "a"); VStr (js "a")])
  /\ exists t',
       eval unit (js "aab") abc_grammar (stateless returns_undefined) 3
            (Literal (js "a"))
            (PState (State 2 true 2 [quote (js "a")] ∅) tt [])
       = Some (t', VNull)
       /\ pos (parser t') = 2 /\ cache (parser t') = ∅.
Proof.
  pose proof (stateless_is_pure returns_undefined) as H0.
  assert (H1 : forall code p bindings,
             returns_undefined code p bindings <> VNull)
    by (intros code p bindings H; discriminate H).
  pose proof cache_contract_empty as H2.
  assert (H3 : eval unit (js "aab") abc_grammar
                 (stateless returns_undefined) 3
                 (ZeroOrMore (Literal (js "a"))) (initial tt)
               = Some (PState (State 2 true 2 [quote (js "a")] ∅) tt [],
                       VArr [VStr (js "a"); VStr (js "a")]))
    by reflexivity.
  exact (conj H0 (conj H1 (conj H2 (conj H3
           (repetition_is_greedy unit (js "aab") abc_grammar
              (stateless returns_undefined) returns_undefined 3
              (Literal (js "a")) (initial tt) _ _ H0 H1 H2
              (or_introl H3)))))).
Defined.

(** The choice ["a" / "b"] on ["c"]. *)
Lemma failed_choice_has_no_match_witness :
  pure_user_code unit (stateless returns_undefined) returns_undefined
  /\ (forall code p bindings, returns_undefined code p bindings <> VNull)
  /\ cache_contract (cache initial_state)
  /\ eval unit (js "c") abc_grammar (stateless returns_undefined) 2
       (Choice [Literal (js "a"); Literal (js "b")]) (initial tt)
     = Some (PState (State 0 true 0 [quote (js "a"); quote (js "b")] ∅)
                    tt [], VNull)
  /\ exists t',
       eval unit (js "c") abc_grammar (stateless returns_undefined) 2
            (Literal (js "b"))
            (PState (State 0 true 0 [quote (js "a"); quote (js "b")] ∅)
                    tt [])
       = Some (t', VNull)
       /\ pos (parser t') = 0 /\ cache (parser t') = ∅.
Proof.
  pose proof (stateless_is_pure returns_undefined) as H0.
  assert (H1 : forall code p bindings,
             returns_undefined code p bindings <> VNull)
    by (intros code p bindings H; discriminate H).
  pose proof cache_contract_empty as H2.
  assert (H3 : eval unit (js "c") abc_grammar
                 (stateless returns_undefined) 2
                 (Choice [Literal (js "a"); Literal (js "b")]) (initial tt)
               = Some (PState (State 0 true 0
                                 [quote (js "a"); quote (js "b")] ∅)
                              tt [], VNull))
    by reflexivity.
  assert (H4 : Literal (js "b") ∈ [Literal (js "a"); Literal (js "b")])
    by (right; left).
  exact (conj H0 (conj H1 (conj H2 (conj H3
           (proj2 (failed_choice_has_no_match unit (js "c") abc_grammar
                     (stateless returns_undefined) returns_undefined 2 _
                     (initial tt) _ H0 H1 H2 H3)
                  _ H4))))).
Defined.

(** With user code that counts its calls a repetition can end where its
    expression matches: [(&{ return n++ !== 1; } "a")*] on ["aa"] ends
    after one ["a"], at position 1, and its expression executed once more
    there matches the second. *)
Example counting_code_ends_a_repetition_early :
  eval nat (js "aa") reentrant_grammar counter_code 4
       (ZeroOrMore skipping_element) (initial 0)
  = Some (PState (State 1 true 0 [] ∅) 2 [],
          VArr [VArr [VStr []; VStr (js "a")]])
  /\ eval nat (js "aa") reentrant_grammar counter_code 4 skipping_element
          (PState (State 1 true 0 [] ∅) 2 [])
     = Some (PState (State 2 true 0 [] ∅) 3 [],
             VArr [VStr []; VStr (js "a")]).
Proof. split; reflexivity. Qed.

(** With user code that counts its calls a choice can fail where one of
    its alternatives matches: [&{ return n++ !== 0; } "a" / "b"] fails on
    ["a"], and its first alternative executed again matches. *)
Example counting_code_fails_a_choice_that_matches :
  eval nat (js "a") reentrant_grammar counter_code 3 (Choice late_choice)
       (initial 0)
  = Some (PState (State 0 true 0 [quote (js "b")] ∅) 1 [], VNull)
  /\ eval nat (js "a") reentrant_grammar counter_code 3
          (Sequence [SemanticAnd (js "return n++ !== 0;");
                     Literal (js "a")])
          (PState (State 0 true 0 [quote (js "b")] ∅) 1 [])
     = Some (PState (State 1 true 0 [quote (js "b")] ∅) 2 [],
             VArr [VStr []; VStr (js "a")]).
Proof. split; reflexivity. Qed.

End StatefulCases.
